(** * HYSOC: streaming stay-point segmentation and trajectory compression

    A shallow embedding of the algorithmic core of the [hysoc] package
    (STEP segmentation, SQUISH compression, the STC oracle, the sliding
    window of the online map matcher and its stream wrapper, stop
    compression, the SED and compression-ratio metrics, and the segment
    pipeline of the demo) together with the properties its specification
    states about it and further properties read off the code.

    Conventions of the embedding.
    - Python [float] values are idealised as real numbers ([R]); rounding,
      infinities and NaN are outside the model.  A [datetime] is the real
      number of seconds it denotes, so [.timestamp()] and
      [.total_seconds()] are the identity.
    - Python [int] values are [Z]; positions inside a list are [nat].
    - A raised exception is a value of [exn] carried by [result]; loops
      whose termination is not structural take fuel and report
      [OutOfFuel] when it is exhausted.
    - Mutable objects that are shared by reference (the SQUISH nodes) live
      in a store, a list indexed by the node's [index]; a reference is an
      index into that store. *)

From Stdlib Require Import Reals Lra Lia ZArith List String Bool.
From stdpp Require Import base list strings.

Set Default Proof Using "Type".

(** ** Exceptions and results *)

Inductive exn : Type :=
| ValueError
| IndexError
| ZeroDivisionError
| TypeError.

Inductive result (A : Type) : Type :=
| Ok (a : A)
| Raise (e : exn)
| OutOfFuel.

Arguments Ok {A} a.
Arguments Raise {A} e.
Arguments OutOfFuel {A}.

Global Instance result_ret : MRet result := fun _ a => Ok a.

Global Instance result_bind : MBind result := fun _ _ k r =>
  match r with
  | Ok a => k a
  | Raise e => Raise e
  | OutOfFuel => OutOfFuel
  end.

(** ** Python list primitives *)

Definition len {A : Type} (l : list A) : Z := Z.of_nat (length l).

(** [l[i]] with Python's negative indices. *)
Definition py_index {A : Type} (l : list A) (i : Z) : result A :=
  let j := (if i <? 0 then i + len l else i)%Z in
  if (j <? 0)%Z then Raise IndexError
  else match l !! Z.to_nat j with
       | Some x => Ok x
       | None => Raise IndexError
       end.

(** A slice bound, clamped the way [l[a:b]] does. *)
Definition py_bound {A : Type} (l : list A) (i : Z) : nat :=
  let j := (if i <? 0 then i + len l else i)%Z in
  Z.to_nat (Z.min (Z.max 0 j) (len l)).

(** [l[a:b]]. *)
Definition py_slice {A : Type} (l : list A) (a b : Z) : list A :=
  let lo := py_bound l a in
  let hi := py_bound l b in
  take (hi - lo) (drop lo l).

(** [l[a:]]. *)
Definition py_slice_from {A : Type} (l : list A) (a : Z) : list A :=
  drop (py_bound l a) l.

(** [l.remove(x)]: drops the first occurrence, [ValueError] when absent. *)
Fixpoint py_remove (x : nat) (l : list nat) : result (list nat) :=
  match l with
  | [] => Raise ValueError
  | y :: l' =>
      if Nat.eqb x y then Ok l'
      else r ← py_remove x l'; Ok (y :: r)
  end.

(** ** core/point.py *)

Inductive road : Type :=
| RoadStr (s : string)
| RoadInt (n : Z).

Record Point : Type := mkPoint {
  lat : R;
  lon : R;
  timestamp : R;
  obj_id : string;
  road_id : option road
}.

Global Instance R_eq_dec : EqDecision R := Req_dec_T.

Global Instance road_eq_dec : EqDecision road.
Proof. solve_decision. Defined.

(** The equality a [dataclass] generates: field by field. *)
Global Instance Point_eq_dec : EqDecision Point.
Proof. solve_decision. Defined.

(** ** core/segment.py *)

Inductive Segment : Type :=
| Stop (points : list Point) (centroid : option Point)
| Move (points : list Point).

Definition seg_points (s : Segment) : list Point :=
  match s with
  | Stop ps _ => ps
  | Move ps => ps
  end.

(** ** Numeric primitives of [math] *)

Definition radians (x : R) : R := (x * PI / 180)%R.

Definition py_sum (l : list R) : R := fold_left Rplus l 0%R.

Definition Reqb (x y : R) : bool := if Req_dec_T x y then true else false.
Definition Rleb (x y : R) : bool := if Rle_dec x y then true else false.
Definition Rltb (x y : R) : bool := if Rlt_dec x y then true else false.

(** ** modules/move_compression/squish.py *)

Module SquishCompressor.

Record t : Type := mk { capacity : Z }.

Definition __init__ (capacity : Z) : result t :=
  if (capacity <? 3)%Z then Raise ValueError else Ok (mk capacity).

(** A node priority is [float('inf')] until it is first computed. *)
Inductive prio : Type :=
| Inf
| Fin (r : R).

Definition prio_eqb (a : prio) (r : R) : bool :=
  match a with
  | Inf => false
  | Fin x => Reqb x r
  end.

(** The inner class [Node]; [prev] and [next] refer to nodes by index. *)
Record Node : Type := mkNode {
  point : Point;
  index : nat;
  prev : option nat;
  next : option nat;
  priority : prio;
  removed : bool
}.

Definition new_node (p : Point) (i : nat) : Node :=
  mkNode p i None None Inf false.

Definition set_prev (v : option nat) (n : Node) : Node :=
  mkNode (point n) (index n) v (next n) (priority n) (removed n).
Definition set_next (v : option nat) (n : Node) : Node :=
  mkNode (point n) (index n) (prev n) v (priority n) (removed n).
Definition set_priority (v : R) (n : Node) : Node :=
  mkNode (point n) (index n) (prev n) (next n) (Fin v) (removed n).
Definition set_removed (n : Node) : Node :=
  mkNode (point n) (index n) (prev n) (next n) (priority n) true.

(** [PriorityObject]: ordered by [priority] alone. *)
Definition PriorityObject : Type := (R * nat)%type.

(** [heapq] is modelled by what it guarantees: [heappop] returns an entry
    of least priority.  The queue is kept as a list sorted by priority,
    a new entry going behind the entries that are not larger. *)
Fixpoint heappush (pq : list PriorityObject) (x : PriorityObject)
  : list PriorityObject :=
  match pq with
  | [] => [x]
  | y :: pq' => if Rltb (fst x) (fst y) then x :: y :: pq'
                else y :: heappush pq' x
  end.

Definition _compute_priority (p1 p2 p3 : Point) : R :=
  let t1 := timestamp p1 in
  let t2 := timestamp p2 in
  let t3 := timestamp p3 in
  if Reqb t1 t3 then 0%R
  else
    let ratio := ((t2 - t1) / (t3 - t1))%R in
    let lat_pred := (lat p1 + (lat p3 - lat p1) * ratio)%R in
    let lon_pred := (lon p1 + (lon p3 - lon p1) * ratio)%R in
    let d_lat := (lat p2 - lat_pred)%R in
    let d_lon := (lon p2 - lon_pred)%R in
    sqrt (d_lat * d_lat + d_lon * d_lon).

(** The object store and the two containers of [compress]. *)
Record state : Type := mkState {
  nodes : list Node;
  pq : list PriorityObject;
  current_buffer_nodes : list nat
}.

Definition node_at (ns : list Node) (i : nat) : result Node :=
  match ns !! i with
  | Some n => Ok n
  | None => Raise IndexError
  end.

(** [p = _compute_priority(a.point, b.point, c.point)];
    [b.priority = p]; [heappush(pq, PriorityObject(p, b.index))]. *)
Definition reprioritise (ns : list Node) (q : list PriorityObject)
    (a b c : nat) : result (list Node * list PriorityObject) :=
  na ← node_at ns a;
  nb ← node_at ns b;
  nc ← node_at ns c;
  let p := _compute_priority (point na) (point nb) (point nc) in
  Ok (alter (set_priority p) b ns, heappush q (p, index nb)).

Definition _remove_node (ns : list Node) (q : list PriorityObject)
    (node : nat) : result (list Node * list PriorityObject) :=
  n ← node_at ns node;
  let ns := alter set_removed node ns in
  let prev_node := prev n in
  let next_node := next n in
  let ns := match prev_node with
            | Some a => alter (set_next next_node) a ns
            | None => ns
            end in
  let ns := match next_node with
            | Some b => alter (set_prev prev_node) b ns
            | None => ns
            end in
  '(ns, q) ←
    match prev_node, next_node with
    | Some a, Some b =>
        na ← node_at ns a;
        match prev na with
        | Some a' => reprioritise ns q a' a b
        | None => Ok (ns, q)
        end
    | _, _ => Ok (ns, q)
    end;
  match next_node, prev_node with
  | Some b, Some a =>
      nb ← node_at ns b;
      match next nb with
      | Some b' => reprioritise ns q a b b'
      | None => Ok (ns, q)
      end
  | _, _ => Ok (ns, q)
  end.

(** The [while True] loop that pops until a live, up-to-date entry
    surfaces.  [heappop] takes the head of the sorted queue and raises
    [IndexError] on an empty one; every round pops one entry, so the
    loop recurses on the queue. *)
Fixpoint find_victim (ns : list Node) (q : list PriorityObject)
  : result (nat * list PriorityObject) :=
  match q with
  | [] => Raise IndexError
  | victim_item :: q' =>
      let victim_idx := snd victim_item in
      victim_node ← node_at ns victim_idx;
      if negb (removed victim_node)
         && prio_eqb (priority victim_node) (fst victim_item)
      then Ok (victim_idx, q')
      else find_victim ns q'
  end.

(** Linking the new node behind the current last one, shared by both
    branches of the loop body. *)
Definition link_last (s : state) (i : nat)
  : result (list Node * list PriorityObject) :=
  last_node ← py_index (current_buffer_nodes s) (-1);
  let ns := alter (set_next (Some i)) last_node (nodes s) in
  let ns := alter (set_prev (Some last_node)) i ns in
  nl ← node_at ns last_node;
  match prev nl with
  | Some a => reprioritise ns (pq s) a last_node i
  | None => Ok (ns, pq s)
  end.

(** One round of [for i in range(len(points))]. *)
Definition step (target_capacity : Z) (s : state) (i : nat) : result state :=
  if (len (current_buffer_nodes s) <? target_capacity)%Z then
    '(ns, q) ←
      match current_buffer_nodes s with
      | [] => Ok (nodes s, pq s)
      | _ :: _ => link_last s i
      end;
    Ok (mkState ns q (current_buffer_nodes s ++ [i]))
  else
    '(ns, q) ← link_last s i;
    let buf := current_buffer_nodes s ++ [i] in
    '(victim_node, q) ← find_victim ns q;
    '(ns, q) ← _remove_node ns q victim_node;
    buf ← py_remove victim_node buf;
    Ok (mkState ns q buf).

Fixpoint loop (target_capacity : Z) (s : state) (idxs : list nat)
  : result state :=
  match idxs with
  | [] => Ok s
  | i :: idxs' =>
      s' ← step target_capacity s i;
      loop target_capacity s' idxs'
  end.

(** [while curr: result.append(curr.point); curr = curr.next]. *)
Fixpoint collect (fuel : nat) (ns : list Node) (curr : option nat)
  : result (list Point) :=
  match curr with
  | None => Ok []
  | Some c =>
      match fuel with
      | O => OutOfFuel
      | S fuel' =>
          n ← node_at ns c;
          rest ← collect fuel' ns (next n);
          Ok (point n :: rest)
      end
  end.

Definition compress (self : t) (points : list Point) (cap : option Z)
  : result (list Point) :=
  match points with
  | [] => Ok []
  | _ :: _ =>
      let target_capacity :=
        match cap with Some c => c | None => capacity self end in
      if (len points <=? target_capacity)%Z then Ok points
      else
        let nodes := imap (fun i p => new_node p i) points in
        s ← loop target_capacity (mkState nodes [] [])
                 (seq 0 (length points));
        collect (S (length points)) (SquishCompressor.nodes s) (Some 0%nat)
  end.

End SquishCompressor.

(** ** modules/segmentation/step.py *)

Definition local_distance (p1 p2 : Point) : R :=
  let R0 := 6371000%R in
  let lat_rad := radians ((lat p1 + lat p2) / 2) in
  let dx := (radians (lon p2 - lon p1) * cos lat_rad)%R in
  let dy := radians (lat p2 - lat p1) in
  (R0 * sqrt (dx * dx + dy * dy))%R.

(** [x // y] on floats followed by [int(...)]. *)
Definition floordiv (x y : R) : result Z :=
  if Reqb y 0 then Raise ZeroDivisionError else Ok (Int_part (x / y)).

Module STEPSegmenter.

Definition item : Type := (Point * Z * Z)%type.

Record t : Type := mk {
  max_eps : R;
  min_duration_seconds : R;
  g : R;
  threshold_sq : R;
  origin_lat : option R;
  origin_lon : option R;
  cache : list item;
  cache_offset : Z;
  current_sp_start : option Z;
  current_sp_end : option Z
}.

Definition __init__ (max_eps min_duration_seconds : R)
    (grid_size_meters : option R) : result t :=
  let g := match grid_size_meters with
           | Some v => if Rltb 0 v then v else (sqrt 2 / 4 * max_eps)%R
           | None => (sqrt 2 / 4 * max_eps)%R
           end in
  if Reqb g 0 then Raise ZeroDivisionError
  else Ok (mk max_eps min_duration_seconds g ((max_eps / g) ^ 2)%R
              None None [] 0 None None).

Definition set_origin (self : t) (la lo : R) : t :=
  mk (max_eps self) (min_duration_seconds self) (g self) (threshold_sq self)
     (Some la) (Some lo) (cache self) (cache_offset self)
     (current_sp_start self) (current_sp_end self).

Definition set_cache (self : t) (c : list item) (off : Z) : t :=
  mk (max_eps self) (min_duration_seconds self) (g self) (threshold_sq self)
     (origin_lat self) (origin_lon self) c off
     (current_sp_start self) (current_sp_end self).

Definition set_sp (self : t) (s e : option Z) : t :=
  mk (max_eps self) (min_duration_seconds self) (g self) (threshold_sq self)
     (origin_lat self) (origin_lon self) (cache self) (cache_offset self)
     s e.

Definition _get_cached_item (self : t) (abs_index : Z) : result item :=
  py_index (cache self) (abs_index - cache_offset self).

Definition _get_point (self : t) (abs_index : Z) : result Point :=
  it ← py_index (cache self) (abs_index - cache_offset self);
  Ok (it.1.1).

Definition _get_points (self : t) (start_abs_idx end_abs_idx : Z)
  : list Point :=
  if (end_abs_idx <? start_abs_idx)%Z then []
  else
    let rel_start := Z.max 0 (start_abs_idx - cache_offset self) in
    let rel_end := (end_abs_idx - cache_offset self)%Z in
    (λ it : item, it.1.1) <$> py_slice (cache self) rel_start (rel_end + 1).

Definition _prune_cache (self : t) (new_start_abs_idx : Z) : t :=
  if (cache_offset self <? new_start_abs_idx)%Z then
    let idx_to_remove := (new_start_abs_idx - cache_offset self)%Z in
    set_cache self (py_slice_from (cache self) idx_to_remove)
              new_start_abs_idx
  else self.

Definition _create_stop (points : list Point) : result Segment :=
  match points with
  | [] => Raise ValueError
  | p0 :: _ =>
      let la := (py_sum (lat <$> points) / INR (length points))%R in
      let lo := (py_sum (lon <$> points) / INR (length points))%R in
      let centroid := mkPoint la lo (timestamp p0) (obj_id p0) None in
      Ok (Stop points (Some centroid))
  end.

(** The local grid cell of a fix (lines 98-101). *)
Definition dx_meters (o_lat o_lon : R) (p : Point) : R :=
  ((radians (lon p) - o_lon) * 6371000 * cos o_lat)%R.
Definition dy_meters (o_lat : R) (p : Point) : R :=
  ((radians (lat p) - o_lat) * 6371000)%R.

Definition grid_cell (self : t) (p : Point) : result (Z * Z) :=
  match origin_lat self, origin_lon self with
  | Some o_lat, Some o_lon =>
      gx ← floordiv (dx_meters o_lat o_lon p) (g self);
      gy ← floordiv (dy_meters o_lat p) (g self);
      Ok (gx, gy)
  | _, _ => Raise TypeError
  end.

(** The two grid tests of the stay-point search (lines 113-118). *)
Definition confirmed (self : t) (ci cc : Z * Z) : bool :=
  let delta_x := Z.abs (ci.1 - cc.1) in
  let delta_y := Z.abs (ci.2 - cc.2) in
  Rleb (IZR ((delta_x + 1) ^ 2 + (delta_y + 1) ^ 2)) (threshold_sq self).

Definition pruned (self : t) (ci cc : Z * Z) : bool :=
  let delta_x := Z.abs (ci.1 - cc.1) in
  let delta_y := Z.abs (ci.2 - cc.2) in
  Rltb (threshold_sq self)
       (IZR (Z.max 0 (delta_x - 1) ^ 2 + Z.max 0 (delta_y - 1) ^ 2)).

(** [while i >= self.cache_offset: ...]; the result is the value of [i]
    when the loop is left. *)
Fixpoint search (fuel : nat) (self : t) (p_c : Point) (cc : Z * Z) (i : Z)
  : result Z :=
  if (i <? cache_offset self)%Z then Ok i
  else
    match fuel with
    | O => OutOfFuel
    | S fuel' =>
        '(p_i, gx_i, gy_i) ← _get_cached_item self i;
        if confirmed self (gx_i, gy_i) cc then
          search fuel' self p_c cc (i - 1)
        else if pruned self (gx_i, gy_i) cc then Ok (i + 1)%Z
        else if Rleb (local_distance p_c p_i) (max_eps self) then
          search fuel' self p_c cc (i - 1)
        else Ok (i + 1)%Z
    end.

Definition move_of (move_points : list Point) : list Segment :=
  match move_points with
  | [] => []
  | _ :: _ => [Move move_points]
  end.

(** [process_point], first half: the fix enters the cache and the
    indexed stay-point search (Alg. 1) yields [Ie] and [Is]. *)
Definition stay_point_detection (self : t) (p_c : Point)
  : result (t * Z * option Z) :=
  let self :=
    match cache self with
    | [] => set_origin self (radians (lat p_c)) (radians (lon p_c))
    | _ :: _ => self
    end in
  '(gx_c, gy_c) ← grid_cell self p_c;
  let self := set_cache self (cache self ++ [(p_c, gx_c, gy_c)])
                        (cache_offset self) in
  let c := (cache_offset self + len (cache self) - 1)%Z in
  let Ie := c in
  i ← search (length (cache self)) self p_c (gx_c, gy_c) (c - 1);
  let i := if (i <? cache_offset self)%Z then cache_offset self else i in
  if (i <=? c)%Z then
    p_i_point ← _get_point self i;
    let duration_secs := (timestamp p_c - timestamp p_i_point)%R in
    if Rleb (min_duration_seconds self) duration_secs
    then Ok (self, Ie, Some i) else Ok (self, Ie, None)
  else Ok (self, Ie, None).

(** [process_point], second half: trajectory segmentation handling. *)
Definition segmentation_handling (self : t) (p_c : Point) (Ie : Z)
    (Is : option Z) : result (t * list Segment) :=
  match Is with
  | Some Is =>
      match current_sp_start self, current_sp_end self with
      | Some sp_start, Some sp_end =>
          if (Is <=? sp_end)%Z then
            Ok (set_sp self (Some sp_start) (Some Ie), [])
          else
            let sp1_points := _get_points self sp_start sp_end in
            stop ← _create_stop sp1_points;
            let move_points := _get_points self (sp_end + 1) (Is - 1) in
            let self := set_sp self (Some Is) (Some Ie) in
            Ok (_prune_cache self Is, [stop] ++ move_of move_points)
      | Some _, None => Raise TypeError
      | None, _ =>
          let move_points :=
            _get_points self (cache_offset self) (Is - 1) in
          let self := set_sp self (Some Is) (Some Ie) in
          Ok (_prune_cache self Is, move_of move_points)
      end
  | None =>
      match current_sp_start self, current_sp_end self with
      | Some sp_start, Some sp_end =>
          p_Ie ← _get_point self sp_end;
          if Rltb (max_eps self) (local_distance p_c p_Ie) then
            let sp1_points := _get_points self sp_start sp_end in
            stop ← _create_stop sp1_points;
            let self := _prune_cache self (sp_end + 1) in
            Ok (set_sp self None None, [stop])
          else Ok (self, [])
      | Some _, None => Raise TypeError
      | None, _ => Ok (self, [])
      end
  end.

Definition process_point (self : t) (p_c : Point)
  : result (t * list Segment) :=
  '(self, Ie, Is) ← stay_point_detection self p_c;
  segmentation_handling self p_c Ie Is.

Definition flush (self : t) : result (t * list Segment) :=
  let last_abs := (cache_offset self + len (cache self) - 1)%Z in
  segments ←
    match current_sp_start self, current_sp_end self with
    | Some sp_start, Some sp_end =>
        let sp_points := _get_points self sp_start sp_end in
        stop ← _create_stop sp_points;
        let move_points := _get_points self (sp_end + 1) last_abs in
        Ok ([stop] ++ move_of move_points)
    | Some _, None => Raise TypeError
    | None, _ =>
        let move_points :=
          _get_points self (cache_offset self) last_abs in
        Ok (move_of move_points)
    end;
  Ok (set_sp (set_cache self [] (cache_offset self)) None None, segments).

Fixpoint process_points (self : t) (trajectory : list Point)
  : result (t * list Segment) :=
  match trajectory with
  | [] => Ok (self, [])
  | p :: rest =>
      '(self, s1) ← process_point self p;
      '(self, s2) ← process_points self rest;
      Ok (self, s1 ++ s2)
  end.

Definition process (self : t) (trajectory : list Point)
  : result (list Segment) :=
  '(self, s1) ← process_points self trajectory;
  '(_, s2) ← flush self;
  Ok (s1 ++ s2).

End STEPSegmenter.

(** ** benchmarks/oracles/stc.py *)

Module STCOracle.

(** The body of [for idx, point in enumerate(points)], on the pair
    [(compressed, current_road)]; [n] is [len(points)]. *)
Definition step (n : Z) (st : list Point * option road) (idx : Z)
    (point : Point) : result (list Point * option road) :=
  let '(compressed, current_road) := st in
  if (idx =? 0)%Z then Ok (compressed ++ [point], road_id point)
  else if (idx =? n - 1)%Z then
    last_kept ← py_index compressed (-1);
    if decide (last_kept ≠ point) then Ok (compressed ++ [point], current_road)
    else Ok (compressed, current_road)
  else if decide (road_id point ≠ current_road) then
    Ok (compressed ++ [point], road_id point)
  else Ok (compressed, current_road).

Fixpoint loop (n : Z) (st : list Point * option road) (idx : Z)
    (points : list Point) : result (list Point * option road) :=
  match points with
  | [] => Ok st
  | point :: rest =>
      st' ← step n st idx point;
      loop n st' (idx + 1)%Z rest
  end.

Definition process (segment : Segment) : result (list Point) :=
  match seg_points segment with
  | [] => Ok []
  | _ :: _ =>
      let points := seg_points segment in
      if (len points <=? 1)%Z then Ok points
      else
        '(compressed, _) ← loop (len points) ([], None) 0 points;
        Ok compressed
  end.

End STCOracle.

(** ** modules/map_matching/matcher.py *)

Module OnlineMapMatcher.

(** The road graph and the two libraries the matcher calls are external;
    they enter as data.  An [osmid] is kept as its [str]; a merged way
    lists at least one id.  A polyline is its list of [(x, y)]. *)
Inductive osmid_t : Type :=
| OsmOne (v : string)
| OsmMany (v : string) (vs : list string).

Record edge_attrs : Type := mkAttrs {
  osmid : option osmid_t;
  geometry : option (list (R * R))
}.

Record env : Type := mkEnv {
  (** [G.get_edge_data(u, v)]: the attributes per edge key, or [None]. *)
  get_edge_data : Z → Z → option (list (Z * edge_attrs));
  (** [G.nodes[u]] as [(x, y)]; the matcher only returns nodes of [G]. *)
  node_xy : Z → R * R;
  (** [DistanceMatcher(...).match(path)], [[]] when it raises. *)
  lmm_match : R → R → R → list (R * R) → list (Z * Z);
  (** [geom.interpolate(geom.project(pt))] of shapely, as [(x, y)]. *)
  project : list (R * R) → R * R → R * R;
  (** [str] of a node id. *)
  str_node : Z → string
}.

Record t : Type := mk {
  world : env;
  window_size : Z;
  max_dist : R;
  max_dist_init : R;
  min_prob_norm : R;
  buffer : list Point
}.

Definition __init__ (w : env) (window_size : Z)
    (max_dist max_dist_init min_prob_norm : R) : t :=
  mk w window_size max_dist max_dist_init min_prob_norm [].

Definition set_buffer (self : t) (b : list Point) : t :=
  mk (world self) (window_size self) (max_dist self) (max_dist_init self)
     (min_prob_norm self) b.

(** [d[k]] guarded by [k in d]. *)
Definition lookup_key (k : Z) (d : list (Z * edge_attrs)) : option edge_attrs :=
  (λ e, e.2.2) <$> list_find (λ e, e.1 = k) d.

Definition _match_window (self : t) : option Point :=
  match buffer self with
  | [] => None
  | oldest_point :: _ =>
      let w := world self in
      let path := (λ p, (lat p, lon p)) <$> buffer self in
      let states := lmm_match w (max_dist self) (max_dist_init self)
                      (min_prob_norm self) path in
      match states with
      | [] => Some oldest_point
      | (u, v) :: _ =>
          let edge_data := get_edge_data w u v in
          let uv := (str_node w u +:+ "-" +:+ str_node w v)%string in
          let at0 :=
            match edge_data with
            | Some (_ :: _ as d) => lookup_key 0 d
            | _ => None
            end in
          let r_id :=
            match at0 with
            | Some a =>
                match osmid a with
                | Some (OsmMany x _) => x
                | Some (OsmOne x) => x
                | None => uv
                end
            | None => uv
            end in
          let '(snapped_lat, snapped_lon) :=
            match at0 with
            | Some a =>
                let geom := match geometry a with
                            | Some gm => gm
                            | None => [node_xy w u; node_xy w v]
                            end in
                let '(x, y) :=
                  project w geom (lon oldest_point, lat oldest_point) in
                (y, x)
            | None => (lat oldest_point, lon oldest_point)
            end in
          Some (mkPoint snapped_lat snapped_lon (timestamp oldest_point)
                        (obj_id oldest_point) (Some (RoadStr r_id)))
      end
  end.

Definition process_point (self : t) (point : Point)
  : result (t * option Point) :=
  let self := set_buffer self (buffer self ++ [point]) in
  if (len (buffer self) <? window_size self)%Z then Ok (self, None)
  else
    let matched_point := _match_window self in
    match buffer self with
    | [] => Raise IndexError
    | _ :: rest => Ok (set_buffer self rest, matched_point)
    end.

(** Feeding a stream, collecting what each call returns. *)
Fixpoint feed (self : t) (points : list Point)
  : result (t * list (option Point)) :=
  match points with
  | [] => Ok (self, [])
  | p :: rest =>
      '(self, r) ← process_point self p;
      '(self, rs) ← feed self rest;
      Ok (self, r :: rs)
  end.

(** [flush]: [while self.buffer: ...]; every round pops one fix, so the
    fuel is the length of the buffer. *)
Fixpoint flush_loop (fuel : nat) (self : t) (flushed_points : list Point)
  : result (t * list Point) :=
  match buffer self with
  | [] => Ok (self, flushed_points)
  | oldest :: rest =>
      match fuel with
      | O => OutOfFuel
      | S fuel' =>
          let flushed_points :=
            match _match_window self with
            | Some matched_point => flushed_points ++ [matched_point]
            | None => flushed_points ++ [oldest]
            end in
          flush_loop fuel' (set_buffer self rest) flushed_points
      end
  end.

Definition flush (self : t) : result (t * list Point) :=
  flush_loop (length (buffer self)) self [].

End OnlineMapMatcher.

(** ** modules/map_matching/wrapper.py *)

Module MapMatchedStreamWrapper.

(** The first loop of [stream]: what the matcher yields while the
    underlying stream lasts. *)
Fixpoint stream_points (matcher : OnlineMapMatcher.t)
    (point_stream : list Point) : result (OnlineMapMatcher.t * list Point) :=
  match point_stream with
  | [] => Ok (matcher, [])
  | point :: rest =>
      '(matcher, matched_point) ← OnlineMapMatcher.process_point matcher point;
      '(matcher, ys) ← stream_points matcher rest;
      Ok (matcher, match matched_point with
                   | Some q => q :: ys
                   | None => ys
                   end)
  end.

(** [stream]: the fixes yielded, in order, and the matcher left behind. *)
Definition stream (matcher : OnlineMapMatcher.t) (point_stream : list Point)
  : result (OnlineMapMatcher.t * list Point) :=
  '(matcher, ys) ← stream_points matcher point_stream;
  '(matcher, zs) ← OnlineMapMatcher.flush matcher;
  Ok (matcher, ys ++ zs).

End MapMatchedStreamWrapper.

(** ** modules/stop_compression/compressor.py *)

Record CompressedStop : Type := mkCompressedStop {
  centroid : Point;
  start_time : R;
  end_time : R
}.

Module StopCompressor.

Definition compress (points : list Point) : result CompressedStop :=
  match points with
  | [] => Raise ValueError
  | p0 :: _ =>
      let lats := lat <$> points in
      let lons := lon <$> points in
      let centroid_lat := (py_sum lats / INR (length lats))%R in
      let centroid_lon := (py_sum lons / INR (length lons))%R in
      let start_time := timestamp p0 in
      p_last ← py_index points (-1);
      let end_time := timestamp p_last in
      let centroid :=
        mkPoint centroid_lat centroid_lon start_time (obj_id p0) None in
      Ok (mkCompressedStop centroid start_time end_time)
  end.

End StopCompressor.

(** ** metrics/compression.py *)

Definition calculate_compression_ratio (original compressed : list Point)
  : R :=
  match compressed with
  | [] => 1%R
  | _ :: _ => (INR (length original) / INR (length compressed))%R
  end.

(** ** metrics/sed.py *)

(** The planar distance in metres that [sed.py] spells out three times. *)
Definition planar_distance (p p_ref : Point) : R :=
  let d_lat := (lat p - lat p_ref)%R in
  let d_lon := (lon p - lon p_ref)%R in
  let avg_lat := radians ((lat p + lat p_ref) / 2) in
  let d_lat_m := (d_lat * 111320)%R in
  let d_lon_m := (d_lon * 111320 * cos avg_lat)%R in
  sqrt (d_lat_m * d_lat_m + d_lon_m * d_lon_m).

Definition calculate_sed_error (p_original p_start p_end : Point) : R :=
  let t_orig := timestamp p_original in
  let t_start := timestamp p_start in
  let t_end := timestamp p_end in
  if Reqb t_start t_end then planar_distance p_original p_start
  else
    let ratio := ((t_orig - t_start) / (t_end - t_start))%R in
    let pred_lat := (lat p_start + (lat p_end - lat p_start) * ratio)%R in
    let pred_lon := (lon p_start + (lon p_end - lon p_start) * ratio)%R in
    let d_lat := (lat p_original - pred_lat)%R in
    let d_lon := (lon p_original - pred_lon)%R in
    let avg_lat := radians ((lat p_start + lat p_end) / 2) in
    let d_lat_m := (d_lat * 111320)%R in
    let d_lon_m := (d_lon * 111320 * cos avg_lat)%R in
    sqrt (d_lat_m * d_lat_m + d_lon_m * d_lon_m).

Record sed_stats : Type := mkStats {
  average_sed : R;
  max_sed : R;
  rmse : R;
  sed_errors : list R
}.

(** [while comp_idx < len(compressed) - 1
           and p.timestamp > compressed[comp_idx+1].timestamp]. *)
Fixpoint advance (fuel : nat) (compressed : list Point) (p : Point)
    (comp_idx : Z) : result Z :=
  if (comp_idx <? len compressed - 1)%Z then
    nxt ← py_index compressed (comp_idx + 1);
    if Rltb (timestamp nxt) (timestamp p) then
      match fuel with
      | O => OutOfFuel
      | S fuel' => advance fuel' compressed p (comp_idx + 1)
      end
    else Ok comp_idx
  else Ok comp_idx.

(** The [for p in original] loop, on [(comp_idx, sed_errors)]. *)
Fixpoint sed_loop (compressed : list Point) (original : list Point)
    (comp_idx : Z) (errors : list R) : result (list R) :=
  match original with
  | [] => Ok errors
  | p :: rest =>
      comp_idx ← advance (length compressed) compressed p comp_idx;
      if (len compressed - 1 <=? comp_idx)%Z then
        p_ref ← py_index compressed (-1);
        sed_loop compressed rest comp_idx (errors ++ [planar_distance p p_ref])
      else
        p_start ← py_index compressed comp_idx;
        p_end ← py_index compressed (comp_idx + 1);
        if Rltb (timestamp p) (timestamp p_start) then
          sed_loop compressed rest comp_idx
                   (errors ++ [planar_distance p p_start])
        else
          sed_loop compressed rest comp_idx
                   (errors ++ [calculate_sed_error p p_start p_end])
  end.

Definition py_max (l : list R) : result R :=
  match l with
  | [] => Raise ValueError
  | x :: l' => Ok (fold_left Rmax l' x)
  end.

Definition calculate_sed_stats (original compressed : list Point)
  : result sed_stats :=
  match original, compressed with
  | [], _ | _, [] => Ok (mkStats 0 0 0 [])
  | _ :: _, _ :: _ =>
      errs ← sed_loop compressed original 0 [];
      match errs with
      | [] => Ok (mkStats 0 0 0 [])
      | _ :: _ =>
          let avg_sed := (py_sum errs / INR (length errs))%R in
          mx ← py_max errs;
          let mse := (py_sum ((λ e, e * e)%R <$> errs)
                      / INR (length errs))%R in
          Ok (mkStats avg_sed mx (sqrt mse) errs)
      end
  end.

(** ** scripts/demo_06_compare_stss_vs_step_squish.py *)

(** [int(x)] on a float: truncation towards zero. *)
Definition py_int (x : R) : Z :=
  if Rltb x 0 then (- Int_part (- x))%Z else Int_part x.

(** [compress_segment]: a Stop goes to the stop compressor, a Move to
    SQUISH with a capacity of 30% of its length, 10 at least.  What comes
    back is a [CompressedStop] or a [Move]. *)
Definition compress_segment (seg : Segment)
    (move_compressor : SquishCompressor.t)
  : result (CompressedStop + Segment) :=
  match seg with
  | Stop points _ =>
      cs ← StopCompressor.compress points;
      Ok (inl cs)
  | Move points =>
      let dynamic_capacity :=
        Z.max 10 (py_int (IZR (len points) * (3 / 10))) in
      compressed_points ←
        SquishCompressor.compress move_compressor points
          (Some dynamic_capacity);
      Ok (inr (Move compressed_points))
  end.

(** * Vocabulary of the specification *)

(** What a list of segments hands out, laid end to end. *)
Definition emitted (segs : list Segment) : list Point :=
  concat (seg_points <$> segs).

(** A segment that holds at least one fix. *)
Definition seg_ok (s : Segment) : Prop := seg_points s ≠ [].

(** [l[i].timestamp <= l[i+1].timestamp] for all consecutive members. *)
Definition non_decreasing (l : list Point) : Prop :=
  ∀ i a b, l !! i = Some a → l !! S i = Some b →
           (timestamp a <= timestamp b)%R.

(** The segmenter with default settings ([D] = 50 m) whose first fix was
    at latitude 90, longitude 0. *)
Definition polar_segmenter : STEPSegmenter.t :=
  STEPSegmenter.mk 50 60 (sqrt 2 / 4 * 50) ((50 / (sqrt 2 / 4 * 50)) ^ 2)
    (Some (radians 90)) (Some (radians 0)) [] 0 None None.

(** The distance between two fixes in the segmenter's own frame: the
    plane of the metric offsets [dx_meters], [dy_meters] from the origin. *)
Definition projected_distance (o_lat o_lon : R) (p q : Point) : R :=
  sqrt ((STEPSegmenter.dx_meters o_lat o_lon p
         - STEPSegmenter.dx_meters o_lat o_lon q) ^ 2
        + (STEPSegmenter.dy_meters o_lat p
           - STEPSegmenter.dy_meters o_lat q) ^ 2).

(** A segmenter with [D] = 50 m and a 25 m grid, anchored at (0, 0). *)
Definition equator_segmenter : STEPSegmenter.t :=
  STEPSegmenter.mk 50 60 25 ((50 / 25) ^ 2) (Some 0%R) (Some 0%R)
    [] 0 None None.

(** [l[i].timestamp < l[i+1].timestamp] for all consecutive members. *)
Definition strictly_increasing (l : list Point) : Prop :=
  ∀ i a b, l !! i = Some a → l !! S i = Some b →
           (timestamp a < timestamp b)%R.

(** The fixes of [l] whose [road_id] differs from their predecessor's,
    [prev] being the [road_id] in front of [l]. *)
Fixpoint changes (prev : option road) (l : list Point) : list Point :=
  match l with
  | [] => []
  | p :: l' =>
      if decide (road_id p ≠ prev) then p :: changes (road_id p) l'
      else changes (road_id p) l'
  end.

(** The sub-sequence the specification describes: the first fix, the
    inner fixes at which the road changes, and the last fix unless it
    equals the fix emitted last. *)
Definition stc_reference (points : list Point) : list Point :=
  match points with
  | [] => []
  | first :: rest =>
      match last rest with
      | None => [first]
      | Some final =>
          let interior := take (length rest - 1) rest in
          let kept := first :: changes (road_id first) interior in
          if decide (last kept = Some final) then kept else kept ++ [final]
      end
  end.

(** No two neighbours of [l] share a [road_id], [prev] standing in front. *)
Fixpoint roads_alternate (prev : option road) (l : list Point) : Prop :=
  match l with
  | [] => True
  | p :: l' => road_id p ≠ prev ∧ roads_alternate (road_id p) l'
  end.

(** A road graph on which the matcher never finds a state. *)
Definition silent_world : OnlineMapMatcher.env :=
  OnlineMapMatcher.mkEnv (λ _ _, None) (λ _, (0%R, 0%R)) (λ _ _ _ _, [])
    (λ _ xy, xy) (λ _, "n"%string).

(** Two fixes at the same instant, one degree of latitude apart. *)
Definition twin_fixes : list Point :=
  [mkPoint 0 0 0 "a" None; mkPoint 1 0 0 "a" None].

(** A list of errors that are all 0. *)
Definition all_zero (l : list R) : Prop := Forall (λ e, e = 0%R) l.

(** [q] stands for the fix [p]: same instant, same object. *)
Definition same_fix (q p : Point) : Prop :=
  timestamp q = timestamp p ∧ obj_id q = obj_id p.

(** A Stop as [_create_stop] builds it, a Move as the code appends it. *)
Definition seg_wf (s : Segment) : Prop :=
  match s with
  | Stop ps c => STEPSegmenter._create_stop ps = Ok (Stop ps c)
  | Move ps => ps ≠ []
  end.

(** No Move is followed by a Move. *)
Definition no_adjacent_moves (segs : list Segment) : Prop :=
  ∀ k m1 m2, segs !! k = Some (Move m1) → segs !! S k = Some (Move m2) →
             False.

(** What one call may hand out: nothing, a Move, a Stop, or a Stop and
    the Move that follows it. *)
Inductive call_shape : list Segment → Prop :=
| shape_none : call_shape []
| shape_move m : call_shape [Move m]
| shape_stop ps c : call_shape [Stop ps c]
| shape_stop_move ps c m : call_shape [Stop ps c; Move m].

(** A Stop whose last fix is at least [T] seconds after its first. *)
Definition stop_long (T : R) (s : Segment) : Prop :=
  match s with
  | Stop ps _ =>
      ∃ a b, head ps = Some a ∧ last ps = Some b
             ∧ (T <= timestamp b - timestamp a)%R
  | Move _ => True
  end.

(** * Properties *)

(** ** Python list primitives *)

Lemma py_index_last {A : Type} (l : list A) (x : A) :
  py_index (l ++ [x]) (-1) = Ok x.
Proof.
  unfold py_index, len. rewrite length_app. simpl.
  replace (-1 + Z.of_nat (length l + 1))%Z with (Z.of_nat (length l)) by lia.
  destruct (Z.ltb_spec (Z.of_nat (length l)) 0); [lia|].
  rewrite Nat2Z.id, lookup_app_r, Nat.sub_diag by lia. reflexivity.
Qed.

Lemma py_index_nil {A : Type} (i : Z) : py_index (@nil A) i = Raise IndexError.
Proof.
  unfold py_index, len. simpl.
  destruct (i <? 0)%Z; destruct (_ <? 0)%Z; reflexivity.
Qed.

Lemma py_remove_middle (v : nat) (l1 l2 : list nat) :
  v ∉ l1 → py_remove v (l1 ++ v :: l2) = Ok (l1 ++ l2).
Proof.
  induction l1 as [|y l1 IH]; intros Hv; simpl.
  - rewrite Nat.eqb_refl. reflexivity.
  - apply not_elem_of_cons in Hv as [Hne Hv].
    destruct (Nat.eqb_spec v y); [congruence|].
    rewrite IH by assumption. reflexivity.
Qed.

(** ** SQUISH: the linked buffer *)

Section squish.
Import SquishCompressor.

Lemma elem_of_heappush (q : list PriorityObject) (x y : PriorityObject) :
  y ∈ heappush q x ↔ y = x ∨ y ∈ q.
Proof.
  induction q as [|z q IH]; simpl.
  - rewrite list_elem_of_singleton, elem_of_nil. tauto.
  - destruct (Rltb _ _).
    + rewrite elem_of_cons. reflexivity.
    + rewrite !elem_of_cons, IH. tauto.
Qed.

(** [chain ns q p l]: the nodes listed in [l] are live and linked to one
    another in that order, the first one having [p] as predecessor; the
    inner ones carry a priority that has an entry in [q], the two ends
    still have the initial infinite priority. *)
Fixpoint chain (ns : list Node) (q : list PriorityObject)
    (p : option nat) (l : list nat) : Prop :=
  match l with
  | [] => True
  | a :: l' =>
      (∃ n, ns !! a = Some n ∧ prev n = p ∧ next n = head l'
            ∧ removed n = false
            ∧ match p, l' with
              | Some _, _ :: _ => ∃ r, priority n = Fin r ∧ (r, a) ∈ q
              | _, _ => priority n = Inf
              end)
      ∧ chain ns q (Some a) l'
  end.

Lemma chain_ext ns ns' q q' p l :
  (∀ a, a ∈ l → ns' !! a = ns !! a) →
  (∀ r a n, a ∈ l → ns !! a = Some n → priority n = Fin r →
            (r, a) ∈ q → (r, a) ∈ q') →
  chain ns q p l → chain ns' q' p l.
Proof.
  intros Hns Hq. revert p.
  induction l as [|a l IH]; intros p; simpl; [trivial|].
  intros [(n & Hn & Hp & Hx & Hr & Hpr) Hc]. split.
  - exists n. rewrite Hns by left. repeat split; try assumption.
    destruct p, l; try assumption.
    destruct Hpr as (r & ? & ?). exists r. split; [assumption|].
    eapply Hq; eauto. left.
  - apply IH; [| |assumption].
    + intros b Hb. apply Hns. right. assumption.
    + intros r b nb Hb. apply Hq. right. assumption.
Qed.

Lemma chain_lookup ns q p l a :
  chain ns q p l → a ∈ l → ∃ n, ns !! a = Some n ∧ removed n = false.
Proof.
  revert p. induction l as [|b l IH]; intros p Hc Ha.
  - inversion Ha.
  - destruct Hc as [(n & Hn & _ & _ & Hr & _) Hc].
    apply elem_of_cons in Ha as [->|Ha]; [eauto|eapply IH; eauto].
Qed.

(** Appending node [i] behind the last node of the chain. *)
Lemma chain_append ns ns' q q' p l last i nl nl' ni :
  chain ns q p (l ++ [last]) →
  (∀ a, a ∈ l → ns' !! a = ns !! a) →
  (∀ r a n, a ∈ l → ns !! a = Some n → priority n = Fin r →
            (r, a) ∈ q → (r, a) ∈ q') →
  ns !! last = Some nl →
  ns' !! last = Some nl' →
  prev nl' = prev nl → next nl' = Some i → removed nl' = false →
  match prev nl with
  | Some _ => ∃ r, priority nl' = Fin r ∧ (r, last) ∈ q'
  | None => priority nl' = Inf
  end →
  ns' !! i = Some ni →
  prev ni = Some last → next ni = None → removed ni = false →
  priority ni = Inf →
  chain ns' q' p (l ++ [last; i]).
Proof.
  intros Hc Hns Hq Hl Hl' Hp' Hn' Hr' Hpr' Hi Hip Hin Hir Hipr.
  revert p Hc Hns Hq.
  induction l as [|a l IH]; intros p Hc Hns Hq; simpl in *.
  - destruct Hc as [(n & Hn & Hp & _ & _ & _) _].
    assert (n = nl) by congruence. subst n.
    split; [|split; [|trivial]].
    + exists nl'. rewrite Hp', Hp in *. repeat split; assumption.
    + exists ni. repeat split; assumption.
  - destruct Hc as [(n & Hn & Hp & Hx & Hr & Hpr) Hc]. split.
    + exists n. rewrite Hns by left. repeat split; try assumption.
      * rewrite Hx. destruct l; reflexivity.
      * destruct p; [|destruct l; assumption].
        destruct l; simpl in *; destruct Hpr as (r & ? & ?); exists r;
          (split; [assumption|]); eapply Hq; eauto; left.
    + apply IH; [assumption| |].
      * intros b Hb. apply Hns. right. assumption.
      * intros r b nb Hb. apply Hq. right. assumption.
Qed.

(** Unlinking an inner node [v] of the chain. *)
Lemma chain_remove ns ns' q q' p l1 a v b l2 na nb na' nb' :
  chain ns q p (l1 ++ a :: v :: b :: l2) →
  (∀ x, x ∈ l1 ++ l2 → ns' !! x = ns !! x) →
  (∀ r x n, x ∈ l1 ++ l2 → ns !! x = Some n → priority n = Fin r →
            (r, x) ∈ q → (r, x) ∈ q') →
  ns !! a = Some na → ns !! b = Some nb →
  ns' !! a = Some na' → ns' !! b = Some nb' →
  prev na' = prev na → next na' = Some b → removed na' = false →
  match prev na with
  | Some _ => ∃ r, priority na' = Fin r ∧ (r, a) ∈ q'
  | None => priority na' = Inf
  end →
  prev nb' = Some a → next nb' = next nb → removed nb' = false →
  match next nb with
  | Some _ => ∃ r, priority nb' = Fin r ∧ (r, b) ∈ q'
  | None => priority nb' = Inf
  end →
  chain ns' q' p (l1 ++ a :: b :: l2).
Proof.
  intros Hc Hns Hq Ha Hb Ha' Hb' Hap Han Har Hapr Hbp Hbn Hbr Hbpr.
  revert p Hc Hns Hq.
  induction l1 as [|x l1 IH]; intros p Hc Hns Hq; simpl in *.
  - destruct Hc as [(n1 & Hn1 & Hp1 & _ & _ & _)
                    [_ [(n3 & Hn3 & _ & Hx3 & _ & _) Hc]]].
    assert (n1 = na) by congruence. assert (n3 = nb) by congruence.
    subst n1 n3. split; [|split].
    + exists na'. rewrite Hap, Hp1 in *. repeat split; assumption.
    + exists nb'. rewrite Hbn, Hx3 in *. repeat split; try assumption.
      destruct l2; assumption.
    + eapply chain_ext; [| |exact Hc]; [|exact Hq].
      intros y Hy. apply Hns. assumption.
  - destruct Hc as [(n & Hn & Hp & Hx & Hr & Hpr) Hc]. split.
    + exists n. rewrite Hns by left. repeat split; try assumption.
      * rewrite Hx. destruct l1; reflexivity.
      * destruct p; [|destruct l1; assumption].
        destruct l1; simpl in *; destruct Hpr as (r & ? & ?); exists r;
          (split; [assumption|]); eapply Hq; eauto; left.
    + apply IH; [assumption| |].
      * intros y Hy. apply Hns. right. assumption.
      * intros r y ny Hy. apply Hq. right. assumption.
Qed.

Lemma chain_last ns q p l x :
  chain ns q p (l ++ [x]) →
  ∃ n, ns !! x = Some n
       ∧ prev n = match last l with Some a => Some a | None => p end
       ∧ next n = None ∧ priority n = Inf ∧ removed n = false.
Proof.
  revert p. induction l as [|a l IH]; intros p; simpl.
  - intros [(n & Hn & Hp & Hx & Hr & Hpr) _]. exists n.
    repeat split; try assumption. destruct p; assumption.
  - intros [_ Hc]. destruct (IH _ Hc) as (n & Hn & Hp & Hrest).
    exists n. split; [assumption|]. split; [|assumption].
    rewrite Hp. destruct l as [|b l]; [reflexivity|].
    simpl. destruct (last (b :: l)) eqn:E; [reflexivity|].
    apply last_None in E. discriminate.
Qed.

Lemma chain_middle ns q p l1 a v b l2 :
  chain ns q p (l1 ++ a :: v :: b :: l2) →
  ∃ na nv nb, ns !! a = Some na ∧ ns !! v = Some nv ∧ ns !! b = Some nb
              ∧ prev nv = Some a ∧ next nv = Some b
              ∧ next nb = head l2.
Proof.
  revert p. induction l1 as [|x l1 IH]; intros p; simpl.
  - intros [(na & Ha & _) [(nv & Hv & Hvp & Hvn & _) [(nb & Hb & _ & Hbn & _) _]]].
    exists na, nv, nb. repeat split; assumption.
  - intros [_ Hc]. eapply IH; eassumption.
Qed.

(** Only inner nodes of the chain carry a finite priority. *)
Lemma chain_interior_gen ns q p l v n r :
  chain ns q p l → v ∈ l → ns !! v = Some n → priority n = Fin r →
  (∃ l1 a b l2, l = l1 ++ a :: v :: b :: l2)
  ∨ (∃ a b l2, p = Some a ∧ l = v :: b :: l2).
Proof.
  intros Hc Hv Hn Hpr. revert p Hc.
  induction l as [|x l IH]; intros p Hc; [inversion Hv|].
  destruct Hc as [(nx & Hnx & _ & _ & _ & Hprx) Hc].
  destruct (decide (v = x)) as [->|Hne].
  - assert (nx = n) by congruence. subst nx.
    destruct p as [a|]; [|congruence].
    destruct l as [|b l2]; [congruence|].
    right. exists a, b, l2. split; reflexivity.
  - apply elem_of_cons in Hv as [?|Hv]; [contradiction|].
    destruct (IH Hv _ Hc) as [(l1 & a & b & l2 & ->)|(a & b & l2 & Ha & ->)].
    + left. exists (x :: l1), a, b, l2. reflexivity.
    + left. exists [], x, b, l2. reflexivity.
Qed.

Lemma chain_interior ns q l v n r :
  chain ns q None l → v ∈ l → ns !! v = Some n → priority n = Fin r →
  ∃ l1 a b l2, l = l1 ++ a :: v :: b :: l2.
Proof.
  intros Hc Hv Hn Hpr.
  destruct (chain_interior_gen _ _ _ _ _ _ _ Hc Hv Hn Hpr)
    as [H|(a & b & l2 & Ha & _)]; [exact H|discriminate].
Qed.

Lemma Reqb_true (x y : R) : Reqb x y = true ↔ x = y.
Proof. unfold Reqb. destruct (Req_dec_T x y); split; congruence. Qed.

Lemma prio_eqb_true (a : prio) (r : R) : prio_eqb a r = true ↔ a = Fin r.
Proof.
  destruct a as [|x]; simpl; [split; discriminate|].
  rewrite Reqb_true. split; congruence.
Qed.

(** The victim search succeeds as soon as the queue holds one entry
    that is up to date, and drops only stale entries on the way. *)
Lemma find_victim_ok ns q :
  (∀ r j, (r, j) ∈ q → j < length ns) →
  (∃ r j n, (r, j) ∈ q ∧ ns !! j = Some n
            ∧ removed n = false ∧ priority n = Fin r) →
  ∃ v q' rv nv,
    find_victim ns q = Ok (v, q')
    ∧ ns !! v = Some nv ∧ removed nv = false ∧ priority nv = Fin rv
    ∧ (∀ x, x ∈ q' → x ∈ q)
    ∧ (∀ r x n, (r, x) ∈ q → ns !! x = Some n → removed n = false →
                priority n = Fin r → x ≠ v → (r, x) ∈ q').
Proof.
  induction q as [|[r0 j0] q IH]; intros Hlt (r & j & n & Hin & Hn & Hr & Hpr).
  - inversion Hin.
  - simpl. unfold node_at.
    destruct (lookup_lt_is_Some_2 ns j0) as [n0 Hn0].
    { eapply Hlt. left. }
    rewrite Hn0. simpl.
    destruct (negb (removed n0) && prio_eqb (priority n0) r0) eqn:E.
    + apply andb_true_iff in E as [E1 E2].
      apply negb_true_iff in E1. apply prio_eqb_true in E2.
      exists j0, q, r0, n0. repeat split; try assumption.
      * intros x Hx. right. assumption.
      * intros r' x n' Hx _ _ _ Hne.
        apply elem_of_cons in Hx as [Heq|Hx]; [|assumption].
        inversion Heq. congruence.
    + destruct IH as (v & q' & rv & nv & Hf & Hv & Hvr & Hvp & Hsub & Hkeep).
      * intros r' j' Hj'. eapply Hlt. right. eassumption.
      * exists r, j, n. repeat split; try assumption.
        apply elem_of_cons in Hin as [Heq|Hin]; [|assumption].
        inversion Heq. subst r0 j0.
        assert (n0 = n) by congruence. subst n0.
        rewrite Hr, Hpr in E. simpl in E.
        assert (Reqb r r = true) by (apply Reqb_true; reflexivity).
        congruence.
      * exists v, q', rv, nv. repeat split; try assumption.
        -- intros x Hx. right. apply Hsub. assumption.
        -- intros r' x n' Hx Hn' Hr' Hpr' Hne.
           apply elem_of_cons in Hx as [Heq|Hx].
           ++ inversion Heq. subst r0 j0.
              assert (n0 = n') by congruence. subst n0.
              rewrite Hr', Hpr' in E. simpl in E.
              assert (Reqb r' r' = true) by (apply Reqb_true; reflexivity).
              congruence.
           ++ eapply Hkeep; eassumption.
Qed.

(** The node store: one node per input fix, never re-targeted, with
    links that stay inside the store. *)
Definition ptr_ok (N : nat) (o : option nat) : Prop :=
  ∀ a, o = Some a → a < N.

Record store_ok (pts : list Point) (ns : list Node) : Prop := {
  so_len : length ns = length pts;
  so_node : ∀ j n, ns !! j = Some n →
    pts !! j = Some (point n) ∧ index n = j
    ∧ ptr_ok (length pts) (prev n) ∧ ptr_ok (length pts) (next n)
}.

Lemma store_ok_alter pts ns f j :
  (∀ n, point (f n) = point n) →
  (∀ n, index (f n) = index n) →
  (∀ n, ptr_ok (length pts) (prev n) → ptr_ok (length pts) (prev (f n))) →
  (∀ n, ptr_ok (length pts) (next n) → ptr_ok (length pts) (next (f n))) →
  store_ok pts ns → store_ok pts (alter f j ns).
Proof.
  intros Hpt Hix Hp Hn [Hlen Hnode]. split.
  - rewrite length_alter. assumption.
  - intros k n Hk. destruct (decide (j = k)) as [->|Hne].
    + rewrite list_lookup_alter_eq in Hk.
      destruct (ns !! k) as [m|] eqn:E; [|discriminate].
      simpl in Hk. inversion Hk. subst n.
      destruct (Hnode _ _ E) as (? & ? & ? & ?).
      rewrite Hpt, Hix. auto.
    + rewrite list_lookup_alter_ne in Hk by assumption. auto.
Qed.

Lemma store_ok_set_next pts ns v j :
  ptr_ok (length pts) v → store_ok pts ns →
  store_ok pts (alter (set_next v) j ns).
Proof. intros Hv. apply store_ok_alter; auto. Qed.

Lemma store_ok_set_prev pts ns v j :
  ptr_ok (length pts) v → store_ok pts ns →
  store_ok pts (alter (set_prev v) j ns).
Proof. intros Hv. apply store_ok_alter; auto. Qed.

Lemma store_ok_set_priority pts ns r j :
  store_ok pts ns → store_ok pts (alter (set_priority r) j ns).
Proof. apply store_ok_alter; auto. Qed.

Lemma store_ok_set_removed pts ns j :
  store_ok pts ns → store_ok pts (alter set_removed j ns).
Proof. apply store_ok_alter; auto. Qed.

Lemma store_ok_lookup pts ns j :
  store_ok pts ns → j < length pts → ∃ n, ns !! j = Some n.
Proof.
  intros [Hlen _] Hj. apply lookup_lt_is_Some_2. lia.
Qed.

Lemma ptr_ok_Some (N a : nat) : a < N → ptr_ok N (Some a).
Proof. intros Ha b Hb. inversion Hb. subst. assumption. Qed.

Lemma node_at_Some ns j n : ns !! j = Some n → node_at ns j = Ok n.
Proof. unfold node_at. intros ->. reflexivity. Qed.

Lemma reprioritise_ok pts ns q a b c nb :
  store_ok pts ns → a < length pts → c < length pts →
  ns !! b = Some nb →
  ∃ r, reprioritise ns q a b c
       = Ok (alter (set_priority r) b ns, heappush q (r, b)).
Proof.
  intros Hs Ha Hc Hb.
  destruct (store_ok_lookup _ _ _ Hs Ha) as [na Hna].
  destruct (store_ok_lookup _ _ _ Hs Hc) as [nc Hnc].
  unfold reprioritise.
  rewrite (node_at_Some _ _ _ Hna), (node_at_Some _ _ _ Hb),
    (node_at_Some _ _ _ Hnc). simpl.
  destruct (so_node _ _ Hs _ _ Hb) as (_ & -> & _).
  eexists. reflexivity.
Qed.

Ltac lk :=
  repeat first
    [ rewrite list_lookup_alter_eq
    | rewrite list_lookup_alter_ne by congruence ].

Lemma link_last_ok pts s i l last ni :
  store_ok pts (nodes s) →
  current_buffer_nodes s = l ++ [last] →
  NoDup (l ++ [last]) → i ∉ l ++ [last] → i < length pts →
  chain (nodes s) (pq s) None (l ++ [last]) →
  nodes s !! i = Some ni →
  next ni = None → priority ni = Inf → removed ni = false →
  (∀ r j, (r, j) ∈ pq s → j < length pts) →
  ∃ ns' q',
    link_last s i = Ok (ns', q')
    ∧ store_ok pts ns'
    ∧ chain ns' q' None (l ++ [last; i])
    ∧ (∀ j, j ∉ l ++ [last; i] → ns' !! j = nodes s !! j)
    ∧ (∀ r j, (r, j) ∈ q' → j < length pts).
Proof.
  intros Hs Hbuf Hnd Hi HiN Hc Hni Hnx Hpr Hrm Hq.
  destruct (chain_last _ _ _ _ _ Hc) as (nl & Hnl & Hpl & _ & _ & Hrl).
  assert (Hlast : last < length pts).
  { apply lookup_lt_Some in Hnl. rewrite (so_len _ _ Hs) in Hnl. lia. }
  assert (Hne : last ≠ i).
  { intros ->. apply Hi. apply elem_of_app. right. left. }
  assert (Hl : ∀ a, a ∈ l → a ≠ last ∧ a ≠ i).
  { intros a Ha. split.
    - intros ->. apply NoDup_app in Hnd as (_ & Hd & _).
      apply (Hd _ Ha). left.
    - intros ->. apply Hi. apply elem_of_app. left. assumption. }
  set (ns1 := alter (set_next (Some i)) last (nodes s)).
  set (ns2 := alter (set_prev (Some last)) i ns1).
  assert (Hs2 : store_ok pts ns2).
  { apply store_ok_set_prev; [apply ptr_ok_Some; assumption|].
    apply store_ok_set_next; [apply ptr_ok_Some|]; assumption. }
  assert (Hl2 : ns2 !! last = Some (set_next (Some i) nl)).
  { unfold ns2, ns1. lk. rewrite Hnl. reflexivity. }
  assert (Hi2 : ns2 !! i = Some (set_prev (Some last) ni)).
  { unfold ns2, ns1. lk. rewrite Hni. reflexivity. }
  unfold link_last. rewrite Hbuf, py_index_last. simpl.
  fold ns1. fold ns2. rewrite (node_at_Some _ _ _ Hl2). simpl.
  destruct (prev nl) as [a|] eqn:Ea.
  - assert (Ha : a < length pts).
    { destruct (so_node _ _ Hs _ _ Hnl) as (_ & _ & Hp & _).
      apply Hp. assumption. }
    destruct (reprioritise_ok pts ns2 (pq s) a last i _ Hs2 Ha HiN Hl2)
      as [r Hr].
    rewrite Hr. eexists _, _. split; [reflexivity|].
    split; [apply store_ok_set_priority; assumption|].
    split; [|split].
    + eapply (chain_append (nodes s) _ (pq s) _ None l last i nl
                (set_priority r (set_next (Some i) nl))
                (set_prev (Some last) ni)); try eassumption;
        try reflexivity.
      * intros x Hx. destruct (Hl _ Hx). unfold ns2, ns1. lk. reflexivity.
      * intros r' x n' _ _ _ Hx. apply elem_of_heappush. right. assumption.
      * lk. rewrite Hl2. reflexivity.
      * simpl. rewrite Ea. exists r. split; [reflexivity|].
        apply elem_of_heappush. left. reflexivity.
      * lk. assumption.
    + intros j Hj. rewrite !not_elem_of_app, !not_elem_of_cons in Hj.
      destruct Hj as (_ & ? & ? & _). unfold ns2, ns1. lk. reflexivity.
    + intros r' j Hj. apply elem_of_heappush in Hj as [Heq|Hj].
      * inversion Heq. subst. assumption.
      * eapply Hq. eassumption.
  - eexists _, _. split; [reflexivity|]. split; [assumption|].
    split; [|split].
    + eapply (chain_append (nodes s) _ (pq s) _ None l last i nl
                (set_next (Some i) nl) (set_prev (Some last) ni));
        try eassumption; try reflexivity.
      * intros x Hx. destruct (Hl _ Hx). unfold ns2, ns1. lk. reflexivity.
      * auto.
      * simpl. rewrite Ea. simpl.
        destruct (chain_last _ _ _ _ _ Hc) as (nl0 & Hnl0 & _ & _ & Hp0 & _).
        congruence.
    + intros j Hj. rewrite !not_elem_of_app, !not_elem_of_cons in Hj.
      destruct Hj as (_ & ? & ? & _). unfold ns2, ns1. lk. reflexivity.
    + assumption.
Qed.

Lemma NoDup_middle (l1 l2 : list nat) (a v b : nat) :
  NoDup (l1 ++ a :: v :: b :: l2) →
  a ≠ v ∧ a ≠ b ∧ v ≠ b ∧ (v ∉ l1)
  ∧ (∀ x, x ∈ l1 ++ l2 → x ≠ a ∧ x ≠ v ∧ x ≠ b).
Proof.
  rewrite NoDup_app, !NoDup_cons, !not_elem_of_cons.
  intros (_ & Hd & (Hav & Hab & Ha2) & (Hvb & Hv2) & Hb2 & _).
  repeat split; try assumption.
  - intros Hv. apply (Hd _ Hv). right. left.
  - intros ->. apply elem_of_app in H as [H|H]; [|contradiction].
    apply (Hd _ H). left.
  - intros ->. apply elem_of_app in H as [H|H]; [|contradiction].
    apply (Hd _ H). right. left.
  - intros ->. apply elem_of_app in H as [H|H]; [|contradiction].
    apply (Hd _ H). right. right. left.
Qed.

Lemma remove_node_ok pts ns q0 q l1 a v b l2 :
  store_ok pts ns →
  NoDup (l1 ++ a :: v :: b :: l2) →
  chain ns q0 None (l1 ++ a :: v :: b :: l2) →
  (∀ r x n, x ∈ l1 ++ a :: v :: b :: l2 → x ≠ v → ns !! x = Some n →
            priority n = Fin r → (r, x) ∈ q0 → (r, x) ∈ q) →
  (∀ r j, (r, j) ∈ q → j < length pts) →
  ∃ ns' q',
    _remove_node ns q v = Ok (ns', q')
    ∧ store_ok pts ns'
    ∧ chain ns' q' None (l1 ++ a :: b :: l2)
    ∧ (∀ j, j ∉ l1 ++ a :: v :: b :: l2 → ns' !! j = ns !! j)
    ∧ (∃ nv', ns' !! v = Some nv' ∧ removed nv' = true)
    ∧ (∀ r j, (r, j) ∈ q' → j < length pts).
Proof.
  intros Hs Hnd Hc Hq0 Hq.
  destruct (chain_middle _ _ _ _ _ _ _ _ Hc)
    as (na & nv & nb & Hna & Hnv & Hnb & Hvp & Hvn & Hbn).
  destruct (NoDup_middle _ _ _ _ _ Hnd) as (Hav & Hab & Hvb & Hv1 & Hrest).
  assert (HaN : a < length pts).
  { apply lookup_lt_Some in Hna. rewrite (so_len _ _ Hs) in Hna. lia. }
  assert (HbN : b < length pts).
  { apply lookup_lt_Some in Hnb. rewrite (so_len _ _ Hs) in Hnb. lia. }
  set (ns1 := alter set_removed v ns).
  set (ns2 := alter (set_next (Some b)) a ns1).
  set (ns3 := alter (set_prev (Some a)) b ns2).
  assert (Hs3 : store_ok pts ns3).
  { apply store_ok_set_prev; [apply ptr_ok_Some; assumption|].
    apply store_ok_set_next; [apply ptr_ok_Some; assumption|].
    apply store_ok_set_removed. assumption. }
  assert (Ha3 : ns3 !! a = Some (set_next (Some b) na)).
  { unfold ns3, ns2, ns1. lk. rewrite Hna. reflexivity. }
  assert (Hb3 : ns3 !! b = Some (set_prev (Some a) nb)).
  { unfold ns3, ns2, ns1. lk. rewrite Hnb. reflexivity. }
  assert (Hv3 : ns3 !! v = Some (set_removed nv)).
  { unfold ns3, ns2, ns1. lk. rewrite Hnv. reflexivity. }
  assert (Ho3 : ∀ j, j ≠ a → j ≠ v → j ≠ b → ns3 !! j = ns !! j).
  { intros j ? ? ?. unfold ns3, ns2, ns1. lk. reflexivity. }
  (* the first re-prioritisation, of the predecessor *)
  assert (H1 : ∃ ns4 q4,
    (match prev na with
     | Some a' => reprioritise ns3 q a' a b
     | None => Ok (ns3, q)
     end) = Ok (ns4, q4)
    ∧ store_ok pts ns4
    ∧ (∃ na4, ns4 !! a = Some na4 ∧ prev na4 = prev na
              ∧ next na4 = Some b ∧ removed na4 = false
              ∧ match prev na with
                | Some _ => ∃ r, priority na4 = Fin r ∧ (r, a) ∈ q4
                | None => priority na4 = Inf
                end)
    ∧ (∀ j, j ≠ a → ns4 !! j = ns3 !! j)
    ∧ (∀ x, x ∈ q → x ∈ q4)
    ∧ (∀ r j, (r, j) ∈ q4 → j < length pts)).
  { assert (Hra : removed na = false ∧ (prev na = None → priority na = Inf)).
    { assert (Hgen : ∀ p, chain ns q0 p (l1 ++ a :: v :: b :: l2) →
                removed na = false ∧ (prev na = None → priority na = Inf)).
      { clear -Hna. induction l1 as [|x l1 IH]; intros p; simpl.
        - intros [(n & Hn & Hp & _ & Hr & Hpr) _].
          assert (n = na) by congruence. subst n. split; [assumption|].
          intros E. subst p. rewrite E in Hpr. exact Hpr.
        - intros [_ Hc]. eapply IH. eassumption. }
      eapply Hgen. eassumption. }
    destruct Hra as [Hra Hpa].
    destruct (prev na) as [a'|] eqn:Ea.
    - assert (Ha' : a' < length pts).
      { destruct (so_node _ _ Hs _ _ Hna) as (_ & _ & Hp & _).
        apply Hp. assumption. }
      destruct (reprioritise_ok pts ns3 q a' a b _ Hs3 Ha' HbN Ha3)
        as [r Hr].
      rewrite Hr. eexists _, _. split; [reflexivity|].
      split; [apply store_ok_set_priority; assumption|].
      split; [|split; [|split]].
      + exists (set_priority r (set_next (Some b) na)).
        lk. rewrite Ha3. repeat split; try assumption.
        exists r. split; [reflexivity|].
        apply elem_of_heappush. left. reflexivity.
      + intros j Hj. lk. reflexivity.
      + intros x Hx. apply elem_of_heappush. right. assumption.
      + intros r' j Hj. apply elem_of_heappush in Hj as [Heq|Hj].
        * inversion Heq. subst. assumption.
        * eapply Hq. eassumption.
    - eexists _, _. split; [reflexivity|]. split; [assumption|].
      split; [|split; [|split]]; auto.
      exists (set_next (Some b) na). repeat split; auto. }
  destruct H1 as (ns4 & q4 & He1 & Hs4 & (na4 & Ha4 & Hap4 & Han4 & Har4 & Hapr4)
                  & Ho4 & Hq4 & Hq4N).
  assert (Hb4 : ns4 !! b = Some (set_prev (Some a) nb)).
  { rewrite Ho4 by congruence. assumption. }
  (* the second one, of the successor *)
  assert (H2 : ∃ ns5 q5,
    (match next nb with
     | Some b' => reprioritise ns4 q4 a b b'
     | None => Ok (ns4, q4)
     end) = Ok (ns5, q5)
    ∧ store_ok pts ns5
    ∧ (∃ nb5, ns5 !! b = Some nb5 ∧ prev nb5 = Some a
              ∧ next nb5 = next nb ∧ removed nb5 = false
              ∧ match next nb with
                | Some _ => ∃ r, priority nb5 = Fin r ∧ (r, b) ∈ q5
                | None => priority nb5 = Inf
                end)
    ∧ (∀ j, j ≠ b → ns5 !! j = ns4 !! j)
    ∧ (∀ x, x ∈ q4 → x ∈ q5)
    ∧ (∀ r j, (r, j) ∈ q5 → j < length pts)).
  { assert (Hrb : removed nb = false ∧ (next nb = None → priority nb = Inf)).
    { assert (Hgen : ∀ p, chain ns q0 p (l1 ++ a :: v :: b :: l2) →
                removed nb = false ∧ (next nb = None → priority nb = Inf)).
      { clear -Hnb. induction l1 as [|x l1 IH]; intros p; simpl.
        - intros [_ [_ [(n & Hn & _ & Hx & Hr & Hpr) _]]].
          assert (n = nb) by congruence. subst n. split; [assumption|].
          intros E. rewrite E in Hx. destruct l2; [assumption|discriminate].
        - intros [_ Hc]. eapply IH. eassumption. }
      eapply Hgen. eassumption. }
    destruct Hrb as [Hrb Hpb].
    destruct (next nb) as [b'|] eqn:Eb.
    - assert (Hb' : b' < length pts).
      { destruct (so_node _ _ Hs _ _ Hnb) as (_ & _ & _ & Hn).
        apply Hn. assumption. }
      destruct (reprioritise_ok pts ns4 q4 a b b' _ Hs4 HaN Hb' Hb4)
        as [r Hr].
      rewrite Hr. eexists _, _. split; [reflexivity|].
      split; [apply store_ok_set_priority; assumption|].
      split; [|split; [|split]].
      + exists (set_priority r (set_prev (Some a) nb)).
        lk. rewrite Hb4. repeat split; try assumption.
        exists r. split; [reflexivity|].
        apply elem_of_heappush. left. reflexivity.
      + intros j Hj. lk. reflexivity.
      + intros x Hx. apply elem_of_heappush. right. assumption.
      + intros r' j Hj. apply elem_of_heappush in Hj as [Heq|Hj].
        * inversion Heq. subst. assumption.
        * eapply Hq4N. eassumption.
    - eexists _, _. split; [reflexivity|]. split; [assumption|].
      split; [|split; [|split]]; auto.
      exists (set_prev (Some a) nb). repeat split; auto. }
  destruct H2 as (ns5 & q5 & He2 & Hs5 & (nb5 & Hb5 & Hbp5 & Hbn5 & Hbr5 & Hbpr5)
                  & Ho5 & Hq5 & Hq5N).
  exists ns5, q5. split.
  { unfold _remove_node. rewrite (node_at_Some _ _ _ Hnv). simpl.
    rewrite Hvp, Hvn. fold ns1. fold ns2. fold ns3.
    rewrite (node_at_Some _ _ _ Ha3). simpl.
    rewrite He1. simpl.
    rewrite (node_at_Some _ _ _ Hb4). simpl. exact He2. }
  split; [assumption|]. split; [|split; [|split]].
  - eapply (chain_remove ns ns5 q0 q5 None l1 a v b l2 na nb na4 nb5);
      try eassumption.
    + intros x Hx. destruct (Hrest _ Hx) as (? & ? & ?).
      rewrite Ho5, Ho4, Ho3 by assumption. reflexivity.
    + intros r x n Hx Hn Hpr Hin. apply Hq5, Hq4.
      destruct (Hrest _ Hx) as (? & ? & ?).
      eapply Hq0; try eassumption.
      apply elem_of_app in Hx as [Hx|Hx]; apply elem_of_app;
        [left; assumption|right; do 3 right; assumption].
    + rewrite Ho5 by congruence. assumption.
    + destruct (prev na); [|assumption].
      destruct Hapr4 as (r & ? & ?). exists r. auto.
  - intros j Hj. rewrite not_elem_of_app, !not_elem_of_cons in Hj.
    destruct Hj as (_ & ? & ? & ? & _).
    rewrite Ho5, Ho4, Ho3 by assumption. reflexivity.
  - exists (set_removed nv). split; [|reflexivity].
    rewrite Ho5, Ho4 by congruence. assumption.
  - assumption.
Qed.

(** The loop invariant of [compress] once [i ≥ 1] fixes were taken in. *)
Record inv (pts : list Point) (K : Z) (i : nat) (s : state) : Prop := {
  inv_store : store_ok pts (nodes s);
  inv_sub : current_buffer_nodes s `sublist_of` seq 0 i;
  inv_head : head (current_buffer_nodes s) = Some 0;
  inv_last : last (current_buffer_nodes s) = Some (pred i);
  inv_size : len (current_buffer_nodes s) = Z.min (Z.of_nat i) K;
  inv_chain : chain (nodes s) (pq s) None (current_buffer_nodes s);
  inv_out : ∀ j n, nodes s !! j = Some n → j ∉ current_buffer_nodes s →
    (j < i → removed n = true)
    ∧ (i ≤ j → next n = None ∧ priority n = Inf ∧ removed n = false);
  inv_pq : ∀ r j, (r, j) ∈ pq s → j < length pts
}.

Lemma last_drop_middle (l1 l2 : list nat) (a v b : nat) :
  last (l1 ++ a :: v :: b :: l2) = last (l1 ++ a :: b :: l2).
Proof.
  rewrite !last_app. simpl. reflexivity.
Qed.

Lemma head_drop_middle (l1 l2 : list nat) (a v b : nat) :
  head (l1 ++ a :: v :: b :: l2) = head (l1 ++ a :: b :: l2).
Proof. destruct l1; reflexivity. Qed.

Lemma sublist_drop_middle (l1 l2 : list nat) (a v b : nat) :
  l1 ++ a :: b :: l2 `sublist_of` l1 ++ a :: v :: b :: l2.
Proof.
  apply sublist_app; [reflexivity|].
  apply sublist_skip, sublist_cons. reflexivity.
Qed.

Lemma step_ok pts K i s :
  (2 ≤ K)%Z → 1 ≤ i → i < length pts →
  inv pts K i s →
  ∃ s', step K s i = Ok s' ∧ inv pts K (S i) s'.
Proof.
  intros HK Hi1 HiN [Hst Hsub Hhd Hla Hsz Hch Hout Hpq].
  apply last_Some in Hla as [l Hbuf].
  assert (Hnd : NoDup (l ++ [pred i])).
  { rewrite <- Hbuf. eapply sublist_NoDup; [apply NoDup_seq|eassumption]. }
  assert (Hlt : ∀ x, x ∈ current_buffer_nodes s → x < i).
  { intros x Hx. eapply elem_of_sublist in Hx; [|eassumption].
    apply elem_of_seq in Hx. lia. }
  assert (Hni : i ∉ l ++ [pred i]).
  { rewrite <- Hbuf. intros Hx. apply Hlt in Hx. lia. }
  destruct (store_ok_lookup _ _ _ Hst HiN) as [ni Hi].
  destruct (Hout _ _ Hi) as [_ Hfresh]; [rewrite Hbuf; assumption|].
  destruct (Hfresh (le_n _)) as (Hnx & Hpr & Hrm).
  rewrite Hbuf in Hch.
  destruct (link_last_ok pts s i l (pred i) ni Hst Hbuf Hnd Hni HiN Hch
              Hi Hnx Hpr Hrm Hpq)
    as (ns' & q' & Hlink & Hst' & Hch' & Hout' & Hpq').
  assert (Happ : (l ++ [pred i]) ++ [i] = l ++ [pred i; i]).
  { rewrite <- app_assoc. reflexivity. }
  assert (Hsub' : (l ++ [pred i]) ++ [i] `sublist_of` seq 0 (S i)).
  { rewrite seq_S. simpl. apply sublist_app; [|reflexivity].
    rewrite <- Hbuf. assumption. }
  assert (Hout'' : ∀ j n, ns' !! j = Some n → j ∉ l ++ [pred i; i] →
    (j < i → removed n = true)
    ∧ (S i ≤ j → next n = None ∧ priority n = Inf ∧ removed n = false)).
  { intros j n Hj Hnin. rewrite Hout' in Hj by assumption.
    assert (j ∉ current_buffer_nodes s).
    { rewrite Hbuf. intros Hx. apply Hnin. rewrite <- Happ.
      apply elem_of_app. left. assumption. }
    destruct (Hout _ _ Hj) as [H1 H2]; [assumption|].
    split; [assumption|]. intros ?. apply H2. lia. }
  unfold step.
  destruct (Z.ltb_spec (len (current_buffer_nodes s)) K) as [Hlt'|Hge].
  - (* room left in the buffer *)
    assert (Hm : match current_buffer_nodes s with
                 | [] => Ok (nodes s, pq s)
                 | _ :: _ => link_last s i
                 end = Ok (ns', q')).
    { rewrite Hbuf. destruct l; exact Hlink. }
    rewrite Hm. simpl. eexists. split; [reflexivity|].
    split; simpl; try assumption.
    + rewrite Hbuf. assumption.
    + rewrite Hbuf. rewrite Hbuf in Hhd.
      destruct l; simpl in *; assumption.
    + rewrite last_snoc. reflexivity.
    + unfold len in *. rewrite length_app. simpl. lia.
    + rewrite Hbuf, Happ. assumption.
    + intros j n Hj Hnin. rewrite Hbuf, Happ in Hnin.
      destruct (Hout'' _ _ Hj Hnin) as [H1 H2]. split; [|assumption].
      intros Hlt2. apply H1.
      assert (j ≠ i); [|lia].
      intros ->. apply Hnin. rewrite <- Happ. apply elem_of_app.
      right. left.
  - (* buffer full: link, pick the victim, unlink it *)
    rewrite Hlink. simpl.
    assert (Hlen3 : 3 ≤ length (l ++ [pred i; i])).
    { rewrite <- Happ, length_app, <- Hbuf. simpl. unfold len in *. lia. }
    assert (Hvalid : ∃ r j n, (r, j) ∈ q' ∧ ns' !! j = Some n
                              ∧ removed n = false ∧ priority n = Fin r).
    { destruct (l ++ [pred i; i]) as [|x0 [|x1 [|x2 rest]]] eqn:E;
        simpl in Hlen3; try lia.
      destruct Hch' as [_ [(n1 & Hn1 & _ & _ & Hr1 & r & Hp1 & Hin1) _]].
      exists r, x1, n1. auto. }
    destruct (find_victim_ok ns' q') as
      (v & q'' & rv & nv & Hfind & Hv & Hvr & Hvp & Hqsub & Hkeep).
    { intros r j Hj. rewrite (so_len _ _ Hst'). eapply Hpq'. eassumption. }
    { assumption. }
    rewrite Hfind. simpl.
    assert (Hvin : v ∈ l ++ [pred i; i]).
    { destruct (decide (v ∈ l ++ [pred i; i])) as [|Hnin]; [assumption|].
      exfalso. destruct (Hout'' _ _ Hv Hnin) as [H1 H2].
      destruct (Nat.lt_ge_cases v i) as [Hvi|Hvi].
      - rewrite (H1 Hvi) in Hvr. discriminate.
      - assert (v ≠ i).
        { intros ->. apply Hnin. apply elem_of_app. right. right. left. }
        destruct H2 as (_ & Hp2 & _); [lia|]. congruence. }
    destruct (chain_interior _ _ _ _ _ _ Hch' Hvin Hv Hvp)
      as (l1 & a & b & l2 & Hsplit).
    rewrite Hsplit in Hch'.
    assert (Hnd' : NoDup (l1 ++ a :: v :: b :: l2)).
    { rewrite <- Hsplit, <- Happ.
      eapply sublist_NoDup; [apply NoDup_seq|eassumption]. }
    destruct (remove_node_ok pts ns' q' q'' l1 a v b l2 Hst' Hnd' Hch')
      as (ns'' & q3 & Hrem & Hst'' & Hch'' & Hout3 & (nv' & Hnv' & Hrv') & Hpq3).
    { intros r x n Hx Hne Hn Hp Hin.
      destruct (chain_lookup _ _ _ _ _ Hch' Hx) as (n0 & Hn0 & Hr0).
      assert (n0 = n) by congruence. subst n0.
      eapply Hkeep; eassumption. }
    { intros r j Hj. eapply Hpq'. apply Hqsub. eassumption. }
    rewrite Hrem. simpl.
    rewrite Hbuf, Happ, Hsplit.
    destruct (NoDup_middle _ _ _ _ _ Hnd') as (_ & _ & _ & Hv1 & _).
    replace (l1 ++ a :: v :: b :: l2) with ((l1 ++ [a]) ++ v :: b :: l2)
      by (rewrite <- app_assoc; reflexivity).
    rewrite py_remove_middle.
    2:{ rewrite not_elem_of_app, list_elem_of_singleton.
        split; [assumption|].
        apply NoDup_app in Hnd' as (_ & _ & Hnd').
        apply NoDup_cons in Hnd' as [Hav _].
        intros ->. apply Hav. left. }
    simpl. eexists. split; [reflexivity|].
    rewrite <- app_assoc. simpl.
    split; simpl; try assumption.
    + transitivity (l1 ++ a :: v :: b :: l2); [apply sublist_drop_middle|].
      rewrite <- Hsplit, <- Happ. exact Hsub'.
    + rewrite <- (head_drop_middle l1 l2 a v b), <- Hsplit.
      rewrite Hbuf in Hhd. destruct l; simpl in *; assumption.
    + rewrite <- (last_drop_middle l1 l2 a v b), <- Hsplit, <- Happ.
      rewrite last_snoc. reflexivity.
    + assert (length (l1 ++ a :: v :: b :: l2)
              = S (length (current_buffer_nodes s))).
      { rewrite <- Hsplit, <- Happ, length_app, <- Hbuf. simpl. lia. }
      unfold len in *. rewrite !length_app in *. simpl in *. lia.
    + intros j n Hj Hnin.
      destruct (decide (j = v)) as [->|Hne].
      * assert (n = nv') by congruence. subst n.
        assert (v < S i).
        { rewrite <- Happ in Hvin.
          eapply elem_of_sublist in Hvin; [|exact Hsub'].
          apply elem_of_seq in Hvin. lia. }
        split; [intros _; assumption|lia].
      * assert (Hnin' : j ∉ l1 ++ a :: v :: b :: l2).
        { intros Hx. apply Hnin.
          rewrite elem_of_app, !elem_of_cons in Hx.
          rewrite elem_of_app, !elem_of_cons. tauto. }
        rewrite Hout3 in Hj by assumption.
        rewrite <- Hsplit in Hnin'.
        destruct (Hout'' _ _ Hj Hnin') as [H1 H2]. split; [|assumption].
        intros Hlt2. apply H1.
        assert (j ≠ i); [|lia].
        intros ->. apply Hnin'. apply elem_of_app. right. right. left.
Qed.

Lemma loop_ok pts K m i s :
  (2 ≤ K)%Z → 1 ≤ i → i + m = length pts →
  inv pts K i s →
  ∃ s', loop K s (seq i m) = Ok s' ∧ inv pts K (length pts) s'.
Proof.
  intros HK. revert i s.
  induction m as [|m IH]; intros i s Hi Hlen Hinv; simpl.
  - exists s. split; [reflexivity|].
    replace (length pts) with i by lia. assumption.
  - destruct (step_ok pts K i s HK Hi) as (s1 & Hs1 & Hinv1);
      [lia|assumption|].
    rewrite Hs1. simpl. apply IH; [lia|lia|assumption].
Qed.

Definition init (pts : list Point) : state :=
  mkState (imap (λ i p, new_node p i) pts) [] [].

Lemma first_step_ok pts K :
  (1 ≤ K)%Z → 1 ≤ length pts →
  ∃ s, step K (init pts) 0 = Ok s ∧ inv pts K 1 s.
Proof.
  intros HK Hlen. unfold step, init. simpl.
  destruct (Z.ltb_spec (len (@nil nat)) K) as [_|Hge];
    [|unfold len in Hge; simpl in Hge; lia].
  simpl. eexists. split; [reflexivity|].
  assert (Hlk : ∀ j n, imap (λ i p, new_node p i) pts !! j = Some n →
                       ∃ p, pts !! j = Some p ∧ n = new_node p j).
  { intros j n Hj. rewrite list_lookup_imap in Hj.
    destruct (pts !! j) as [p|]; [|discriminate].
    inversion Hj. eauto. }
  split; simpl.
  - split; [apply length_imap|].
    intros j n Hj. destruct (Hlk _ _ Hj) as (p & Hp & ->). simpl.
    repeat split; try assumption; intros a Ha; discriminate.
  - reflexivity.
  - reflexivity.
  - reflexivity.
  - unfold len. simpl. lia.
  - split; [|trivial].
    destruct (lookup_lt_is_Some_2 pts 0 Hlen) as [p Hp].
    exists (new_node p 0). rewrite list_lookup_imap, Hp. simpl. auto.
  - intros j n Hj Hnin. destruct (Hlk _ _ Hj) as (p & Hp & ->). simpl.
    split; [|auto]. intros Hj1. exfalso. apply Hnin.
    replace j with 0 by lia. left.
  - intros r j Hj. inversion Hj.
Qed.

Lemma chain_collect pts ns q p l fuel :
  store_ok pts ns → chain ns q p l → length l < fuel →
  collect fuel ns (head l) = Ok (omap (λ j, pts !! j) l).
Proof.
  intros Hs. revert p fuel.
  induction l as [|a l IH]; intros p fuel Hc Hf; simpl.
  - destruct fuel; reflexivity.
  - destruct fuel as [|fuel]; [simpl in Hf; lia|].
    destruct Hc as [(n & Hn & _ & Hx & _) Hc]. simpl.
    rewrite (node_at_Some _ _ _ Hn). simpl.
    rewrite Hx, (IH _ _ Hc) by (simpl in Hf; lia). simpl.
    destruct (so_node _ _ Hs _ _ Hn) as (-> & _). reflexivity.
Qed.

Lemma sublist_omap {A B : Type} (f : A → option B) (l k : list A) :
  l `sublist_of` k → omap f l `sublist_of` omap f k.
Proof.
  induction 1 as [|x l k _ IH|x l k _ IH]; simpl.
  - constructor.
  - destruct (f x); [apply sublist_skip|]; assumption.
  - destruct (f x); [apply sublist_cons|]; assumption.
Qed.

Lemma omap_lookup_seq {A : Type} (pre l : list A) :
  omap (λ j, (pre ++ l) !! j) (seq (length pre) (length l)) = l.
Proof.
  revert pre. induction l as [|x l IH]; intros pre; simpl; [reflexivity|].
  rewrite lookup_app_r, Nat.sub_diag by lia. simpl. f_equal.
  specialize (IH (pre ++ [x])).
  rewrite <- app_assoc, length_app in IH. simpl in IH.
  rewrite Nat.add_1_r in IH. exact IH.
Qed.

Lemma sublist_select {A : Type} (l : list A) (idx : list nat) :
  idx `sublist_of` seq 0 (length l) →
  omap (λ j, l !! j) idx `sublist_of` l.
Proof.
  intros H. apply (sublist_omap (λ j, l !! j)) in H.
  pose proof (omap_lookup_seq [] l) as E. simpl in E.
  rewrite E in H. exact H.
Qed.

Lemma length_select {A : Type} (l : list A) (idx : list nat) :
  Forall (λ j, j < length l) idx →
  length (omap (λ j, l !! j) idx) = length idx.
Proof.
  induction 1 as [|j idx Hj _ IH]; simpl; [reflexivity|].
  destruct (lookup_lt_is_Some_2 l j Hj) as [x Hx].
  rewrite Hx. simpl. f_equal. exact IH.
Qed.

(** What [compress] returns when the input has more fixes than the
    buffer holds: the fixes at the positions left in the buffer. *)
Lemma compress_long self pts cap :
  let K := match cap with Some c => c | None => capacity self end in
  (2 ≤ K)%Z → (K < len pts)%Z →
  ∃ buf, compress self pts cap = Ok (omap (λ j, pts !! j) buf)
         ∧ buf `sublist_of` seq 0 (length pts)
         ∧ head buf = Some 0
         ∧ last buf = Some (pred (length pts))
         ∧ len buf = K.
Proof.
  intros K HK Hlen. unfold compress.
  destruct pts as [|p0 pts']; [unfold len in Hlen; simpl in Hlen; lia|].
  set (pts := p0 :: pts') in *. fold K.
  destruct (Z.leb_spec (len pts) K) as [|_]; [lia|].
  assert (HN : 1 ≤ length pts) by (simpl; lia).
  destruct (first_step_ok pts K) as (s1 & Hs1 & Hinv1); [lia|assumption|].
  destruct (loop_ok pts K (length pts') 1 s1 HK (le_n _)) as (s & Hs & Hinv);
    [reflexivity|assumption|].
  assert (Hloop : loop K (init pts) (seq 0 (length pts)) = Ok s).
  { change (seq 0 (length pts)) with (0 :: seq 1 (length pts')).
    simpl. rewrite Hs1. simpl. exact Hs. }
  unfold init in Hloop. rewrite Hloop.
  destruct Hinv as [Hst Hsub Hhd Hla Hsz Hch _ _].
  exists (current_buffer_nodes s).
  split; [|split; [assumption|split; [assumption|split; [assumption|]]]].
  - change (collect (S (length pts)) (nodes s) (Some 0)
            = Ok (omap (λ j, pts !! j) (current_buffer_nodes s))).
    rewrite <- Hhd. eapply chain_collect; try eassumption.
    apply sublist_length in Hsub. rewrite length_seq in Hsub. lia.
  - rewrite Hsz. unfold len in *. lia.
Qed.

(** With a capacity below two the buffer never gets an inner node, and
    the first round that finds it full fails on an empty container. *)
Lemma compress_small self pts cap :
  let K := match cap with Some c => c | None => capacity self end in
  (K ≤ 1)%Z → pts ≠ [] → (K < len pts)%Z →
  compress self pts cap = Raise IndexError.
Proof.
  intros K HK Hne Hlen. unfold compress.
  destruct pts as [|p0 pts]; [congruence|]. fold K.
  destruct (Z.leb_spec (len (p0 :: pts)) K) as [|_]; [lia|].
  change (seq 0 (length (p0 :: pts))) with (0 :: seq 1 (length pts)).
  destruct (Z.le_gt_cases K 0) as [HK0|HK1].
  - simpl. unfold step. simpl.
    destruct (Z.ltb_spec (len (@nil nat)) K) as [Hlt|_];
      [unfold len in Hlt; simpl in Hlt; lia|].
    reflexivity.
  - assert (K = 1%Z) by lia.
    destruct pts as [|p1 pts]; [unfold len in Hlen; simpl in Hlen; lia|].
    replace K with 1%Z. reflexivity.
Qed.

Lemma compress_never_ValueError self pts cap :
  compress self pts cap ≠ Raise ValueError.
Proof.
  set (K := match cap with Some c => c | None => capacity self end).
  destruct pts as [|p0 pts'] eqn:E; [discriminate|]. rewrite <- E.
  assert (Hne : pts ≠ []) by (rewrite E; discriminate).
  destruct (Z.le_gt_cases (len pts) K) as [Hle|Hgt].
  - unfold compress. rewrite E. fold K. rewrite <- E.
    destruct (Z.leb_spec (len pts) K); [discriminate|lia].
  - destruct (Z.le_gt_cases K 1) as [HK|HK].
    + rewrite (compress_small self pts cap HK Hne Hgt). discriminate.
    + destruct (compress_long self pts cap) as (buf & -> & _);
        [fold K; lia|assumption|discriminate].
Qed.

End squish.

(** ** SQUISH: the contract of [compress] *)

(** C1. For a capacity [K ≥ 3], [compress(points, K)] returns a
    subsequence of the input, in input order, of at most [K] fixes, that
    starts with the first input fix and ends with the last one; an input
    of at most [K] fixes is returned unchanged, the empty input gives the
    empty output. *)
Theorem squish_compress_contract
    (self : SquishCompressor.t) (points : list Point) (K : Z) :
  (3 ≤ K)%Z →
  ∃ out, SquishCompressor.compress self points (Some K) = Ok out
         ∧ out `sublist_of` points
         ∧ (len out ≤ K)%Z
         ∧ head out = head points
         ∧ last out = last points
         ∧ ((len points ≤ K)%Z → out = points)
         ∧ (points = [] → out = []).
Proof.
  intros HK.
  destruct (Z.le_gt_cases (len points) K) as [Hle|Hgt].
  - exists points. split.
    + unfold SquishCompressor.compress.
      destruct points; [reflexivity|].
      destruct (Z.leb_spec (len (p :: points)) K); [reflexivity|lia].
    + repeat split; auto; lia.
  - destruct (compress_long self points (Some K)) as
      (buf & Hc & Hsub & Hhd & Hla & Hsz); [simpl; lia|assumption|].
    exists (omap (λ j, points !! j) buf).
    assert (Hlen : length (omap (λ j, points !! j) buf) = length buf).
    { apply length_select. apply Forall_forall. intros j Hj.
      eapply elem_of_sublist in Hj; [|eassumption].
      apply elem_of_seq in Hj. lia. }
    assert (Hpos : 0 < length points).
    { unfold len in Hgt. lia. }
    split; [assumption|]. split; [apply sublist_select; assumption|].
    split; [unfold len in *; lia|]. split; [|split; [|split]].
    + destruct buf as [|b0 buf]; [discriminate|].
      simpl in Hhd. inversion Hhd. subst b0. simpl.
      rewrite (head_lookup points).
      destruct (points !! 0) eqn:E0; [reflexivity|].
      apply lookup_ge_None in E0. lia.
    + apply last_Some in Hla as [l ->].
      rewrite omap_app, (last_lookup points). simpl.
      destruct (lookup_lt_is_Some_2 points (pred (length points))) as [x Hx];
        [lia|].
      rewrite Hx. simpl. apply last_snoc.
    + lia.
    + intros ->. simpl in Hpos. lia.
Qed.

Lemma squish_compress_contract_witness :
  ∃ out, SquishCompressor.compress (SquishCompressor.mk 50)
           [mkPoint 0 0 0 "a" None] (Some 3%Z) = Ok out
         ∧ out `sublist_of` [mkPoint 0 0 0 "a" None]
         ∧ (len out ≤ 3)%Z
         ∧ head out = head [mkPoint 0 0 0 "a" None]
         ∧ last out = last [mkPoint 0 0 0 "a" None]
         ∧ ((len [mkPoint 0 0 0 "a" None] ≤ 3)%Z
            → out = [mkPoint 0 0 0 "a" None])
         ∧ ([mkPoint 0 0 0 "a" None] = [] → out = []).
Proof.
  apply (squish_compress_contract (SquishCompressor.mk 50)
           [mkPoint 0 0 0 "a" None] 3).
  lia.
Defined.

(** ** Python slices on a list cut in pieces *)

Lemma len_app {A : Type} (l k : list A) : len (l ++ k) = (len l + len k)%Z.
Proof. unfold len. rewrite length_app. lia. Qed.

Lemma len_nonneg {A : Type} (l : list A) : (0 ≤ len l)%Z.
Proof. unfold len. lia. Qed.

Lemma len_nil_inv {A : Type} (l : list A) : len l = 0%Z → l = [].
Proof. unfold len. destruct l; [reflexivity|simpl; lia]. Qed.

Lemma py_bound_in {A : Type} (l : list A) (i : Z) :
  (0 ≤ i ≤ len l)%Z → py_bound l i = Z.to_nat i.
Proof.
  intros H. unfold py_bound.
  destruct (Z.ltb_spec i 0); [lia|]. f_equal. lia.
Qed.

Lemma py_slice_app3 {A : Type} (c1 c2 c3 : list A) :
  py_slice (c1 ++ c2 ++ c3) (len c1) (len c1 + len c2) = c2.
Proof.
  unfold py_slice.
  rewrite !py_bound_in by (rewrite !len_app; pose proof (len_nonneg c1);
    pose proof (len_nonneg c2); pose proof (len_nonneg c3); lia).
  unfold len. rewrite <- Nat2Z.inj_add, !Nat2Z.id.
  rewrite drop_app_length.
  replace (length c1 + length c2 - length c1) with (length c2) by lia.
  apply take_app_length.
Qed.

Lemma py_slice_from_app {A : Type} (c1 c2 : list A) :
  py_slice_from (c1 ++ c2) (len c1) = c2.
Proof.
  unfold py_slice_from.
  rewrite py_bound_in by (rewrite len_app; pose proof (len_nonneg c1);
    pose proof (len_nonneg c2); lia).
  unfold len. rewrite Nat2Z.id. apply drop_app_length.
Qed.

Lemma py_index_in {A : Type} (l : list A) (k : Z) :
  (0 ≤ k < len l)%Z → ∃ x, py_index l k = Ok x.
Proof.
  intros H. unfold py_index.
  destruct (Z.ltb_spec k 0); [lia|].
  destruct (Z.ltb_spec k 0); [lia|].
  destruct (lookup_lt_is_Some_2 l (Z.to_nat k)) as [x Hx];
    [unfold len in H; lia|].
  rewrite Hx. eauto.
Qed.

Lemma split_at {A : Type} (l : list A) (k : Z) :
  (0 ≤ k ≤ len l)%Z → ∃ l1 l2, l = l1 ++ l2 ∧ len l1 = k.
Proof.
  intros H. exists (take (Z.to_nat k) l), (drop (Z.to_nat k) l).
  split; [symmetry; apply take_drop|].
  unfold len in *. rewrite length_take. lia.
Qed.

(** ** STEP: every fix ends up in exactly one segment *)

Section step.
Import STEPSegmenter.

Definition pt (it : item) : Point := it.1.1.

Lemma get_points_split self c1 c2 c3 :
  cache self = c1 ++ c2 ++ c3 →
  _get_points self (cache_offset self + len c1)
              (cache_offset self + len c1 + len c2 - 1) = pt <$> c2.
Proof.
  intros Hc. unfold _get_points.
  pose proof (len_nonneg c1). pose proof (len_nonneg c2).
  destruct (Z.ltb_spec (cache_offset self + len c1 + len c2 - 1)
                       (cache_offset self + len c1)) as [Hlt|Hge].
  - rewrite (len_nil_inv c2) by lia. reflexivity.
  - rewrite Hc.
    replace (Z.max 0 (cache_offset self + len c1 - cache_offset self))
      with (len c1) by lia.
    replace (cache_offset self + len c1 + len c2 - 1 - cache_offset self + 1)%Z
      with (len c1 + len c2)%Z by lia.
    rewrite py_slice_app3. reflexivity.
Qed.

Lemma prune_split self c1 c2 :
  cache self = c1 ++ c2 →
  _prune_cache self (cache_offset self + len c1)
  = set_cache self c2 (cache_offset self + len c1).
Proof.
  intros Hc. unfold _prune_cache. pose proof (len_nonneg c1).
  destruct (Z.ltb_spec (cache_offset self) (cache_offset self + len c1)).
  - replace (cache_offset self + len c1 - cache_offset self)%Z
      with (len c1) by lia.
    rewrite Hc, py_slice_from_app. reflexivity.
  - assert (c1 = []) by (apply len_nil_inv; lia). subst c1.
    destruct self; simpl in *. subst. unfold set_cache. simpl.
    f_equal. unfold len. simpl. lia.
Qed.

Lemma get_item_in self k :
  (cache_offset self ≤ k < cache_offset self + len (cache self))%Z →
  ∃ it, _get_cached_item self k = Ok it.
Proof.
  intros H. unfold _get_cached_item. apply py_index_in. lia.
Qed.

Lemma get_point_in self k :
  (cache_offset self ≤ k < cache_offset self + len (cache self))%Z →
  ∃ p, _get_point self k = Ok p.
Proof.
  intros H. unfold _get_point.
  destruct (py_index_in (cache self) (k - cache_offset self)) as [it Hit];
    [lia|].
  rewrite Hit. simpl. eauto.
Qed.

(** The backward walk of the stay-point search ends, and where. *)
Lemma search_ok fuel self p cc i :
  (cache_offset self - 1 ≤ i < cache_offset self + len (cache self))%Z →
  (i - cache_offset self + 1 ≤ Z.of_nat fuel)%Z →
  ∃ j, search fuel self p cc i = Ok j
       ∧ (cache_offset self - 1 ≤ j ≤ i + 1)%Z.
Proof.
  revert i. induction fuel as [|fuel IH]; intros i Hi Hf; simpl.
  - destruct (Z.ltb_spec i (cache_offset self)); [|lia].
    exists i. split; [reflexivity|lia].
  - destruct (Z.ltb_spec i (cache_offset self)).
    { exists i. split; [reflexivity|lia]. }
    destruct (get_item_in self i) as [[[p_i gx_i] gy_i] Hit]; [lia|].
    rewrite Hit. simpl.
    assert (Hrec : ∃ j, search fuel self p cc (i - 1) = Ok j
                        ∧ (cache_offset self - 1 ≤ j ≤ i + 1)%Z).
    { destruct (IH (i - 1)%Z) as (j & Hj & ?); [lia|lia|].
      exists j. split; [assumption|lia]. }
    destruct (confirmed self (gx_i, gy_i) cc); [exact Hrec|].
    destruct (pruned self (gx_i, gy_i) cc).
    { exists (i + 1)%Z. split; [reflexivity|lia]. }
    destruct (Rleb _ _); [exact Hrec|].
    exists (i + 1)%Z. split; [reflexivity|lia].
Qed.

(** The state of the segmenter after the fixes [pre], of which [em] were
    already handed out in segments. *)
Record sinv (pre em : list Point) (self : t) : Prop := {
  si_cov : em ++ (pt <$> cache self) = pre;
  si_off : cache_offset self = len em;
  si_sp : current_sp_start self = None
          ∨ (current_sp_start self = Some (cache_offset self)
             ∧ ∃ e, current_sp_end self = Some e
                    ∧ (cache_offset self ≤ e
                       < cache_offset self + len (cache self))%Z);
  si_org : cache self ≠ [] →
           is_Some (origin_lat self) ∧ is_Some (origin_lon self);
  si_g : g self ≠ 0%R
}.

Lemma create_stop_ok (pts : list Point) :
  pts ≠ [] → ∃ c, _create_stop pts = Ok (Stop pts (Some c)).
Proof.
  destruct pts as [|p0 pts]; [congruence|]. intros _.
  unfold _create_stop. eauto.
Qed.

Lemma move_of_emitted (l : list Point) : emitted (move_of l) = l.
Proof.
  destruct l; [reflexivity|]. unfold emitted. simpl.
  rewrite app_nil_r. reflexivity.
Qed.

Lemma move_of_ok (l : list Point) : Forall seg_ok (move_of l).
Proof.
  destruct l; constructor; [|constructor]. unfold seg_ok. simpl. discriminate.
Qed.

Lemma Reqb_false (x y : R) : x ≠ y → Reqb x y = false.
Proof. unfold Reqb. destruct (Req_dec_T x y); congruence. Qed.

Lemma detection_ok self p :
  g self ≠ 0%R →
  (cache self ≠ [] → is_Some (origin_lat self) ∧ is_Some (origin_lon self)) →
  ∃ self2 gx gy Is,
    stay_point_detection self p
    = Ok (self2, (cache_offset self2 + len (cache self2) - 1)%Z, Is)
    ∧ cache self2 = cache self ++ [(p, gx, gy)]
    ∧ cache_offset self2 = cache_offset self
    ∧ current_sp_start self2 = current_sp_start self
    ∧ current_sp_end self2 = current_sp_end self
    ∧ g self2 = g self
    ∧ is_Some (origin_lat self2) ∧ is_Some (origin_lon self2)
    ∧ (∀ i, Is = Some i →
            (cache_offset self2 ≤ i
             ≤ cache_offset self2 + len (cache self2) - 1)%Z).
Proof.
  intros Hg Horg. unfold stay_point_detection.
  set (self1 := match cache self with
                | [] => set_origin self (radians (lat p)) (radians (lon p))
                | _ :: _ => self
                end).
  assert (H1 : cache self1 = cache self ∧ cache_offset self1 = cache_offset self
               ∧ current_sp_start self1 = current_sp_start self
               ∧ current_sp_end self1 = current_sp_end self
               ∧ g self1 = g self
               ∧ is_Some (origin_lat self1) ∧ is_Some (origin_lon self1)).
  { unfold self1. destruct (cache self) eqn:E; simpl.
    - rewrite E. repeat split; eauto.
    - rewrite E. destruct Horg as [? ?]; [discriminate|]. repeat split; auto. }
  destruct H1 as (Hc1 & Ho1 & Hs1 & He1 & Hg1 & [ola Hola] & [olo Holo]).
  assert (Hgrid : ∃ gx gy, grid_cell self1 p = Ok (gx, gy)).
  { unfold grid_cell, floordiv. rewrite Hola, Holo, Hg1.
    rewrite (Reqb_false _ _ Hg). simpl. eauto. }
  destruct Hgrid as (gx & gy & Hgrid). rewrite Hgrid.
  cbn [mbind result_bind].
  set (self2 := set_cache self1 (cache self1 ++ [(p, gx, gy)])
                          (cache_offset self1)).
  assert (Hlen : len (cache self2) = (len (cache self) + 1)%Z).
  { unfold self2. simpl. rewrite len_app, Hc1. reflexivity. }
  pose proof (len_nonneg (cache self)) as Hnn.
  destruct (search_ok (length (cache self2)) self2 p (gx, gy)
              (cache_offset self2 + len (cache self2) - 1 - 1)%Z)
    as (j & Hj & Hjr).
  { lia. }
  { unfold len. lia. }
  rewrite Hj. cbn [mbind result_bind].
  set (i := if (j <? cache_offset self2)%Z then cache_offset self2 else j).
  assert (Hi : (cache_offset self2 ≤ i
                ≤ cache_offset self2 + len (cache self2) - 1)%Z).
  { unfold i. destruct (Z.ltb_spec j (cache_offset self2)); lia. }
  destruct (Z.leb_spec i (cache_offset self2 + len (cache self2) - 1));
    [|lia].
  destruct (get_point_in self2 i) as [pi Hpi]; [lia|].
  rewrite Hpi. cbn [mbind result_bind].
  assert (Hfacts : cache self2 = cache self ++ [(p, gx, gy)]
    ∧ cache_offset self2 = cache_offset self
    ∧ current_sp_start self2 = current_sp_start self
    ∧ current_sp_end self2 = current_sp_end self
    ∧ g self2 = g self
    ∧ is_Some (origin_lat self2) ∧ is_Some (origin_lon self2)).
  { unfold self2. simpl. rewrite Hc1. repeat split; eauto. }
  destruct (Rleb _ _).
  - exists self2, gx, gy, (Some i). split; [reflexivity|].
    do 7 (split; [apply Hfacts|]).
    intros i' Hi'. inversion Hi'. subst. lia.
  - exists self2, gx, gy, None. split; [reflexivity|].
    do 7 (split; [apply Hfacts|]).
    intros i' Hi'. discriminate.
Qed.

Lemma get_points_at self a b c1 c2 c3 :
  cache self = c1 ++ c2 ++ c3 →
  a = (cache_offset self + len c1)%Z →
  b = (cache_offset self + len c1 + len c2 - 1)%Z →
  _get_points self a b = pt <$> c2.
Proof. intros Hc -> ->. apply (get_points_split self c1 c2 c3 Hc). Qed.

Lemma prune_at self k c1 c2 :
  cache self = c1 ++ c2 →
  k = (cache_offset self + len c1)%Z →
  _prune_cache self k = set_cache self c2 k.
Proof. intros Hc ->. apply prune_split. assumption. Qed.

Lemma emitted_app (s1 s2 : list Segment) :
  emitted (s1 ++ s2) = emitted s1 ++ emitted s2.
Proof. unfold emitted. rewrite fmap_app, concat_app. reflexivity. Qed.

Lemma fmap_nonnil {A B : Type} (f : A → B) (l : list A) :
  (0 < len l)%Z → f <$> l ≠ [].
Proof. destruct l; [unfold len; simpl; lia|discriminate]. Qed.

Lemma handling_ok pre em self p Is :
  sinv pre em self →
  cache self ≠ [] →
  is_Some (origin_lat self) → is_Some (origin_lon self) →
  (∀ i, Is = Some i →
        (cache_offset self ≤ i ≤ cache_offset self + len (cache self) - 1)%Z) →
  ∃ self' segs,
    segmentation_handling self p
      (cache_offset self + len (cache self) - 1) Is = Ok (self', segs)
    ∧ sinv pre (em ++ emitted segs) self'
    ∧ Forall seg_ok segs.
Proof.
  intros [Hcov Hoff Hsp Horg Hg] Hne Hola Holo HIs.
  assert (Hlen : (0 < len (cache self))%Z).
  { destruct (cache self); [congruence|]. unfold len. simpl. lia. }
  set (c := (cache_offset self + len (cache self) - 1)%Z) in *.
  unfold segmentation_handling.
  destruct Is as [i|].
  - specialize (HIs i eq_refl).
    destruct Hsp as [Hs|(Hs & e & He & Her)].
    + (* case 1.3 *)
      rewrite Hs.
      destruct (split_at (cache self) (i - cache_offset self))
        as (c2 & c3 & Hc & Hl2); [lia|].
      rewrite (get_points_at self (cache_offset self) (i - 1) [] c2 c3 Hc)
        by (unfold len at 1; simpl; lia).
      rewrite (prune_at (set_sp self (Some i) (Some c)) i c2 c3)
        by (simpl; first [exact Hc | lia]).
      eexists _, _. split; [reflexivity|].
      split; [|apply move_of_ok].
      rewrite move_of_emitted. split; simpl.
      * rewrite <- Hcov, Hc, fmap_app, app_assoc. reflexivity.
      * rewrite len_app. unfold pt, len. rewrite length_fmap.
        unfold len in *. lia.
      * right. split; [reflexivity|]. exists c. split; [reflexivity|].
        assert (len (cache self) = (len c2 + len c3)%Z)
          by (rewrite Hc, len_app; reflexivity).
        unfold c. lia.
      * intros _. split; assumption.
      * assumption.
    + rewrite Hs, He.
      destruct (Z.leb_spec i e) as [Hie|Hie].
      * (* case 1.2 *)
        eexists _, _. split; [reflexivity|].
        split; [|constructor].
        unfold emitted. simpl. rewrite app_nil_r. split; simpl; try assumption.
        right. split; [reflexivity|]. exists c. split; [reflexivity|].
        unfold c. lia.
      * (* case 1.1 *)
        destruct (split_at (cache self) (e - cache_offset self + 1))
          as (c1 & r & Hc & Hl1); [lia|].
        destruct (split_at r (i - e - 1)) as (c2 & c3 & Hr & Hl2).
        { assert (len (cache self) = (len c1 + len r)%Z)
            by (rewrite Hc, len_app; reflexivity). lia. }
        subst r.
        rewrite (get_points_at self (cache_offset self) e [] c1 (c2 ++ c3) Hc)
          by (unfold len at 1; simpl; lia).
        destruct (create_stop_ok (pt <$> c1)) as [ctr Hstop];
          [apply fmap_nonnil; lia|].
        rewrite Hstop. cbn [mbind result_bind].
        rewrite (get_points_at self (e + 1) (i - 1) c1 c2 c3 Hc) by lia.
        rewrite (prune_at (set_sp self (Some i) (Some c)) i (c1 ++ c2) c3)
          by (simpl; first [rewrite <- app_assoc; exact Hc | rewrite len_app; lia]).
        eexists _, _. split; [reflexivity|].
        split; [|constructor; [|apply move_of_ok]].
        2:{ unfold seg_ok. simpl. apply fmap_nonnil. lia. }
        rewrite emitted_app, move_of_emitted. unfold emitted at 1. simpl.
        rewrite app_nil_r. split; simpl.
        -- rewrite <- Hcov, Hc, !fmap_app, !app_assoc. reflexivity.
        -- rewrite !len_app. unfold pt, len. rewrite !length_fmap.
           unfold len in *. lia.
        -- right. split; [reflexivity|]. exists c. split; [reflexivity|].
           assert (len (cache self) = (len c1 + (len c2 + len c3))%Z)
             by (rewrite Hc, !len_app; reflexivity).
           unfold c. lia.
        -- intros _. split; assumption.
        -- assumption.
  - destruct Hsp as [Hs|(Hs & e & He & Her)].
    + (* cases 2.2 and 2.3 *)
      rewrite Hs. eexists _, _. split; [reflexivity|].
      split; [|constructor].
      unfold emitted. simpl. rewrite app_nil_r.
      split; auto.
    + rewrite Hs, He.
      destruct (get_point_in self e) as [pe Hpe]; [lia|].
      rewrite Hpe. cbn [mbind result_bind].
      destruct (Rltb _ _).
      * (* case 2.1 *)
        destruct (split_at (cache self) (e - cache_offset self + 1))
          as (c1 & c3 & Hc & Hl1); [lia|].
        rewrite (get_points_at self (cache_offset self) e [] c1 c3 Hc)
          by (unfold len at 1; simpl; lia).
        destruct (create_stop_ok (pt <$> c1)) as [ctr Hstop];
          [apply fmap_nonnil; lia|].
        rewrite Hstop. cbn [mbind result_bind].
        rewrite (prune_at self (e + 1) c1 c3 Hc) by lia.
        eexists _, _. split; [reflexivity|].
        split; [|constructor; [|constructor]].
        2:{ unfold seg_ok. simpl. apply fmap_nonnil. lia. }
        unfold emitted. simpl. rewrite app_nil_r. split; simpl.
        -- rewrite <- Hcov, Hc, !fmap_app, !app_assoc. reflexivity.
        -- rewrite !len_app. unfold pt, len. rewrite !length_fmap.
           unfold len in *. lia.
        -- left. reflexivity.
        -- intros _. split; assumption.
        -- assumption.
      * eexists _, _. split; [reflexivity|].
        split; [|constructor].
        unfold emitted. simpl. rewrite app_nil_r.
        split; auto. right. eauto.
Qed.

Lemma process_point_ok pre em self p :
  sinv pre em self →
  ∃ self' segs,
    process_point self p = Ok (self', segs)
    ∧ sinv (pre ++ [p]) (em ++ emitted segs) self'
    ∧ Forall seg_ok segs.
Proof.
  intros [Hcov Hoff Hsp Horg Hg].
  destruct (detection_ok self p Hg Horg)
    as (self2 & gx & gy & Is & Hd & Hc & Ho & Hs & He & Hg2 & Hla & Hlo & HIs).
  unfold process_point. rewrite Hd. cbn [mbind result_bind].
  apply handling_ok; try assumption.
  - split.
    + rewrite Hc, fmap_app, app_assoc, Hcov. reflexivity.
    + congruence.
    + rewrite Hs, He, Ho, Hc, len_app.
      destruct Hsp as [?|(? & e & ? & ?)]; [left; assumption|].
      right. split; [assumption|]. exists e. split; [assumption|].
      unfold len in *. simpl. lia.
    + intros _. split; assumption.
    + congruence.
  - rewrite Hc. destruct (cache self); discriminate.
Qed.

Lemma process_points_ok traj : ∀ pre em self,
  sinv pre em self →
  ∃ self' segs,
    process_points self traj = Ok (self', segs)
    ∧ sinv (pre ++ traj) (em ++ emitted segs) self'
    ∧ Forall seg_ok segs.
Proof.
  induction traj as [|p traj IH]; intros pre em self Hinv; simpl.
  - exists self, []. split; [reflexivity|].
    unfold emitted. simpl. rewrite !app_nil_r. split; [assumption|constructor].
  - destruct (process_point_ok pre em self p Hinv)
      as (self1 & s1 & H1 & Hinv1 & Hok1).
    rewrite H1. cbn [mbind result_bind].
    destruct (IH _ _ _ Hinv1) as (self2 & s2 & H2 & Hinv2 & Hok2).
    rewrite H2. cbn [mbind result_bind].
    exists self2, (s1 ++ s2). split; [reflexivity|].
    rewrite emitted_app, app_assoc.
    replace (pre ++ p :: traj) with ((pre ++ [p]) ++ traj)
      by (rewrite <- app_assoc; reflexivity).
    split; [assumption|]. apply Forall_app. split; assumption.
Qed.

Lemma flush_ok pre em self :
  sinv pre em self →
  ∃ self' segs,
    flush self = Ok (self', segs)
    ∧ em ++ emitted segs = pre
    ∧ Forall seg_ok segs.
Proof.
  intros [Hcov Hoff Hsp Horg Hg]. unfold flush.
  destruct Hsp as [Hs|(Hs & e & He & Her)].
  - rewrite Hs. cbn [mbind result_bind].
    rewrite (get_points_at self (cache_offset self)
               (cache_offset self + len (cache self) - 1) [] (cache self) []);
      [|rewrite app_nil_r; reflexivity|unfold len; simpl; lia
       |unfold len; simpl; lia].
    eexists _, _. split; [reflexivity|].
    rewrite move_of_emitted. split; [assumption|apply move_of_ok].
  - rewrite Hs, He.
    destruct (split_at (cache self) (e - cache_offset self + 1))
      as (c1 & c3 & Hc & Hl1); [lia|].
    assert (Hl : len (cache self) = (len c1 + len c3)%Z)
      by (rewrite Hc, len_app; reflexivity).
    rewrite (get_points_at self (cache_offset self) e [] c1 c3 Hc)
      by (unfold len at 1; simpl; lia).
    destruct (create_stop_ok (pt <$> c1)) as [ctr Hstop];
      [apply fmap_nonnil; lia|].
    rewrite Hstop. cbn [mbind result_bind].
    rewrite (get_points_at self (e + 1)
               (cache_offset self + len (cache self) - 1) c1 c3 []);
      [|rewrite app_nil_r; exact Hc|lia|lia].
    eexists _, _. split; [reflexivity|].
    split; [|constructor; [|apply move_of_ok]].
    + rewrite emitted_app, move_of_emitted. unfold emitted. simpl.
      rewrite app_nil_r, <- Hcov, Hc, fmap_app. reflexivity.
    + unfold seg_ok. simpl. apply fmap_nonnil. lia.
Qed.

Lemma init_sinv max_eps T grid self :
  __init__ max_eps T grid = Ok self → sinv [] [] self.
Proof.
  unfold __init__. intros H.
  match type of H with
  | (if Reqb ?g0 0 then _ else _) = _ =>
      destruct (Reqb g0 0) eqn:E; [discriminate|];
      assert (g0 ≠ 0%R) by (intros E0; rewrite E0 in E;
        assert (Reqb 0 0 = true) by (apply Reqb_true; reflexivity);
        congruence)
  end.
  inversion H. subst self. split; simpl; auto. congruence.
Qed.

(** What [process] returns: segments that are non-empty and that, laid
    end to end, are the input. *)
Lemma process_ok max_eps T grid self traj :
  __init__ max_eps T grid = Ok self →
  ∃ segs, process self traj = Ok segs
          ∧ emitted segs = traj
          ∧ Forall seg_ok segs.
Proof.
  intros Hinit. apply init_sinv in Hinit.
  destruct (process_points_ok traj [] [] self Hinit)
    as (self1 & s1 & H1 & Hinv1 & Hok1).
  destruct (flush_ok _ _ _ Hinv1) as (self2 & s2 & H2 & Hcov & Hok2).
  unfold process. rewrite H1. cbn [mbind result_bind].
  rewrite H2. cbn [mbind result_bind].
  exists (s1 ++ s2). split; [reflexivity|].
  rewrite emitted_app. simpl in Hcov.
  split; [exact Hcov|]. apply Forall_app. split; assumption.
Qed.

End step.

(** ** STEP: coverage and time order of the emitted segments *)

Lemma non_decreasing_app_l (l1 l2 : list Point) :
  non_decreasing (l1 ++ l2) → non_decreasing l1.
Proof.
  intros H i a b Ha Hb. apply (H i).
  - apply lookup_app_l_Some. assumption.
  - apply lookup_app_l_Some. assumption.
Qed.

Lemma non_decreasing_app_r (l1 l2 : list Point) :
  non_decreasing (l1 ++ l2) → non_decreasing l2.
Proof.
  intros H i a b Ha Hb. apply (H (length l1 + i)).
  - rewrite lookup_app_r by lia.
    replace (length l1 + i - length l1) with i by lia. assumption.
  - rewrite lookup_app_r by lia.
    replace (S (length l1 + i) - length l1) with (S i) by lia. assumption.
Qed.

Lemma non_decreasing_app_mid (l1 l2 : list Point) (a b : Point) :
  non_decreasing (l1 ++ l2) → last l1 = Some a → head l2 = Some b →
  (timestamp a <= timestamp b)%R.
Proof.
  intros H Ha Hb. apply last_Some in Ha as [l1' ->].
  destruct l2 as [|b' l2]; [discriminate|]. inversion Hb. subst b'.
  apply (H (length l1')).
  - rewrite <- app_assoc. rewrite lookup_app_r, Nat.sub_diag by lia.
    reflexivity.
  - rewrite <- app_assoc. rewrite lookup_app_r by lia.
    replace (S (length l1') - length l1') with 1 by lia. reflexivity.
Qed.

Lemma lookup_consecutive {A : Type} (l : list A) (k : nat) (x y : A) :
  l !! k = Some x → l !! S k = Some y → ∃ l1 l2, l = l1 ++ x :: y :: l2.
Proof.
  revert k. induction l as [|z l IH]; intros k Hx Hy; [discriminate|].
  destruct k as [|k].
  - inversion Hx. subst z. destruct l as [|y' l]; [discriminate|].
    inversion Hy. subst y'. exists [], l. reflexivity.
  - destruct (IH k Hx Hy) as (l1 & l2 & ->).
    exists (z :: l1), l2. reflexivity.
Qed.

Lemma emitted_cons (s : Segment) (segs : list Segment) :
  emitted (s :: segs) = seg_points s ++ emitted segs.
Proof. reflexivity. Qed.

(** Segments cut out of a time-ordered stream are time-ordered, inside
    and from one to the next. *)
Lemma emitted_time_order (segs : list Segment) :
  non_decreasing (emitted segs) →
  (∀ s, s ∈ segs → non_decreasing (seg_points s))
  ∧ (∀ k s1 s2 a b,
       segs !! k = Some s1 → segs !! S k = Some s2 →
       last (seg_points s1) = Some a → head (seg_points s2) = Some b →
       (timestamp a <= timestamp b)%R).
Proof.
  intros H. split.
  - intros s Hs. apply list_elem_of_split in Hs as (l1 & l2 & ->).
    rewrite emitted_app, emitted_cons in H.
    apply non_decreasing_app_r, non_decreasing_app_l in H. exact H.
  - intros k s1 s2 a b H1 H2 Ha Hb.
    destruct (lookup_consecutive _ _ _ _ H1 H2) as (l1 & l2 & ->).
    rewrite emitted_app, !emitted_cons in H.
    apply non_decreasing_app_r in H. rewrite app_assoc in H.
    apply non_decreasing_app_l in H.
    eapply non_decreasing_app_mid; eassumption.
Qed.

Lemma step_init_default (D T : R) :
  (0 < D)%R →
  STEPSegmenter.__init__ D T None
  = Ok (STEPSegmenter.mk D T (sqrt 2 / 4 * D) ((D / (sqrt 2 / 4 * D)) ^ 2)
          None None [] 0 None None).
Proof.
  intros HD. unfold STEPSegmenter.__init__.
  rewrite Reqb_false; [reflexivity|].
  assert (0 < sqrt 2)%R by (apply sqrt_lt_R0; lra). nra.
Qed.

(** C2. For an input with non-decreasing timestamps, the point sequences
    of the segments returned by [STEPSegmenter.process], laid end to end,
    are a subsequence of the input in input order, and no input fix is
    missing from them: they are the input itself. *)
Theorem step_process_coverage
    (D T : R) (grid : option R) (self : STEPSegmenter.t)
    (trajectory : list Point) :
  STEPSegmenter.__init__ D T grid = Ok self →
  non_decreasing trajectory →
  ∃ segs, STEPSegmenter.process self trajectory = Ok segs
          ∧ emitted segs `sublist_of` trajectory
          ∧ emitted segs = trajectory.
Proof.
  intros Hinit _.
  destruct (process_ok D T grid self trajectory Hinit) as (segs & Hp & He & _).
  exists segs. rewrite He. repeat split; [assumption|reflexivity].
Qed.

(** C3. For an input with non-decreasing timestamps, the members of
    every segment emitted by [STEPSegmenter] are in non-decreasing time
    order, and the last member of a segment is not later than the first
    member of the segment emitted next; no emitted segment is empty. *)
Theorem step_time_monotonic
    (D T : R) (grid : option R) (self : STEPSegmenter.t)
    (trajectory : list Point) :
  STEPSegmenter.__init__ D T grid = Ok self →
  non_decreasing trajectory →
  ∃ segs, STEPSegmenter.process self trajectory = Ok segs
          ∧ (∀ s, s ∈ segs →
                  seg_points s ≠ [] ∧ non_decreasing (seg_points s))
          ∧ (∀ k s1 s2 a b,
               segs !! k = Some s1 → segs !! S k = Some s2 →
               last (seg_points s1) = Some a →
               head (seg_points s2) = Some b →
               (timestamp a <= timestamp b)%R).
Proof.
  intros Hinit Hnd.
  destruct (process_ok D T grid self trajectory Hinit)
    as (segs & Hp & He & Hok).
  rewrite <- He in Hnd.
  destruct (emitted_time_order segs Hnd) as [Hin Hnext].
  exists segs. split; [assumption|]. split; [|assumption].
  intros s Hs. split; [|apply Hin; assumption].
  rewrite Forall_forall in Hok. apply Hok. assumption.
Qed.

Lemma non_decreasing_two (a b : Point) :
  (timestamp a <= timestamp b)%R → non_decreasing [a; b].
Proof.
  intros H i x y Hx Hy. destruct i as [|[|i]]; simpl in *; try discriminate.
  inversion Hx. inversion Hy. subst. assumption.
Qed.

Lemma step_process_coverage_witness :
  ∃ segs,
    STEPSegmenter.process
      (STEPSegmenter.mk 50 60 (sqrt 2 / 4 * 50) ((50 / (sqrt 2 / 4 * 50)) ^ 2)
         None None [] 0 None None)
      [mkPoint 0 0 0 "a" None; mkPoint 0 0 10 "a" None] = Ok segs
    ∧ emitted segs
      `sublist_of` [mkPoint 0 0 0 "a" None; mkPoint 0 0 10 "a" None]
    ∧ emitted segs = [mkPoint 0 0 0 "a" None; mkPoint 0 0 10 "a" None].
Proof.
  apply (step_process_coverage 50 60 None).
  - apply step_init_default. lra.
  - apply non_decreasing_two. simpl. lra.
Defined.

Lemma step_time_monotonic_witness :
  ∃ segs,
    STEPSegmenter.process
      (STEPSegmenter.mk 50 60 (sqrt 2 / 4 * 50) ((50 / (sqrt 2 / 4 * 50)) ^ 2)
         None None [] 0 None None)
      [mkPoint 0 0 0 "a" None; mkPoint 0 0 10 "a" None] = Ok segs
    ∧ (∀ s, s ∈ segs →
            seg_points s ≠ [] ∧ non_decreasing (seg_points s))
    ∧ (∀ k s1 s2 a b,
         segs !! k = Some s1 → segs !! S k = Some s2 →
         last (seg_points s1) = Some a →
         head (seg_points s2) = Some b →
         (timestamp a <= timestamp b)%R).
Proof.
  apply (step_time_monotonic 50 60 None).
  - apply step_init_default. lra.
  - apply non_decreasing_two. simpl. lra.
Defined.

(** ** STEP: the grid tests against the two distances *)

Lemma Rleb_true (x y : R) : Rleb x y = true ↔ (x <= y)%R.
Proof. unfold Rleb. destruct (Rle_dec x y); split; (congruence || tauto). Qed.

Lemma Rltb_true (x y : R) : Rltb x y = true ↔ (x < y)%R.
Proof. unfold Rltb. destruct (Rlt_dec x y); split; (congruence || tauto). Qed.

Lemma sqrt2_sq : (sqrt 2 * sqrt 2 = 2)%R.
Proof. apply sqrt_sqrt. lra. Qed.

Lemma sqrt2_pos : (0 < sqrt 2)%R.
Proof. apply sqrt_lt_R0. lra. Qed.

Lemma default_threshold (D : R) :
  (0 < D)%R → ((D / (sqrt 2 / 4 * D)) ^ 2 = 8)%R.
Proof.
  intros HD. pose proof sqrt2_sq. pose proof sqrt2_pos.
  replace (D / (sqrt 2 / 4 * D))%R with (4 / sqrt 2)%R by (field; lra).
  replace ((4 / sqrt 2) ^ 2)%R with (16 / (sqrt 2 * sqrt 2))%R by (field; lra).
  rewrite sqrt2_sq. lra.
Qed.

Lemma radians_90 : radians 90 = (PI / 2)%R.
Proof. unfold radians. field. Qed.

Lemma PI_gt_3 : (3 < PI)%R.
Proof. pose proof PI2_3_2. lra. Qed.

(** C4, as stated, fails: in the frame anchored at a fix on latitude 90
    every fix has the same [gx], so the two equatorial fixes at
    longitudes 0 and 1 share a grid cell and pass the "confirmed" test,
    while [local_distance] puts them more than 100 km apart. *)
Lemma grid_soundness_counterexample :
  ∃ ci cc,
    STEPSegmenter.grid_cell polar_segmenter (mkPoint 0 0 10 "a" None) = Ok ci
    ∧ STEPSegmenter.grid_cell polar_segmenter (mkPoint 0 1 20 "a" None)
      = Ok cc
    ∧ STEPSegmenter.confirmed polar_segmenter ci cc = true
    ∧ (STEPSegmenter.max_eps polar_segmenter
       < local_distance (mkPoint 0 1 20 "a" None) (mkPoint 0 0 10 "a" None))%R.
Proof.
  pose proof sqrt2_pos as Hs. pose proof PI_gt_3 as Hpi.
  assert (Hg : Reqb (sqrt 2 / 4 * 50) 0 = false).
  { apply Reqb_false. lra. }
  assert (Hdx : ∀ p, STEPSegmenter.dx_meters (radians 90) (radians 0) p = 0%R).
  { intros p. unfold STEPSegmenter.dx_meters.
    rewrite radians_90, cos_PI2. lra. }
  unfold STEPSegmenter.grid_cell, polar_segmenter, floordiv. simpl.
  rewrite !Hdx, Hg. simpl.
  eexists _, _. split; [reflexivity|]. split; [reflexivity|]. split.
  - unfold STEPSegmenter.confirmed. simpl.
    rewrite !Z.sub_diag. simpl. apply Rleb_true.
    replace (50 / (sqrt 2 / 4 * 50) * (50 / (sqrt 2 / 4 * 50) * 1))%R
      with ((50 / (sqrt 2 / 4 * 50)) ^ 2)%R by (simpl; reflexivity).
    rewrite default_threshold by lra.
    change ((Z.abs 0 + 1) ^ 2 + (Z.abs 0 + 1) ^ 2)%Z with 2%Z. lra.
  - unfold local_distance, radians. simpl.
    replace ((0 + 0) / 2 * PI / 180)%R with 0%R by lra.
    rewrite cos_0.
    replace ((0 - 1) * PI / 180 * 1 * ((0 - 1) * PI / 180 * 1)
             + (0 - 0) * PI / 180 * ((0 - 0) * PI / 180))%R
      with ((PI / 180) * (PI / 180))%R by lra.
    rewrite sqrt_square by lra. lra.
Qed.

Lemma floor_cell (x g : R) :
  (0 < g)%R →
  (IZR (Int_part (x / g)) * g <= x < (IZR (Int_part (x / g)) + 1) * g)%R.
Proof.
  intros Hg. destruct (base_Int_part (x / g)) as [H1 H2].
  assert (Hx : (x = x / g * g)%R) by (field; lra).
  split.
  - rewrite Hx at 2. apply Rmult_le_compat_r; lra.
  - rewrite Hx at 1. apply Rmult_lt_compat_r; lra.
Qed.

(** Two coordinates whose cells are [d] apart differ by more than
    [(d - 1) g] and by less than [(d + 1) g]. *)
Lemma cell_offset_bounds (x y g : R) :
  (0 < g)%R →
  let d := IZR (Z.abs (Int_part (x / g) - Int_part (y / g))) in
  ((d - 1) * g < Rabs (x - y) < (d + 1) * g)%R.
Proof.
  intros Hg d. unfold d. rewrite abs_IZR, minus_IZR.
  pose proof (floor_cell x g Hg). pose proof (floor_cell y g Hg).
  set (a := IZR (Int_part (x / g))) in *.
  set (b := IZR (Int_part (y / g))) in *.
  unfold Rabs. destruct (Rcase_abs (a - b)); destruct (Rcase_abs (x - y));
    split; nra.
Qed.

Lemma IZR_confirmed (dx dy : Z) :
  IZR ((dx + 1) ^ 2 + (dy + 1) ^ 2)
  = ((IZR dx + 1) ^ 2 + (IZR dy + 1) ^ 2)%R.
Proof.
  rewrite plus_IZR, !Z.pow_2_r, !mult_IZR, !plus_IZR. simpl. ring.
Qed.

Lemma IZR_pruned (dx dy : Z) :
  IZR (Z.max 0 (dx - 1) ^ 2 + Z.max 0 (dy - 1) ^ 2)
  = (Rmax 0 (IZR dx - 1) ^ 2 + Rmax 0 (IZR dy - 1) ^ 2)%R.
Proof.
  assert (H : ∀ z, IZR (Z.max 0 (z - 1)) = Rmax 0 (IZR z - 1)).
  { intros z. destruct (Z.max_spec 0 (z - 1)) as [[Hlt ->]|[Hle ->]].
    - rewrite minus_IZR. rewrite Rmax_right; [reflexivity|].
      apply IZR_lt in Hlt. rewrite minus_IZR in Hlt. simpl in Hlt. lra.
    - rewrite Rmax_left; [reflexivity|].
      apply IZR_le in Hle. rewrite minus_IZR in Hle. simpl in Hle. lra. }
  rewrite plus_IZR, !Z.pow_2_r, !mult_IZR, !H. simpl. ring.
Qed.

Lemma grid_cell_inv self o_lat o_lon p c :
  STEPSegmenter.origin_lat self = Some o_lat →
  STEPSegmenter.origin_lon self = Some o_lon →
  (0 < STEPSegmenter.g self)%R →
  STEPSegmenter.grid_cell self p = Ok c →
  c = (Int_part (STEPSegmenter.dx_meters o_lat o_lon p / STEPSegmenter.g self),
       Int_part (STEPSegmenter.dy_meters o_lat p / STEPSegmenter.g self)).
Proof.
  intros Hla Hlo Hg. unfold STEPSegmenter.grid_cell, floordiv.
  rewrite Hla, Hlo, Reqb_false by lra. simpl. congruence.
Qed.

(** C4 (amended). With a positive radius, the grid classification is
    sound for the distance measured in the segmenter's own projected
    frame: a "confirmed" pair is within [max_eps] there, a "pruned" pair
    is farther apart than [max_eps] there. *)
Theorem grid_classification_sound
    (self : STEPSegmenter.t) (o_lat o_lon : R) (p_i p_c : Point)
    (ci cc : Z * Z) :
  (0 < STEPSegmenter.g self)%R →
  (0 <= STEPSegmenter.max_eps self)%R →
  STEPSegmenter.threshold_sq self
  = ((STEPSegmenter.max_eps self / STEPSegmenter.g self) ^ 2)%R →
  STEPSegmenter.origin_lat self = Some o_lat →
  STEPSegmenter.origin_lon self = Some o_lon →
  STEPSegmenter.grid_cell self p_i = Ok ci →
  STEPSegmenter.grid_cell self p_c = Ok cc →
  (STEPSegmenter.confirmed self ci cc = true →
   (projected_distance o_lat o_lon p_c p_i <= STEPSegmenter.max_eps self)%R)
  ∧ (STEPSegmenter.pruned self ci cc = true →
     (STEPSegmenter.max_eps self < projected_distance o_lat o_lon p_c p_i)%R).
Proof.
  intros Hg HD Hth Hla Hlo Hi Hc.
  apply (grid_cell_inv _ _ _ _ _ Hla Hlo Hg) in Hi.
  apply (grid_cell_inv _ _ _ _ _ Hla Hlo Hg) in Hc. subst ci cc.
  set (g := STEPSegmenter.g self) in *.
  set (D := STEPSegmenter.max_eps self) in *.
  set (xi := STEPSegmenter.dx_meters o_lat o_lon p_i).
  set (xc := STEPSegmenter.dx_meters o_lat o_lon p_c).
  set (yi := STEPSegmenter.dy_meters o_lat p_i).
  set (yc := STEPSegmenter.dy_meters o_lat p_c).
  pose proof (cell_offset_bounds xi xc g Hg) as Hx.
  pose proof (cell_offset_bounds yi yc g Hg) as Hy.
  simpl in Hx, Hy.
  set (dx := Z.abs (Int_part (xi / g) - Int_part (xc / g))) in *.
  set (dy := Z.abs (Int_part (yi / g) - Int_part (yc / g))) in *.
  assert (Hdx : (0 <= IZR dx)%R) by (apply IZR_le; unfold dx; lia).
  assert (Hdy : (0 <= IZR dy)%R) by (apply IZR_le; unfold dy; lia).
  assert (HX : (Rabs (xi - xc) * Rabs (xi - xc) = (xc - xi) ^ 2)%R).
  { unfold Rabs. destruct (Rcase_abs (xi - xc)); ring. }
  assert (HY : (Rabs (yi - yc) * Rabs (yi - yc) = (yc - yi) ^ 2)%R).
  { unfold Rabs. destruct (Rcase_abs (yi - yc)); ring. }
  pose proof (Rabs_pos (xi - xc)) as HXp.
  pose proof (Rabs_pos (yi - yc)) as HYp.
  assert (HthD : (g * g * ((D / g) ^ 2) = D * D)%R) by (field; lra).
  assert (HsD : sqrt (D * D) = D) by (apply sqrt_square; assumption).
  unfold projected_distance. fold xi xc yi yc.
  rewrite <- HX, <- HY.
  set (X := Rabs (xi - xc)) in *. set (Y := Rabs (yi - yc)) in *.
  split.
  - unfold STEPSegmenter.confirmed. simpl. fold dx dy.
    rewrite Rleb_true, IZR_confirmed, Hth. fold g D. intros Hconf.
    rewrite <- HsD. apply sqrt_le_1; [nra|nra|].
    assert ((X * X + Y * Y
             <= g * g * ((IZR dx + 1) ^ 2 + (IZR dy + 1) ^ 2))%R) by nra.
    assert ((g * g * ((IZR dx + 1) ^ 2 + (IZR dy + 1) ^ 2)
             <= g * g * (D / g) ^ 2)%R).
    { apply Rmult_le_compat_l; [nra|assumption]. }
    lra.
  - unfold STEPSegmenter.pruned. simpl. fold dx dy.
    rewrite Rltb_true, IZR_pruned, Hth. fold g D. intros Hpr.
    rewrite <- HsD. apply sqrt_lt_1; [nra|nra|].
    assert (Hmx : (Rmax 0 (IZR dx - 1) * g <= X)%R).
    { unfold Rmax. destruct (Rle_dec 0 (IZR dx - 1)); nra. }
    assert (Hmy : (Rmax 0 (IZR dy - 1) * g <= Y)%R).
    { unfold Rmax. destruct (Rle_dec 0 (IZR dy - 1)); nra. }
    pose proof (Rmax_l 0 (IZR dx - 1)) as Hmx0.
    pose proof (Rmax_l 0 (IZR dy - 1)) as Hmy0.
    set (mx := Rmax 0 (IZR dx - 1)) in *.
    set (my := Rmax 0 (IZR dy - 1)) in *.
    assert ((g * g * (D / g) ^ 2 < g * g * (mx ^ 2 + my ^ 2))%R).
    { apply Rmult_lt_compat_l; [nra|assumption]. }
    assert ((g * g * (mx ^ 2 + my ^ 2) <= X * X + Y * Y)%R).
    { assert (0 <= mx * g)%R by (apply Rmult_le_pos; lra).
      assert (0 <= my * g)%R by (apply Rmult_le_pos; lra).
      assert ((mx * g) * (mx * g) <= X * X)%R
        by (apply Rmult_le_compat; lra).
      assert ((my * g) * (my * g) <= Y * Y)%R
        by (apply Rmult_le_compat; lra).
      replace (g * g * (mx ^ 2 + my ^ 2))%R
        with ((mx * g) * (mx * g) + (my * g) * (my * g))%R by ring.
      lra. }
    lra.
Qed.

Lemma equator_grid_cell (p : Point) :
  STEPSegmenter.grid_cell equator_segmenter p
  = Ok (Int_part (STEPSegmenter.dx_meters 0 0 p / 25),
        Int_part (STEPSegmenter.dy_meters 0 p / 25)).
Proof.
  unfold STEPSegmenter.grid_cell, floordiv. simpl.
  rewrite Reqb_false by lra. reflexivity.
Qed.

Lemma grid_classification_sound_witness :
  (STEPSegmenter.confirmed equator_segmenter
     (Int_part (STEPSegmenter.dx_meters 0 0 (mkPoint 0 0 0 "a" None) / 25),
      Int_part (STEPSegmenter.dy_meters 0 (mkPoint 0 0 0 "a" None) / 25))
     (Int_part (STEPSegmenter.dx_meters 0 0 (mkPoint 0 0 9 "a" None) / 25),
      Int_part (STEPSegmenter.dy_meters 0 (mkPoint 0 0 9 "a" None) / 25))
   = true →
   (projected_distance 0 0 (mkPoint 0 0 9 "a" None) (mkPoint 0 0 0 "a" None)
    <= 50)%R)
  ∧ (STEPSegmenter.pruned equator_segmenter
       (Int_part (STEPSegmenter.dx_meters 0 0 (mkPoint 0 0 0 "a" None) / 25),
        Int_part (STEPSegmenter.dy_meters 0 (mkPoint 0 0 0 "a" None) / 25))
       (Int_part (STEPSegmenter.dx_meters 0 0 (mkPoint 0 0 9 "a" None) / 25),
        Int_part (STEPSegmenter.dy_meters 0 (mkPoint 0 0 9 "a" None) / 25))
     = true →
     (50 < projected_distance 0 0 (mkPoint 0 0 9 "a" None)
             (mkPoint 0 0 0 "a" None))%R).
Proof.
  apply (grid_classification_sound equator_segmenter 0 0
           (mkPoint 0 0 0 "a" None) (mkPoint 0 0 9 "a" None)).
  - simpl. lra.
  - simpl. lra.
  - reflexivity.
  - reflexivity.
  - reflexivity.
  - apply equator_grid_cell.
  - apply equator_grid_cell.
Defined.

(** ** Configuration checks at construction *)

(** C7, as stated, fails: [STEPSegmenter] is constructed with a negative
    radius, and with a non-positive duration, without any error. *)
Lemma step_init_counterexample :
  (∃ st, STEPSegmenter.__init__ (-1) 60 None = Ok st)
  ∧ (∃ st, STEPSegmenter.__init__ 50 0 None = Ok st).
Proof.
  pose proof sqrt2_pos. split.
  - unfold STEPSegmenter.__init__.
    rewrite Reqb_false by lra. eauto.
  - rewrite step_init_default by lra. eauto.
Qed.

(** C7 (amended). [SquishCompressor] rejects a capacity below 3 with
    [ValueError].  [STEPSegmenter.__init__] checks neither [max_eps] nor
    [min_duration_seconds]: for every non-zero [max_eps] and every
    [min_duration_seconds], of either sign, it returns a segmenter that
    holds the two values as given. *)
Theorem init_validation (c : Z) (D T : R) (grid : option R) :
  (c < 3)%Z → D ≠ 0%R →
  SquishCompressor.__init__ c = Raise ValueError
  ∧ ∃ st, STEPSegmenter.__init__ D T grid = Ok st
          ∧ STEPSegmenter.max_eps st = D
          ∧ STEPSegmenter.min_duration_seconds st = T.
Proof.
  intros Hc HD. split.
  - unfold SquishCompressor.__init__.
    destruct (Z.ltb_spec c 3); [reflexivity|lia].
  - pose proof sqrt2_pos. unfold STEPSegmenter.__init__.
    assert (Hdef : (sqrt 2 / 4 * D)%R ≠ 0%R) by nra.
    destruct grid as [v|].
    + unfold Rltb. destruct (Rlt_dec 0 v).
      * rewrite Reqb_false by lra. eauto.
      * rewrite Reqb_false by assumption. eauto.
    + rewrite Reqb_false by assumption. eauto.
Qed.

Lemma init_validation_witness :
  SquishCompressor.__init__ 2 = Raise ValueError
  ∧ ∃ st, STEPSegmenter.__init__ (-1) 0 None = Ok st
          ∧ STEPSegmenter.max_eps st = (-1)%R
          ∧ STEPSegmenter.min_duration_seconds st = 0%R.
Proof.
  apply (init_validation 2 (-1) 0 None).
  - lia.
  - lra.
Defined.

(** ** SQUISH: the per-call capacity *)

(** C10, as stated, fails at the empty input: with capacity -1 it has
    one fix more than the capacity, and [compress] returns [[]]. *)
Lemma compress_override_counterexample :
  (-1 ≤ 1)%Z ∧ (-1 + 1 ≤ len (@nil Point))%Z
  ∧ SquishCompressor.compress (SquishCompressor.mk 50) [] (Some (-1)%Z)
    = Ok [].
Proof. repeat split; try reflexivity. unfold len. simpl. lia. Qed.

(** C10 (amended). [compress] never raises the [ValueError] of the
    constructor, whatever capacity is passed; with capacity 2 and more
    than two fixes of strictly increasing timestamps it returns the first
    and the last fix; with a capacity of at most 1 and a non-empty input
    of more fixes than the capacity it raises [IndexError]. *)
Theorem compress_capacity_override
    (self : SquishCompressor.t) (points : list Point) (c : Z) :
  SquishCompressor.compress self points (Some c) ≠ Raise ValueError
  ∧ ((2 < len points)%Z → strictly_increasing points →
     ∃ first final,
       head points = Some first ∧ last points = Some final
       ∧ SquishCompressor.compress self points (Some 2%Z)
         = Ok [first; final])
  ∧ ((c ≤ 1)%Z → points ≠ [] → (c + 1 ≤ len points)%Z →
     SquishCompressor.compress self points (Some c) = Raise IndexError).
Proof.
  split; [apply compress_never_ValueError|]. split.
  - intros Hlen _.
    destruct (compress_long self points (Some 2%Z))
      as (buf & Hc & Hsub & Hhd & Hla & Hsz); [simpl; lia|assumption|].
    assert (HN : 2 < length points) by (unfold len in Hlen; lia).
    assert (Hbuf : buf = [0; pred (length points)]).
    { destruct buf as [|b0 [|b1 [|b2 buf]]];
        unfold len in Hsz; simpl in Hsz; try lia.
      simpl in Hhd, Hla. congruence. }
    subst buf. simpl in Hc.
    destruct (lookup_lt_is_Some_2 points 0) as [x0 H0]; [lia|].
    destruct (lookup_lt_is_Some_2 points (pred (length points)))
      as [xl Hl]; [lia|].
    rewrite H0, Hl in Hc. simpl in Hc.
    exists x0, xl. rewrite head_lookup, last_lookup. auto.
  - intros Hc Hne Hlen.
    apply (compress_small self points (Some c)); [assumption..|lia].
Qed.

Lemma compress_capacity_override_witness :
  SquishCompressor.compress (SquishCompressor.mk 50)
    [mkPoint 0 0 0 "a" None; mkPoint 1 1 1 "a" None; mkPoint 2 0 2 "a" None]
    (Some 1%Z) ≠ Raise ValueError
  ∧ (∃ first final,
       head [mkPoint 0 0 0 "a" None; mkPoint 1 1 1 "a" None;
             mkPoint 2 0 2 "a" None] = Some first
       ∧ last [mkPoint 0 0 0 "a" None; mkPoint 1 1 1 "a" None;
               mkPoint 2 0 2 "a" None] = Some final
       ∧ SquishCompressor.compress (SquishCompressor.mk 50)
           [mkPoint 0 0 0 "a" None; mkPoint 1 1 1 "a" None;
            mkPoint 2 0 2 "a" None] (Some 2%Z)
         = Ok [first; final])
  ∧ SquishCompressor.compress (SquishCompressor.mk 50)
      [mkPoint 0 0 0 "a" None; mkPoint 1 1 1 "a" None; mkPoint 2 0 2 "a" None]
      (Some 1%Z) = Raise IndexError.
Proof.
  destruct (compress_capacity_override (SquishCompressor.mk 50)
              [mkPoint 0 0 0 "a" None; mkPoint 1 1 1 "a" None;
               mkPoint 2 0 2 "a" None] 1) as (H1 & H2 & H3).
  split; [exact H1|]. split.
  - apply H2.
    + unfold len. simpl. lia.
    + intros i a b Ha Hb.
      destruct i as [|[|[|i]]]; simpl in *; try discriminate;
        inversion Ha; inversion Hb; subst; simpl; lra.
  - apply H3.
    + lia.
    + discriminate.
    + unfold len. simpl. lia.
Defined.

(** ** STC: the road-transition anchors *)

Lemma changes_alternate (prev : option road) (l : list Point) :
  roads_alternate prev (changes prev l).
Proof.
  revert prev. induction l as [|p l IH]; intros prev; simpl; [trivial|].
  destruct (decide (road_id p ≠ prev)) as [Hne|Heq].
  - simpl. split; [assumption|apply IH].
  - apply dec_stable in Heq. rewrite Heq. apply IH.
Qed.

Lemma changes_sublist (prev : option road) (l : list Point) :
  changes prev l `sublist_of` l.
Proof.
  revert prev. induction l as [|p l IH]; intros prev; simpl; [constructor|].
  destruct (decide (road_id p ≠ prev)).
  - apply sublist_skip, IH.
  - apply sublist_cons, IH.
Qed.

Lemma roads_alternate_lookup (prev : option road) (l : list Point) i a b :
  roads_alternate prev l → l !! i = Some a → l !! S i = Some b →
  road_id a ≠ road_id b.
Proof.
  revert prev i. induction l as [|p l IH]; intros prev i H Ha Hb;
    [discriminate|].
  destruct H as [_ H]. destruct i as [|i].
  - inversion Ha. subst p. destruct l as [|q l]; [discriminate|].
    inversion Hb. subst q. destruct H as [H _]. congruence.
  - eapply IH; eassumption.
Qed.

Section stc.
Import STCOracle.

(** The rounds of the loop over the inner fixes. *)
Lemma loop_interior n l : ∀ compressed cur idx rest,
  (1 ≤ idx)%Z → (idx + len l < n)%Z → rest ≠ [] →
  loop n (compressed, cur) idx (l ++ rest)
  = loop n (compressed ++ changes cur l,
            match last l with Some p => road_id p | None => cur end)
         (idx + len l) rest.
Proof.
  induction l as [|p l IH]; intros compressed cur idx rest Hidx Hn Hrest.
  - simpl. rewrite app_nil_r. unfold len. simpl.
    rewrite Z.add_0_r. reflexivity.
  - assert (Hl : len (p :: l) = (1 + len l)%Z) by (unfold len; simpl; lia).
    rewrite Hl in *. pose proof (len_nonneg l).
    cbn [loop app]. unfold step at 1.
    destruct (Z.eqb_spec idx 0); [lia|].
    destruct (Z.eqb_spec idx (n - 1)); [lia|].
    assert (Hlast : match last (p :: l) with
                    | Some q => road_id q
                    | None => cur
                    end
                    = match last l with
                      | Some q => road_id q
                      | None => road_id p
                      end).
    { destruct l as [|q l]; [reflexivity|]. simpl.
      destruct (last (q :: l)) eqn:E; [reflexivity|].
      apply last_None in E. discriminate. }
    rewrite Hlast. cbn [changes].
    destruct (decide (road_id p ≠ cur)) as [Hne|Heq];
      cbn [mbind result_bind].
    + rewrite IH by (assumption || lia).
      rewrite <- app_assoc. simpl.
      replace (idx + 1 + len l)%Z with (idx + (1 + len l))%Z by lia.
      reflexivity.
    + apply dec_stable in Heq. rewrite <- Heq.
      rewrite IH by (assumption || lia).
      replace (idx + 1 + len l)%Z with (idx + (1 + len l))%Z by lia.
      reflexivity.
Qed.

Lemma process_reference (segment : Segment) :
  process segment = Ok (stc_reference (seg_points segment)).
Proof.
  unfold process. destruct (seg_points segment) as [|first rest] eqn:E;
    [reflexivity|].
  unfold stc_reference. destruct (last rest) as [final|] eqn:El.
  - apply last_Some in El as [interior ->].
    assert (Hlen : len (first :: interior ++ [final])
                   = (2 + len interior)%Z).
    { unfold len. simpl. rewrite length_app. simpl. lia. }
    pose proof (len_nonneg interior).
    destruct (Z.leb_spec (len (first :: interior ++ [final])) 1); [lia|].
    rewrite Hlen. cbn [loop]. unfold step at 1.
    change (0 =? 0)%Z with true. cbn [mbind result_bind app].
    change (0 + 1)%Z with 1%Z.
    rewrite (loop_interior _ interior [first] (road_id first) 1 [final])
      by (lia || discriminate).
    cbn [loop]. unfold step.
    destruct (Z.eqb_spec (1 + len interior) 0); [lia|].
    destruct (Z.eqb_spec (1 + len interior) (2 + len interior - 1)); [|lia].
    replace (length (interior ++ [final]) - 1) with (length interior)
      by (rewrite length_app; simpl; lia).
    rewrite take_app_length.
    set (kept := first :: changes (road_id first) interior).
    change ([first] ++ changes (road_id first) interior) with kept.
    destruct (last kept) as [lk|] eqn:Ek.
    + apply last_Some in Ek as [k' Ek]. rewrite Ek, py_index_last.
      cbn [mbind result_bind].
      destruct (decide (lk ≠ final)) as [Hne|Heq]; simpl.
      * destruct (decide (Some lk = Some final)); [congruence|].
        rewrite <- Ek. reflexivity.
      * apply dec_stable in Heq. subst lk.
        destruct (decide (Some final = Some final)); [|congruence].
        rewrite <- Ek. reflexivity.
    + apply last_None in Ek. discriminate.
  - apply last_None in El. subst rest. reflexivity.
Qed.

End stc.

(** C6. [STCOracle.process] returns the sub-sequence made of the first
    fix, the inner fixes whose [road_id] differs from their
    predecessor's, and the last fix unless it equals the fix emitted
    last; an input of at most one fix comes back unchanged; and any two
    neighbours of the output, the last pair apart, differ in [road_id]. *)
Theorem stc_process_contract (segment : Segment) :
  ∃ out, STCOracle.process segment = Ok out
         ∧ out = stc_reference (seg_points segment)
         ∧ out `sublist_of` seg_points segment
         ∧ head out = head (seg_points segment)
         ∧ ((len (seg_points segment) ≤ 1)%Z → out = seg_points segment)
         ∧ (∀ i a b, out !! i = Some a → out !! S i = Some b →
                     S (S i) < length out → road_id a ≠ road_id b).
Proof.
  exists (stc_reference (seg_points segment)).
  split; [apply process_reference|]. split; [reflexivity|].
  destruct (seg_points segment) as [|first rest]; simpl.
  { split; [constructor|]. split; [reflexivity|]. split; [reflexivity|].
    intros i a b Ha. discriminate. }
  destruct (last rest) as [final|] eqn:El.
  - apply last_Some in El as [interior ->].
    replace (length (interior ++ [final]) - 1) with (length interior)
      by (rewrite length_app; simpl; lia).
    rewrite take_app_length.
    set (kept := first :: changes (road_id first) interior).
    change (first :: changes (road_id first) interior ++ [final])
      with (kept ++ [final]).
    assert (Hk : kept `sublist_of` first :: interior).
    { apply sublist_skip, changes_sublist. }
    assert (Halt : ∀ i a b, kept !! i = Some a → kept !! S i = Some b →
                            road_id a ≠ road_id b).
    { intros i a b Ha Hb.
      destruct i as [|i]; simpl in Ha, Hb.
      - inversion Ha. subst a.
        pose proof (changes_alternate (road_id first) interior) as H.
        destruct (changes (road_id first) interior) as [|q l];
          [discriminate|].
        inversion Hb. subst q. destruct H as [H _]. congruence.
      - eapply roads_alternate_lookup;
          [apply (changes_alternate (road_id first) interior)|eassumption..]. }
    destruct (decide (last kept = Some final)).
    + split; [|split; [reflexivity|split]].
      * change (first :: interior ++ [final])
          with ((first :: interior) ++ [final]).
        apply sublist_inserts_r. assumption.
      * unfold len. simpl. rewrite length_app. simpl. lia.
      * intros i a b Ha Hb _. eapply Halt; eassumption.
    + split; [|split; [reflexivity|split]].
      * change (first :: interior ++ [final])
          with ((first :: interior) ++ [final]).
        apply sublist_app; [assumption|reflexivity].
      * unfold len. simpl. rewrite length_app. simpl. lia.
      * intros i a b Ha Hb Hlen. rewrite length_app in Hlen.
        change (length [final]) with 1 in Hlen.
        apply (Halt i a b).
        -- rewrite lookup_app_l in Ha by lia. assumption.
        -- rewrite lookup_app_l in Hb by lia. assumption.
  - apply last_None in El. subst rest.
    split; [reflexivity|]. split; [reflexivity|]. split; [reflexivity|].
    intros i a b Ha Hb Hlen. simpl in Hlen. lia.
Qed.

(** ** Map matcher: the sliding window *)

Section matcher.
Import OnlineMapMatcher.

(** One call, spelled out: below the window size nothing is returned;
    otherwise the window is matched and its oldest fix leaves. *)
Lemma process_point_cases (self : t) (point : Point) :
  let b := buffer self ++ [point] in
  ((len b < window_size self)%Z
   ∧ process_point self point = Ok (set_buffer self b, None))
  ∨ ((window_size self ≤ len b)%Z
     ∧ ∃ q, _match_window (set_buffer self b) = Some q
            ∧ process_point self point
              = Ok (set_buffer self (tail b), Some q)).
Proof.
  intros b. unfold process_point. cbn [buffer set_buffer window_size].
  fold b. destruct (Z.ltb_spec (len b) (window_size self)) as [Hlt|Hge].
  - left. split; [assumption|reflexivity].
  - right. split; [assumption|].
    assert (Hb : ∃ o rest, b = o :: rest).
    { unfold b. destruct (buffer self); simpl; eauto. }
    destruct Hb as (o & rest & Hb).
    assert (Hm : ∃ q, _match_window (set_buffer self b) = Some q).
    { unfold _match_window. cbn [buffer set_buffer]. rewrite Hb.
      destruct (lmm_match _ _ _ _ _) as [|[u v] states]; [eauto|].
      destruct (match
                  match get_edge_data (world (set_buffer self (o :: rest))) u v
                  with
                  | Some (_ :: _ as d) => lookup_key 0 d
                  | _ => None
                  end
                with
                | Some a => _
                | None => _
                end) as [sla slo]. eauto. }
    destruct Hm as [q Hq]. exists q. split; [assumption|].
    rewrite Hq, Hb. reflexivity.
Qed.

Lemma feed_spec (W : Z) (points : list Point) : ∀ (self : t) (j : Z),
  window_size self = W → (0 ≤ j)%Z →
  len (buffer self) = Z.min j (Z.max (W - 1) 0) →
  ∃ self' outs,
    feed self points = Ok (self', outs)
    ∧ length outs = length points
    ∧ ∀ k r, outs !! k = Some r →
        ((j + Z.of_nat k + 1 < W)%Z → r = None)
        ∧ ((W ≤ j + Z.of_nat k + 1)%Z → ∃ q, r = Some q).
Proof.
  induction points as [|p points IH]; intros self j HW Hj Hlen.
  - exists self, []. split; [reflexivity|]. split; [reflexivity|].
    intros k r Hk. discriminate.
  - assert (Hb : len (buffer self ++ [p]) = (len (buffer self) + 1)%Z).
    { rewrite len_app. reflexivity. }
    destruct (process_point_cases self p) as [[Hlt Hp]|[Hge (q & _ & Hp)]];
      cbn zeta in *; rewrite Hb, HW in *.
    + destruct (IH (set_buffer self (buffer self ++ [p])) (j + 1)%Z)
        as (self' & outs & Hf & Hl & Hspec); [assumption|lia| |].
      { cbn [buffer set_buffer]. rewrite Hb. lia. }
      exists self', (None :: outs). simpl. rewrite Hp.
      cbn [mbind result_bind]. rewrite Hf. cbn [mbind result_bind].
      split; [reflexivity|]. split; [simpl; congruence|].
      intros [|k] r Hk; simpl in Hk.
      * inversion Hk. subst r. split; [reflexivity|]. simpl. lia.
      * destruct (Hspec k r Hk) as [H1 H2]. split; intros; [apply H1|apply H2]; lia.
    + assert (Ht : len (tail (buffer self ++ [p])) = len (buffer self)).
      { unfold len in *. destruct (buffer self); simpl;
          rewrite ?length_app; simpl; lia. }
      destruct (IH (set_buffer self (tail (buffer self ++ [p]))) (j + 1)%Z)
        as (self' & outs & Hf & Hl & Hspec); [assumption|lia| |].
      { cbn [buffer set_buffer]. rewrite Ht. lia. }
      exists self', (Some q :: outs). simpl. rewrite Hp.
      cbn [mbind result_bind]. rewrite Hf. cbn [mbind result_bind].
      split; [reflexivity|]. split; [simpl; congruence|].
      intros [|k] r Hk; simpl in Hk.
      * inversion Hk. subst r. split; [simpl; lia|eauto].
      * destruct (Hspec k r Hk) as [H1 H2]. split; intros; [apply H1|apply H2]; lia.
Qed.

End matcher.

Lemma matcher_pass_through (self : OnlineMapMatcher.t)
    (point oldest : Point) (rest : list Point) :
  OnlineMapMatcher.buffer self ++ [point] = oldest :: rest →
  (OnlineMapMatcher.window_size self
   ≤ len (OnlineMapMatcher.buffer self ++ [point]))%Z →
  OnlineMapMatcher.lmm_match (OnlineMapMatcher.world self)
    (OnlineMapMatcher.max_dist self) (OnlineMapMatcher.max_dist_init self)
    (OnlineMapMatcher.min_prob_norm self)
    ((λ p, (lat p, lon p)) <$> oldest :: rest) = [] →
  OnlineMapMatcher.process_point self point
  = Ok (OnlineMapMatcher.set_buffer self rest, Some oldest).
Proof.
  intros Hb Hw Hm. unfold OnlineMapMatcher.process_point.
  cbn [OnlineMapMatcher.buffer OnlineMapMatcher.set_buffer
       OnlineMapMatcher.window_size].
  destruct (Z.ltb_spec (len (OnlineMapMatcher.buffer self ++ [point]))
              (OnlineMapMatcher.window_size self)); [lia|].
  unfold OnlineMapMatcher._match_window.
  cbn [OnlineMapMatcher.buffer OnlineMapMatcher.set_buffer
       OnlineMapMatcher.world OnlineMapMatcher.max_dist
       OnlineMapMatcher.max_dist_init OnlineMapMatcher.min_prob_norm].
  rewrite Hb, Hm. reflexivity.
Qed.

(** C5, as stated, fails: a fix that comes in with a [road_id] and finds
    no state passes through with that [road_id], not with [None]. *)
Lemma matcher_passthrough_counterexample :
  ∃ self' q,
    OnlineMapMatcher.process_point
      (OnlineMapMatcher.__init__ silent_world 1 50 100 (1 / 1000))
      (mkPoint 1 2 0 "a" (Some (RoadStr "A"))) = Ok (self', Some q)
    ∧ road_id q = Some (RoadStr "A")
    ∧ road_id q ≠ None.
Proof.
  eexists _, _. split; [reflexivity|]. split; [reflexivity|discriminate].
Qed.

(** C5 (amended). Fed to a fresh matcher, each of the first
    [window_size - 1] fixes returns nothing and every later call returns
    exactly one fix; when matching yields no states the oldest buffered
    fix passes through unchanged, with its coordinates and with the
    [road_id] it came in with, and no exception is raised. *)
Theorem matcher_window_contract
    (w : OnlineMapMatcher.env) (W : Z)
    (max_dist max_dist_init min_prob_norm : R) (points : list Point) :
  (∃ self' outs,
     OnlineMapMatcher.feed
       (OnlineMapMatcher.__init__ w W max_dist max_dist_init min_prob_norm)
       points = Ok (self', outs)
     ∧ length outs = length points
     ∧ ∀ k r, outs !! k = Some r →
         ((Z.of_nat k + 1 < W)%Z → r = None)
         ∧ ((W ≤ Z.of_nat k + 1)%Z → ∃ q, r = Some q))
  ∧ (∀ (self : OnlineMapMatcher.t) (point oldest : Point) rest,
       OnlineMapMatcher.buffer self ++ [point] = oldest :: rest →
       (OnlineMapMatcher.window_size self
        ≤ len (OnlineMapMatcher.buffer self ++ [point]))%Z →
       OnlineMapMatcher.lmm_match (OnlineMapMatcher.world self)
         (OnlineMapMatcher.max_dist self)
         (OnlineMapMatcher.max_dist_init self)
         (OnlineMapMatcher.min_prob_norm self)
         ((λ p, (lat p, lon p)) <$> oldest :: rest) = [] →
       ∃ q, OnlineMapMatcher.process_point self point
            = Ok (OnlineMapMatcher.set_buffer self rest, Some q)
            ∧ q = oldest).
Proof.
  split.
  - destruct (feed_spec W points
                (OnlineMapMatcher.__init__ w W max_dist max_dist_init
                   min_prob_norm) 0)
      as (self' & outs & Hf & Hl & Hspec).
    + reflexivity.
    + lia.
    + unfold len. simpl. lia.
    + exists self', outs. split; [assumption|]. split; [assumption|].
      intros k r Hk. destruct (Hspec k r Hk) as [H1 H2].
      split; intros; [apply H1|apply H2]; lia.
  - intros self point oldest rest Hb Hw Hm. exists oldest.
    split; [|reflexivity]. apply matcher_pass_through; assumption.
Qed.

Lemma matcher_window_contract_witness :
  ∃ q, OnlineMapMatcher.process_point
         (OnlineMapMatcher.__init__ silent_world 1 50 100 (1 / 1000))
         (mkPoint 1 2 0 "a" None)
       = Ok (OnlineMapMatcher.set_buffer
               (OnlineMapMatcher.__init__ silent_world 1 50 100 (1 / 1000))
               [], Some q)
       ∧ q = mkPoint 1 2 0 "a" None.
Proof.
  destruct (matcher_window_contract silent_world 1 50 100 (1 / 1000) [])
    as [_ H].
  apply H.
  - reflexivity.
  - unfold len. simpl. lia.
  - reflexivity.
Defined.

(** ** SED statistics *)

Lemma Reqb_refl (x : R) : Reqb x x = true.
Proof. apply Reqb_true. reflexivity. Qed.

Lemma Rltb_false (x y : R) : (y <= x)%R → Rltb x y = false.
Proof. unfold Rltb. intros H. destruct (Rlt_dec x y); [lra|reflexivity]. Qed.

Lemma planar_distance_self (p : Point) : planar_distance p p = 0%R.
Proof.
  unfold planar_distance.
  replace ((lat p - lat p) * 111320 * ((lat p - lat p) * 111320)
           + (lon p - lon p) * 111320 * cos (radians ((lat p + lat p) / 2))
             * ((lon p - lon p) * 111320
                * cos (radians ((lat p + lat p) / 2))))%R
    with 0%R by ring.
  apply sqrt_0.
Qed.

Lemma calculate_sed_error_same_time (p p_start p_end : Point) :
  timestamp p_start = timestamp p_end →
  calculate_sed_error p p_start p_end = planar_distance p p_start.
Proof.
  intros H. unfold calculate_sed_error. rewrite H, Reqb_refl. reflexivity.
Qed.

Lemma twin_fixes_errors :
  sed_loop twin_fixes twin_fixes 0 [] = Ok [0%R; 111320%R].
Proof.
  assert (Hadv : ∀ p, timestamp p = 0%R →
                      advance 2 twin_fixes p 0 = Ok 0%Z).
  { intros p Hp. cbn [advance].
    change (0 <? len twin_fixes - 1)%Z with true. cbv iota.
    change (py_index twin_fixes (0 + 1)) with (Ok (mkPoint 1 0 0 "a" None)).
    cbn [mbind result_bind timestamp]. rewrite Hp.
    rewrite Rltb_false by lra. reflexivity. }
  unfold twin_fixes at 2. cbn [sed_loop].
  change (length twin_fixes) with 2.
  rewrite !Hadv by reflexivity. cbn [mbind result_bind].
  change (len twin_fixes - 1 <=? 0)%Z with false. cbv iota.
  change (py_index twin_fixes 0) with (Ok (mkPoint 0 0 0 "a" None)).
  change (py_index twin_fixes (0 + 1)) with (Ok (mkPoint 1 0 0 "a" None)).
  cbn [mbind result_bind timestamp].
  rewrite !Rltb_false by lra.
  rewrite Hadv by reflexivity. cbn [mbind result_bind].
  change (len twin_fixes - 1 <=? 0)%Z with false. cbv iota.
  change (py_index twin_fixes 0) with (Ok (mkPoint 0 0 0 "a" None)).
  change (py_index twin_fixes (0 + 1)) with (Ok (mkPoint 1 0 0 "a" None)).
  cbn [mbind result_bind timestamp].
  rewrite !Rltb_false by lra.
  rewrite !calculate_sed_error_same_time by reflexivity.
  rewrite planar_distance_self.
  unfold planar_distance. cbn [lat lon app].
  replace ((1 - 0) * 111320 * ((1 - 0) * 111320)
           + (0 - 0) * 111320 * cos (radians ((1 + 0) / 2))
             * ((0 - 0) * 111320 * cos (radians ((1 + 0) / 2))))%R
    with (111320 * 111320)%R by ring.
  rewrite sqrt_square by lra. reflexivity.
Qed.

(** C8, as stated, fails: two fixes that share a timestamp but not a
    position are 111320 m apart for [calculate_sed_stats]. *)
Lemma sed_idempotence_counterexample :
  ∃ st, calculate_sed_stats twin_fixes twin_fixes = Ok st
        ∧ max_sed st = 111320%R
        ∧ max_sed st ≠ 0%R.
Proof.
  unfold calculate_sed_stats. unfold twin_fixes at 1 2.
  rewrite twin_fixes_errors. cbn [mbind result_bind py_max fold_left].
  eexists. split; [reflexivity|]. cbn [max_sed].
  rewrite Rmax_right by lra. split; [reflexivity|lra].
Qed.

Lemma advance_eq (fuel : nat) (compressed : list Point) (p : Point) (i : Z) :
  advance fuel compressed p i
  = if (i <? len compressed - 1)%Z then
      nxt ← py_index compressed (i + 1);
      if Rltb (timestamp nxt) (timestamp p) then
        match fuel with
        | O => OutOfFuel
        | S fuel' => advance fuel' compressed p (i + 1)
        end
      else Ok i
    else Ok i.
Proof. destruct fuel; reflexivity. Qed.

Lemma py_index_lookup {A : Type} (l : list A) (k : nat) (x : A) :
  l !! k = Some x → py_index l (Z.of_nat k) = Ok x.
Proof.
  intros H. unfold py_index.
  destruct (Z.ltb_spec (Z.of_nat k) 0); [lia|].
  destruct (Z.ltb_spec (Z.of_nat k) 0); [lia|].
  rewrite Nat2Z.id, H. reflexivity.
Qed.

Lemma calculate_sed_error_at_start (p q : Point) :
  (timestamp p < timestamp q)%R → calculate_sed_error p p q = 0%R.
Proof.
  intros H. unfold calculate_sed_error.
  rewrite Reqb_false by lra.
  replace ((timestamp p - timestamp p) / (timestamp q - timestamp p))%R
    with 0%R by (field; lra).
  match goal with
  | |- sqrt ?e = _ => replace e with 0%R by ring
  end.
  apply sqrt_0.
Qed.

Lemma calculate_sed_error_at_end (a p : Point) :
  (timestamp a < timestamp p)%R → calculate_sed_error p a p = 0%R.
Proof.
  intros H. unfold calculate_sed_error.
  rewrite Reqb_false by lra.
  replace ((timestamp p - timestamp a) / (timestamp p - timestamp a))%R
    with 1%R by (field; lra).
  match goal with
  | |- sqrt ?e = _ => replace e with 0%R by ring
  end.
  apply sqrt_0.
Qed.

(** On a list compared with itself the segment index trails the fix by
    one position. *)
Lemma advance_self (pts : list Point) (k fuel : nat) (p : Point) :
  strictly_increasing pts → pts !! k = Some p → 1 ≤ fuel →
  advance fuel pts p (Z.of_nat (k - 2)) = Ok (Z.of_nat (k - 1)).
Proof.
  intros Hinc Hk Hf.
  assert (HkN : k < length pts) by (eapply lookup_lt_Some; eassumption).
  rewrite advance_eq. unfold len.
  destruct k as [|[|k]].
  - (* the first fix *)
    change (Z.of_nat (0 - 2)) with 0%Z. change (Z.of_nat (0 - 1)) with 0%Z.
    destruct (Z.ltb_spec 0 (Z.of_nat (length pts) - 1)); [|reflexivity].
    destruct (lookup_lt_is_Some_2 pts 1) as [q Hq]; [lia|].
    change (0 + 1)%Z with (Z.of_nat 1).
    rewrite (py_index_lookup _ _ _ Hq). cbn [mbind result_bind].
    rewrite Rltb_false; [reflexivity|].
    apply Rlt_le. apply (Hinc 0); assumption.
  - (* the second fix *)
    change (Z.of_nat (1 - 2)) with 0%Z. change (Z.of_nat (1 - 1)) with 0%Z.
    destruct (Z.ltb_spec 0 (Z.of_nat (length pts) - 1)); [|lia].
    change (0 + 1)%Z with (Z.of_nat 1).
    rewrite (py_index_lookup _ _ _ Hk). cbn [mbind result_bind].
    rewrite Rltb_false by lra. reflexivity.
  - (* later fixes: one step forward *)
    replace (S (S k) - 2) with k by lia.
    replace (S (S k) - 1) with (S k) by lia.
    destruct (Z.ltb_spec (Z.of_nat k) (Z.of_nat (length pts) - 1)); [|lia].
    destruct (lookup_lt_is_Some_2 pts (S k)) as [q Hq]; [lia|].
    replace (Z.of_nat k + 1)%Z with (Z.of_nat (S k)) by lia.
    rewrite (py_index_lookup _ _ _ Hq). cbn [mbind result_bind].
    assert (Hlt : (timestamp q < timestamp p)%R) by (apply (Hinc (S k)); assumption).
    apply Rltb_true in Hlt. rewrite Hlt.
    destruct fuel as [|fuel]; [lia|].
    rewrite advance_eq. unfold len.
    destruct (Z.ltb_spec (Z.of_nat (S k)) (Z.of_nat (length pts) - 1)); [|lia].
    replace (Z.of_nat (S k) + 1)%Z with (Z.of_nat (S (S k))) by lia.
    rewrite (py_index_lookup _ _ _ Hk). cbn [mbind result_bind].
    rewrite Rltb_false by lra. reflexivity.
Qed.

Lemma sed_loop_self (pts : list Point) :
  strictly_increasing pts →
  ∀ rest k errs,
    drop k pts = rest → all_zero errs →
    ∃ errs', sed_loop pts rest (Z.of_nat (k - 2)) errs = Ok errs'
             ∧ all_zero errs'
             ∧ length errs' = length errs + length rest.
Proof.
  intros Hinc. induction rest as [|p rest IH]; intros k errs Hdrop Hz.
  - exists errs. split; [reflexivity|]. split; [assumption|simpl; lia].
  - assert (Hk : pts !! k = Some p).
    { rewrite <- (Nat.add_0_r k), <- lookup_drop, Hdrop. reflexivity. }
    assert (Hdrop' : drop (S k) pts = rest).
    { rewrite <- (Nat.add_1_r k), <- drop_drop, Hdrop. reflexivity. }
    assert (HkN : k < length pts) by (eapply lookup_lt_Some; eassumption).
    assert (Hnext : ∀ e, e = 0%R →
      ∃ errs', sed_loop pts rest (Z.of_nat (k - 1)) (errs ++ [e]) = Ok errs'
               ∧ all_zero errs'
               ∧ length errs' = length errs + length (p :: rest)).
    { intros e He.
      destruct (IH (S k) (errs ++ [e]) Hdrop') as (errs' & H1 & H2 & H3).
      - apply Forall_app. split; [assumption|]. constructor; [assumption|constructor].
      - replace (S k - 2) with (k - 1) in H1 by lia.
        exists errs'. split; [assumption|]. split; [assumption|].
        rewrite H3, length_app. simpl. lia. }
    cbn [sed_loop].
    rewrite (advance_self pts k (length pts) p Hinc Hk) by lia.
    cbn [mbind result_bind]. unfold len.
    destruct (Z.leb_spec (Z.of_nat (length pts) - 1) (Z.of_nat (k - 1)))
      as [Hle|Hgt].
    + (* a single fix: it is compared with itself *)
      assert (k = 0 ∧ length pts = 1) as [-> Hone] by lia.
      destruct pts as [|p0 [|p1 pts]]; simpl in Hone; try lia.
      simpl in Hk. inversion Hk. subst p0.
      change (py_index [p] (-1)) with (Ok p). cbn [mbind result_bind].
      apply Hnext. apply planar_distance_self.
    + destruct k as [|k].
      * (* the first fix opens the first segment *)
        destruct (lookup_lt_is_Some_2 pts 1) as [q Hq]; [lia|].
        change (Z.of_nat (0 - 1)) with (Z.of_nat 0).
        rewrite (py_index_lookup _ _ _ Hk).
        change (Z.of_nat 0 + 1)%Z with (Z.of_nat 1).
        rewrite (py_index_lookup _ _ _ Hq). cbn [mbind result_bind].
        rewrite Rltb_false by lra.
        apply Hnext. apply calculate_sed_error_at_start.
        apply (Hinc 0); assumption.
      * (* every later fix closes the segment before it *)
        replace (S k - 1) with k in * by lia.
        destruct (lookup_lt_is_Some_2 pts k) as [a Ha]; [lia|].
        rewrite (py_index_lookup _ _ _ Ha).
        replace (Z.of_nat k + 1)%Z with (Z.of_nat (S k)) by lia.
        rewrite (py_index_lookup _ _ _ Hk). cbn [mbind result_bind].
        assert (Hlt : (timestamp a < timestamp p)%R)
          by (apply (Hinc k); assumption).
        rewrite Rltb_false by lra.
        apply Hnext. apply calculate_sed_error_at_end. assumption.
Qed.

Lemma fold_left_Rplus_zero (l : list R) (acc : R) :
  all_zero l → fold_left Rplus l acc = acc.
Proof.
  intros H. revert acc. induction H as [|e l He _ IH]; intros acc; simpl.
  - reflexivity.
  - rewrite IH, He. lra.
Qed.

Lemma fold_left_Rmax_zero (l : list R) :
  all_zero l → fold_left Rmax l 0%R = 0%R.
Proof.
  induction 1 as [|e l He _ IH]; simpl; [reflexivity|].
  rewrite He, Rmax_left by lra. assumption.
Qed.

(** C8 (amended). For every list of fixes with strictly increasing
    timestamps, comparing the list against itself gives
    [average_sed = 0], [max_sed = 0] and [rmse = 0]. *)
Theorem sed_idempotence (points : list Point) :
  strictly_increasing points →
  ∃ st, calculate_sed_stats points points = Ok st
        ∧ average_sed st = 0%R ∧ max_sed st = 0%R ∧ rmse st = 0%R.
Proof.
  intros Hinc. unfold calculate_sed_stats.
  destruct points as [|p0 rest].
  { eexists. split; [reflexivity|]. simpl. auto. }
  destruct (sed_loop_self (p0 :: rest) Hinc (p0 :: rest) 0 [])
    as (errs & Hl & Hz & Hn); [reflexivity|constructor|].
  change (Z.of_nat (0 - 2)) with 0%Z in Hl. rewrite Hl.
  cbn [mbind result_bind].
  destruct errs as [|e errs].
  { eexists. split; [reflexivity|]. simpl. auto. }
  assert (He : e = 0%R) by (inversion Hz; assumption).
  assert (Hz' : all_zero errs) by (inversion Hz; assumption).
  subst e.
  cbn [py_max mbind result_bind]. eexists. split; [reflexivity|].
  cbn [average_sed max_sed rmse]. unfold py_sum.
  rewrite (fold_left_Rplus_zero (0%R :: errs)) by assumption.
  rewrite (fold_left_Rmax_zero errs Hz').
  rewrite fold_left_Rplus_zero.
  - unfold Rdiv. rewrite !Rmult_0_l, sqrt_0. auto.
  - apply Forall_fmap. eapply Forall_impl; [exact Hz|].
    intros x Hx. simpl. rewrite Hx. lra.
Qed.

Lemma sed_idempotence_witness :
  ∃ st,
    calculate_sed_stats
      [mkPoint 0 0 0 "a" None; mkPoint 1 1 60 "a" None;
       mkPoint 2 2 120 "a" None]
      [mkPoint 0 0 0 "a" None; mkPoint 1 1 60 "a" None;
       mkPoint 2 2 120 "a" None] = Ok st
    ∧ average_sed st = 0%R ∧ max_sed st = 0%R ∧ rmse st = 0%R.
Proof.
  apply (sed_idempotence
           [mkPoint 0 0 0 "a" None; mkPoint 1 1 60 "a" None;
            mkPoint 2 2 120 "a" None]).
  intros i a b Ha Hb.
  destruct i as [|[|[|i]]]; simpl in *; try discriminate;
    inversion Ha; inversion Hb; subst; simpl; lra.
Defined.

(** ** The SED helper on the scenario of the test suite *)

Lemma cos_one_degree : (99 / 100 < cos (radians 1))%R.
Proof.
  unfold radians. replace (1 * PI / 180)%R with (PI / 180)%R by lra.
  pose proof PI_gt_3. pose proof PI_4.
  set (x := (PI / 180)%R) in *.
  assert (Hx0 : (0 < x)%R) by (unfold x; lra).
  assert (Hx1 : (x < 1 / 40)%R) by (unfold x; lra).
  pose proof (sin_lt_x x Hx0) as Hs.
  assert (Hs0 : (0 < sin x)%R) by (apply sin_gt_0; unfold x in *; lra).
  assert (Hc0 : (0 < cos x)%R) by (apply cos_gt_0; unfold x in *; lra).
  pose proof (sin2_cos2 x) as H2. unfold Rsqr in H2.
  assert (sin x * sin x < 1 / 1600)%R by nra.
  nra.
Qed.

(** C9. On the anchors (0, 0, t=0) and (2, 0, t=2) and the test fix
    (1, 1, t=1), [calculate_sed_error] returns [111320 * cos(1°)], more
    than 110 km and not 1.0, while the degree-space formula of
    [SquishCompressor._compute_priority] returns exactly 1. *)
Theorem sed_helper_scenario :
  calculate_sed_error (mkPoint 1 1 1 "obj1" None)
    (mkPoint 0 0 0 "obj1" None) (mkPoint 2 0 2 "obj1" None)
  = (111320 * cos (radians 1))%R
  ∧ (110000 < calculate_sed_error (mkPoint 1 1 1 "obj1" None)
                (mkPoint 0 0 0 "obj1" None) (mkPoint 2 0 2 "obj1" None))%R
  ∧ SquishCompressor._compute_priority (mkPoint 0 0 0 "obj1" None)
      (mkPoint 1 1 1 "obj1" None) (mkPoint 2 0 2 "obj1" None) = 1%R.
Proof.
  pose proof cos_one_degree as Hc.
  assert (He : calculate_sed_error (mkPoint 1 1 1 "obj1" None)
                 (mkPoint 0 0 0 "obj1" None) (mkPoint 2 0 2 "obj1" None)
               = (111320 * cos (radians 1))%R).
  { unfold calculate_sed_error. cbn [lat lon timestamp].
    rewrite Reqb_false by lra.
    replace ((0 + 2) / 2)%R with 1%R by lra.
    match goal with
    | |- sqrt ?e = _ =>
        replace e with ((111320 * cos (radians 1))
                        * (111320 * cos (radians 1)))%R by (field; lra)
    end.
    apply sqrt_square. lra. }
  split; [exact He|]. split; [rewrite He; lra|].
  unfold SquishCompressor._compute_priority. cbn [lat lon timestamp].
  rewrite Reqb_false by lra.
  match goal with
  | |- sqrt ?e = _ => replace e with (1 * 1)%R by (field; lra)
  end.
  apply sqrt_square. lra.
Qed.

(** * Further properties of the code *)

(** ** SQUISH: size, repetition, default capacity *)

Lemma compress_short (self : SquishCompressor.t) (pts : list Point)
    (cap : option Z) :
  (len pts ≤ match cap with
             | Some c => c
             | None => SquishCompressor.capacity self
             end)%Z →
  SquishCompressor.compress self pts cap = Ok pts.
Proof.
  intros H. unfold SquishCompressor.compress.
  destruct pts as [|p pts]; [reflexivity|].
  destruct (Z.leb_spec (len (p :: pts))
              (match cap with
               | Some c => c
               | None => SquishCompressor.capacity self
               end)); [reflexivity|lia].
Qed.

(** With a target capacity of at least two, [compress] returns a
    subsequence of [min(N, K)] fixes. *)
Lemma compress_total (self : SquishCompressor.t) (pts : list Point)
    (cap : option Z) :
  let K := match cap with
           | Some c => c
           | None => SquishCompressor.capacity self
           end in
  (2 ≤ K)%Z →
  ∃ out, SquishCompressor.compress self pts cap = Ok out
         ∧ out `sublist_of` pts
         ∧ len out = Z.min (len pts) K.
Proof.
  intros K HK. destruct (Z.le_gt_cases (len pts) K) as [Hle|Hgt].
  - exists pts. split; [apply compress_short; assumption|].
    split; [reflexivity|lia].
  - destruct (compress_long self pts cap) as (buf & Hc & Hsub & _ & _ & Hsz);
      [assumption..|].
    exists (omap (λ j, pts !! j) buf). split; [assumption|].
    split; [apply sublist_select; assumption|].
    unfold len in *. rewrite length_select; [fold K in Hsz; lia|].
    apply Forall_forall. intros j Hj.
    eapply elem_of_sublist in Hj; [|eassumption].
    apply elem_of_seq in Hj. lia.
Qed.

(** X1. An input longer than the capacity [K ≥ 2] is cut down to exactly
    [K] fixes. *)
Theorem squish_exact_size
    (self : SquishCompressor.t) (points : list Point) (K : Z) :
  (2 ≤ K)%Z → (K < len points)%Z →
  ∃ out, SquishCompressor.compress self points (Some K) = Ok out
         ∧ len out = K.
Proof.
  intros HK Hlen.
  destruct (compress_total self points (Some K) HK) as (out & Hc & _ & Hl).
  exists out. split; [assumption|]. lia.
Qed.

Lemma squish_exact_size_witness :
  ∃ out,
    SquishCompressor.compress (SquishCompressor.mk 50)
      [mkPoint 0 0 0 "a" None; mkPoint 1 1 1 "a" None; mkPoint 2 0 2 "a" None;
       mkPoint 3 1 3 "a" None] (Some 3%Z) = Ok out
    ∧ len out = 3%Z.
Proof.
  apply (squish_exact_size (SquishCompressor.mk 50)
           [mkPoint 0 0 0 "a" None; mkPoint 1 1 1 "a" None;
            mkPoint 2 0 2 "a" None; mkPoint 3 1 3 "a" None] 3).
  - lia.
  - unfold len. simpl. lia.
Defined.

(** X2. Compressing twice with the same capacity changes nothing: what
    [compress] returned is returned again as it is. *)
Theorem squish_idempotent
    (self : SquishCompressor.t) (points out : list Point) (cap : option Z) :
  SquishCompressor.compress self points cap = Ok out →
  SquishCompressor.compress self out cap = Ok out.
Proof.
  intros Hc.
  set (K := match cap with
            | Some c => c
            | None => SquishCompressor.capacity self
            end).
  destruct (Z.le_gt_cases (len points) K) as [Hle|Hgt].
  - rewrite (compress_short self points cap Hle) in Hc.
    inversion Hc. subst out. apply compress_short. assumption.
  - destruct (Z.le_gt_cases K 1) as [HK|HK].
    + destruct points as [|p points].
      * simpl in Hc. inversion Hc. reflexivity.
      * rewrite (compress_small self (p :: points) cap) in Hc;
          [discriminate|assumption|discriminate|assumption].
    + destruct (compress_total self points cap) as (out' & Hc' & _ & Hl);
        [fold K; lia|].
      rewrite Hc in Hc'. inversion Hc'. subst out'.
      apply compress_short. fold K in Hl |- *. lia.
Qed.

Lemma squish_idempotent_witness :
  SquishCompressor.compress (SquishCompressor.mk 50)
    [mkPoint 0 0 0 "a" None] (Some 3%Z) = Ok [mkPoint 0 0 0 "a" None].
Proof.
  apply (squish_idempotent (SquishCompressor.mk 50)
           [mkPoint 0 0 0 "a" None] [mkPoint 0 0 0 "a" None] (Some 3%Z)).
  reflexivity.
Defined.

(** X3. A compressor that [__init__] accepted never fails on its own
    capacity: [compress(points)] returns a subsequence of
    [min(N, capacity)] fixes. *)
Theorem squish_default_capacity
    (c : Z) (self : SquishCompressor.t) (points : list Point) :
  SquishCompressor.__init__ c = Ok self →
  ∃ out, SquishCompressor.compress self points None = Ok out
         ∧ out `sublist_of` points
         ∧ len out = Z.min (len points) c.
Proof.
  unfold SquishCompressor.__init__.
  destruct (Z.ltb_spec c 3) as [|Hc]; [discriminate|].
  intros H. inversion H. subst self.
  apply (compress_total (SquishCompressor.mk c) points None). simpl. lia.
Qed.

Lemma squish_default_capacity_witness :
  ∃ out,
    SquishCompressor.compress (SquishCompressor.mk 50)
      [mkPoint 0 0 0 "a" None] None = Ok out
    ∧ out `sublist_of` [mkPoint 0 0 0 "a" None]
    ∧ len out = Z.min (len [mkPoint 0 0 0 "a" None]) 50.
Proof.
  apply (squish_default_capacity 50). reflexivity.
Defined.

(** ** Compression ratio of a SQUISH result *)

(** X4. For a capacity [K ≥ 2] the compression ratio of the input against
    what [compress] returns is at least 1, and it is [N / K] as soon as
    the input has more than [K] fixes. *)
Theorem squish_compression_ratio
    (self : SquishCompressor.t) (points : list Point) (K : Z) :
  (2 ≤ K)%Z →
  ∃ out, SquishCompressor.compress self points (Some K) = Ok out
         ∧ (1 <= calculate_compression_ratio points out)%R
         ∧ ((K < len points)%Z →
            calculate_compression_ratio points out
            = (INR (length points) / IZR K)%R).
Proof.
  intros HK.
  destruct (compress_total self points (Some K) HK) as (out & Hc & _ & Hl).
  exists out. split; [assumption|].
  change (len out = Z.min (len points) K) in Hl.
  unfold calculate_compression_ratio.
  destruct out as [|o out].
  { split; [lra|]. intros Hgt. unfold len in Hl, Hgt.
    change (length (@nil Point)) with 0 in Hl. lia. }
  assert (Hm : 0 < length (o :: out)) by (simpl; lia).
  assert (Hmn : length (o :: out) ≤ length points)
    by (unfold len in Hl; lia).
  assert (HmK : (K < len points)%Z → Z.of_nat (length (o :: out)) = K)
    by (unfold len in Hl |- *; lia).
  clear Hl. set (m := length (o :: out)) in *.
  assert (Hm0 : (0 < INR m)%R) by (apply lt_0_INR; lia).
  split.
  - apply Rmult_le_reg_r with (INR m); [assumption|].
    unfold Rdiv. rewrite Rmult_assoc, Rinv_l by lra.
    rewrite Rmult_1_l, Rmult_1_r. apply le_INR. assumption.
  - intros Hgt. f_equal. rewrite INR_IZR_INZ. f_equal.
    apply HmK. assumption.
Qed.

Lemma squish_compression_ratio_witness :
  ∃ out,
    SquishCompressor.compress (SquishCompressor.mk 50)
      [mkPoint 0 0 0 "a" None] (Some 3%Z) = Ok out
    ∧ (1 <= calculate_compression_ratio [mkPoint 0 0 0 "a" None] out)%R
    ∧ ((3 < len [mkPoint 0 0 0 "a" None])%Z →
       calculate_compression_ratio [mkPoint 0 0 0 "a" None] out
       = (INR (length [mkPoint 0 0 0 "a" None]) / IZR 3)%R).
Proof.
  apply (squish_compression_ratio (SquishCompressor.mk 50)
           [mkPoint 0 0 0 "a" None] 3).
  lia.
Defined.

(** ** Map matcher: draining the window, and the stream wrapper *)

Lemma match_window_same (self : OnlineMapMatcher.t) (o : Point)
    (rest : list Point) :
  OnlineMapMatcher.buffer self = o :: rest →
  ∃ q, OnlineMapMatcher._match_window self = Some q ∧ same_fix q o.
Proof.
  intros Hb. unfold OnlineMapMatcher._match_window. rewrite Hb.
  destruct (OnlineMapMatcher.lmm_match _ _ _ _ _) as [|[u v] states].
  { exists o. split; [reflexivity|split; reflexivity]. }
  destruct (match
              match OnlineMapMatcher.get_edge_data
                      (OnlineMapMatcher.world self) u v
              with
              | Some (_ :: _ as d) => OnlineMapMatcher.lookup_key 0 d
              | _ => None
              end
            with
            | Some a => _
            | None => _
            end) as [sla slo].
  eexists. split; [reflexivity|split; reflexivity].
Qed.

Lemma match_window_silent (self : OnlineMapMatcher.t) (o : Point)
    (rest : list Point) :
  (∀ a b c path,
     OnlineMapMatcher.lmm_match (OnlineMapMatcher.world self) a b c path
     = []) →
  OnlineMapMatcher.buffer self = o :: rest →
  ∃ q, OnlineMapMatcher._match_window self = Some q ∧ q = o.
Proof.
  intros Hs Hb. unfold OnlineMapMatcher._match_window. rewrite Hb, Hs.
  exists o. split; reflexivity.
Qed.

Section wrapper.
Import OnlineMapMatcher.

(** What one matched fix has to do with the fix it stands for ([Rel]),
    for the matchers singled out by [I]. *)
Variable Rel : Point → Point → Prop.
Variable I : t → Prop.
Hypothesis I_set : ∀ self b, I self → I (set_buffer self b).
Hypothesis I_match : ∀ self o rest,
  I self → buffer self = o :: rest →
  ∃ q, _match_window self = Some q ∧ Rel q o.

Lemma process_point_rel (self : t) (p : Point) :
  I self →
  ∃ self' r,
    process_point self p = Ok (self', r)
    ∧ I self'
    ∧ ((r = None ∧ buffer self' = buffer self ++ [p])
       ∨ (∃ q o, r = Some q ∧ buffer self ++ [p] = o :: buffer self'
                 ∧ Rel q o)).
Proof using I_set I_match.
  intros HI.
  destruct (process_point_cases self p) as [[_ Hp]|[_ (q & Hq & Hp)]];
    cbn zeta in *.
  - eexists _, _. split; [exact Hp|]. split; [apply I_set; assumption|].
    left. split; reflexivity.
  - eexists _, _. split; [exact Hp|]. split; [apply I_set; assumption|].
    right.
    assert (Hb : ∃ o rest, buffer self ++ [p] = o :: rest).
    { destruct (buffer self); simpl; eauto. }
    destruct Hb as (o & rest & Hb).
    destruct (I_match (set_buffer self (buffer self ++ [p])) o rest)
      as (q' & Hq' & Hrel); [apply I_set; assumption|exact Hb|].
    rewrite Hq in Hq'. inversion Hq'. subst q'.
    exists q, o. split; [reflexivity|]. split; [|assumption].
    cbn [buffer set_buffer]. rewrite Hb. reflexivity.
Qed.

Lemma stream_points_rel (pts : list Point) : ∀ self : t,
  I self →
  ∃ self' ys done,
    MapMatchedStreamWrapper.stream_points self pts = Ok (self', ys)
    ∧ I self'
    ∧ buffer self ++ pts = done ++ buffer self'
    ∧ Forall2 Rel ys done.
Proof using I_set I_match.
  induction pts as [|p pts IH]; intros self HI.
  - exists self, [], []. split; [reflexivity|]. split; [assumption|].
    split; [apply app_nil_r|constructor].
  - destruct (process_point_rel self p HI)
      as (self1 & r & Hp & HI1 & Hr).
    destruct (IH self1 HI1) as (self2 & ys & done & Hs & HI2 & Hb & Hf).
    cbn [MapMatchedStreamWrapper.stream_points]. rewrite Hp.
    cbn [mbind result_bind]. rewrite Hs. cbn [mbind result_bind].
    destruct Hr as [[-> Hb1]|(q & o & -> & Hb1 & Hrel)].
    + exists self2, ys, done. split; [reflexivity|]. split; [assumption|].
      split; [|assumption].
      rewrite <- Hb, Hb1, <- app_assoc. reflexivity.
    + exists self2, (q :: ys), (o :: done). split; [reflexivity|].
      split; [assumption|]. split; [|constructor; assumption].
      change (p :: pts) with ([p] ++ pts).
      rewrite app_assoc, Hb1. simpl. rewrite <- Hb. reflexivity.
Qed.

Lemma flush_loop_rel (fuel : nat) : ∀ (self : t) (acc : list Point),
  I self → length (buffer self) ≤ fuel →
  ∃ self' zs,
    flush_loop fuel self acc = Ok (self', acc ++ zs)
    ∧ buffer self' = []
    ∧ Forall2 Rel zs (buffer self).
Proof using I_set I_match.
  induction fuel as [|fuel IH]; intros self acc HI Hlen.
  - destruct (buffer self) as [|o rest] eqn:Hb; [|simpl in Hlen; lia].
    exists self, []. simpl. rewrite Hb, app_nil_r.
    split; [reflexivity|]. split; [reflexivity|constructor].
  - destruct (buffer self) as [|o rest] eqn:Hb.
    + exists self, []. simpl. rewrite Hb, app_nil_r.
      split; [reflexivity|]. split; [reflexivity|constructor].
    + destruct (I_match self o rest HI Hb) as (q & Hq & Hrel).
      destruct (IH (set_buffer self rest) (acc ++ [q]))
        as (self' & zs & Hf & He & Hall).
      { apply I_set. assumption. }
      { cbn [buffer set_buffer]. simpl in Hlen. lia. }
      exists self', (q :: zs). cbn [flush_loop]. rewrite Hb, Hq, Hf.
      rewrite <- app_assoc. split; [reflexivity|].
      split; [assumption|]. constructor; assumption.
Qed.

Lemma flush_rel (self : t) :
  I self →
  ∃ self' zs,
    flush self = Ok (self', zs)
    ∧ buffer self' = []
    ∧ Forall2 Rel zs (buffer self).
Proof using I_set I_match.
  intros HI.
  destruct (flush_loop_rel (length (buffer self)) self [] HI)
    as (self' & zs & Hf & He & Hall); [lia|].
  exists self', zs. split; [exact Hf|]. split; assumption.
Qed.

Lemma stream_rel (self : t) (pts : list Point) :
  I self →
  ∃ self' out,
    MapMatchedStreamWrapper.stream self pts = Ok (self', out)
    ∧ buffer self' = []
    ∧ Forall2 Rel out (buffer self ++ pts).
Proof using I_set I_match.
  intros HI.
  destruct (stream_points_rel pts self HI)
    as (self1 & ys & done & Hs & HI1 & Hb & Hys).
  destruct (flush_rel self1 HI1) as (self2 & zs & Hf & He & Hzs).
  exists self2, (ys ++ zs). unfold MapMatchedStreamWrapper.stream.
  rewrite Hs. cbn [mbind result_bind]. rewrite Hf. cbn [mbind result_bind].
  split; [reflexivity|]. split; [assumption|].
  rewrite Hb. apply Forall2_app; assumption.
Qed.

End wrapper.

Lemma Forall2_eq_inv {A : Type} (l k : list A) : Forall2 eq l k → l = k.
Proof. induction 1; congruence. Qed.

(** X5. [flush] empties the window: it returns one fix for every
    buffered fix, in buffer order, each with the timestamp and the
    [obj_id] of the fix it stands for, and leaves the buffer empty, so
    that flushing again returns nothing. *)
Theorem matcher_flush_drains (self : OnlineMapMatcher.t) :
  ∃ self' zs,
    OnlineMapMatcher.flush self = Ok (self', zs)
    ∧ OnlineMapMatcher.buffer self' = []
    ∧ Forall2 same_fix zs (OnlineMapMatcher.buffer self)
    ∧ OnlineMapMatcher.flush self' = Ok (self', []).
Proof.
  destruct (flush_rel same_fix (λ _, True)) with (self := self)
    as (self' & zs & Hf & He & Hall).
  - trivial.
  - intros s o rest _ Hb. apply (match_window_same s o rest Hb).
  - trivial.
  - exists self', zs. split; [assumption|]. split; [assumption|].
    split; [assumption|].
    unfold OnlineMapMatcher.flush. rewrite He. simpl. rewrite He.
    reflexivity.
Qed.

(** X6. The stream wrapper loses nothing and adds nothing: whatever the
    window size and the road graph, it yields exactly one fix per fix of
    the underlying stream (after those already buffered), in order, each
    with the timestamp and the [obj_id] of its original, and it leaves
    the matcher's buffer empty. *)
Theorem wrapper_stream_complete
    (matcher : OnlineMapMatcher.t) (point_stream : list Point) :
  ∃ matcher' out,
    MapMatchedStreamWrapper.stream matcher point_stream = Ok (matcher', out)
    ∧ OnlineMapMatcher.buffer matcher' = []
    ∧ length out
      = length (OnlineMapMatcher.buffer matcher) + length point_stream
    ∧ Forall2 same_fix out
        (OnlineMapMatcher.buffer matcher ++ point_stream).
Proof.
  destruct (stream_rel same_fix (λ _, True)) with
    (self := matcher) (pts := point_stream)
    as (self' & out & Hs & He & Hall).
  - trivial.
  - intros s o rest _ Hb. apply (match_window_same s o rest Hb).
  - trivial.
  - exists self', out. split; [assumption|]. split; [assumption|].
    split; [|assumption].
    apply Forall2_length in Hall. rewrite Hall, length_app. reflexivity.
Qed.

(** X7. On a road graph where the matching never finds a state, the
    wrapper is the identity: a fresh matcher hands the stream back as it
    came, fix by fix, [road_id] included. *)
Theorem wrapper_stream_identity
    (w : OnlineMapMatcher.env) (W : Z)
    (max_dist max_dist_init min_prob_norm : R) (point_stream : list Point) :
  (∀ a b c path, OnlineMapMatcher.lmm_match w a b c path = []) →
  ∃ matcher',
    MapMatchedStreamWrapper.stream
      (OnlineMapMatcher.__init__ w W max_dist max_dist_init min_prob_norm)
      point_stream
    = Ok (matcher', point_stream).
Proof.
  intros Hsilent.
  destruct (stream_rel eq (λ s, OnlineMapMatcher.world s = w)) with
    (self := OnlineMapMatcher.__init__ w W max_dist max_dist_init
               min_prob_norm)
    (pts := point_stream)
    as (self' & out & Hs & He & Hall).
  - intros s b Hw. exact Hw.
  - intros s o rest Hw Hb. apply (match_window_silent s o rest); [|exact Hb].
    rewrite Hw. exact Hsilent.
  - reflexivity.
  - exists self'. rewrite Hs. apply Forall2_eq_inv in Hall.
    simpl in Hall. rewrite Hall. reflexivity.
Qed.

Lemma wrapper_stream_identity_witness :
  ∃ matcher',
    MapMatchedStreamWrapper.stream
      (OnlineMapMatcher.__init__ silent_world 3 50 100 (1 / 1000))
      [mkPoint 1 2 0 "a" (Some (RoadStr "A")); mkPoint 1 2 1 "a" None]
    = Ok (matcher',
          [mkPoint 1 2 0 "a" (Some (RoadStr "A")); mkPoint 1 2 1 "a" None]).
Proof.
  apply (wrapper_stream_identity silent_world 3 50 100 (1 / 1000)
           [mkPoint 1 2 0 "a" (Some (RoadStr "A")); mkPoint 1 2 1 "a" None]).
  intros a b c path. reflexivity.
Defined.

(** The window after a run of [process_point] calls: the newest fixes,
    [window_size - 1] of them at most. *)
Lemma feed_buffer (W : Z) (points : list Point) :
  ∀ self : OnlineMapMatcher.t,
  OnlineMapMatcher.window_size self = W →
  length (OnlineMapMatcher.buffer self) ≤ Z.to_nat (Z.max (W - 1) 0) →
  ∃ self' outs,
    OnlineMapMatcher.feed self points = Ok (self', outs)
    ∧ OnlineMapMatcher.buffer self'
      = drop (length (OnlineMapMatcher.buffer self ++ points)
              - Z.to_nat (Z.max (W - 1) 0))
          (OnlineMapMatcher.buffer self ++ points).
Proof.
  set (m := Z.to_nat (Z.max (W - 1) 0)).
  induction points as [|p points IH]; intros self HW Hlen.
  - exists self, []. split; [reflexivity|].
    rewrite app_nil_r.
    replace (length (OnlineMapMatcher.buffer self) - m) with 0 by lia.
    reflexivity.
  - assert (Hb : length (OnlineMapMatcher.buffer self ++ [p])
                 = S (length (OnlineMapMatcher.buffer self)))
      by (rewrite length_app; simpl; lia).
    destruct (process_point_cases self p) as [[Hlt Hp]|[Hge (q & _ & Hp)]];
      cbn zeta in *; unfold len in *; rewrite Hb, HW in *.
    + destruct (IH (OnlineMapMatcher.set_buffer self
                      (OnlineMapMatcher.buffer self ++ [p])))
        as (self' & outs & Hf & Hbuf); [assumption| |].
      { cbn [OnlineMapMatcher.buffer OnlineMapMatcher.set_buffer].
        rewrite Hb. unfold m. lia. }
      exists self', (None :: outs). cbn [OnlineMapMatcher.feed].
      rewrite Hp. cbn [mbind result_bind]. rewrite Hf.
      cbn [mbind result_bind]. split; [reflexivity|].
      rewrite Hbuf.
      cbn [OnlineMapMatcher.buffer OnlineMapMatcher.set_buffer].
      rewrite <- app_assoc. reflexivity.
    + destruct (OnlineMapMatcher.buffer self ++ [p]) as [|o b'] eqn:E;
        [simpl in Hb; lia|].
      simpl in Hb, Hp.
      destruct (IH (OnlineMapMatcher.set_buffer self b'))
        as (self' & outs & Hf & Hbuf); [assumption| |].
      { cbn [OnlineMapMatcher.buffer OnlineMapMatcher.set_buffer]. lia. }
      exists self', (Some q :: outs). cbn [OnlineMapMatcher.feed].
      rewrite Hp. cbn [mbind result_bind]. rewrite Hf.
      cbn [mbind result_bind]. split; [reflexivity|].
      rewrite Hbuf.
      cbn [OnlineMapMatcher.buffer OnlineMapMatcher.set_buffer].
      change (p :: points) with ([p] ++ points).
      rewrite (app_assoc (OnlineMapMatcher.buffer self)), E.
      assert (Hm : m ≤ length (b' ++ points)).
      { rewrite length_app. unfold m. lia. }
      change ((o :: b') ++ points) with (o :: (b' ++ points)).
      replace (length (o :: (b' ++ points)) - m)
        with (S (length (b' ++ points) - m)) by (simpl; lia).
      reflexivity.
Qed.

(** X8. The window never holds more than [window_size - 1] fixes between
    calls: after any run of [process_point] calls on a fresh matcher the
    buffer is the newest [window_size - 1] fixes of the input (all of
    them while there are fewer). *)
Theorem matcher_buffer_bound
    (w : OnlineMapMatcher.env) (W : Z)
    (max_dist max_dist_init min_prob_norm : R) (points : list Point) :
  ∃ self' outs,
    OnlineMapMatcher.feed
      (OnlineMapMatcher.__init__ w W max_dist max_dist_init min_prob_norm)
      points = Ok (self', outs)
    ∧ OnlineMapMatcher.buffer self'
      = drop (length points - Z.to_nat (Z.max (W - 1) 0)) points
    ∧ (len (OnlineMapMatcher.buffer self')
       = Z.min (len points) (Z.max (W - 1) 0))%Z.
Proof.
  destruct (feed_buffer W points
              (OnlineMapMatcher.__init__ w W max_dist max_dist_init
                 min_prob_norm))
    as (self' & outs & Hf & Hbuf).
  - reflexivity.
  - simpl. lia.
  - exists self', outs. split; [assumption|].
    simpl in Hbuf. split; [assumption|].
    rewrite Hbuf. unfold len. rewrite length_drop. lia.
Qed.

(** ** STEP: the shape of what is emitted *)

Section step_shape.
Import STEPSegmenter.

Lemma create_stop_inv (pts : list Point) (s : Segment) :
  _create_stop pts = Ok s → (∃ c, s = Stop pts c) ∧ seg_wf s.
Proof.
  intros H. pose proof H as H'. unfold _create_stop in H.
  destruct pts as [|p0 pts]; [discriminate|]. inversion H. subst s.
  split; [eauto|]. exact H'.
Qed.

Lemma move_of_shape (m : list Point) :
  move_of m = [] ∨ (move_of m = [Move m] ∧ m ≠ []).
Proof. destruct m; [left; reflexivity|right; split; [reflexivity|discriminate]]. Qed.

Lemma prune_sp (self : t) (k : Z) :
  current_sp_start (_prune_cache self k) = current_sp_start self
  ∧ current_sp_end (_prune_cache self k) = current_sp_end self.
Proof. unfold _prune_cache. destruct (_ <? _)%Z; split; reflexivity. Qed.

Lemma handling_shape (self self' : t) (p : Point) (Ie : Z) (Is : option Z)
    (segs : list Segment) :
  segmentation_handling self p Ie Is = Ok (self', segs) →
  Forall seg_wf segs
  ∧ ((segs = []
      ∧ (is_Some (current_sp_start self) → is_Some (current_sp_start self')))
     ∨ (∃ m, segs = [Move m] ∧ current_sp_start self = None
             ∧ is_Some (current_sp_start self'))
     ∨ (∃ ps c, segs = [Stop ps c])
     ∨ (∃ ps c m, segs = [Stop ps c; Move m]
                  ∧ is_Some (current_sp_start self'))).
Proof.
  unfold segmentation_handling.
  destruct Is as [i|];
    destruct (current_sp_start self) as [s|] eqn:Hs;
    try (destruct (current_sp_end self) as [e|] eqn:He; [|discriminate]).
  - destruct (i <=? e)%Z.
    + intros H. inversion H. subst. split; [constructor|].
      left. split; [reflexivity|]. intros _. simpl. eauto.
    + destruct (_create_stop (_get_points self s e)) as [stop| |] eqn:Hc;
        cbn [mbind result_bind]; try discriminate.
      intros H. inversion H. subst. clear H.
      destruct (create_stop_inv _ _ Hc) as [[c ->] Hwf].
      assert (Hsp : is_Some (current_sp_start
                (_prune_cache (set_sp self (Some i) (Some Ie)) i))).
      { rewrite (proj1 (prune_sp _ _)). simpl. eauto. }
      destruct (move_of_shape (_get_points self (e + 1) (i - 1)))
        as [->|[-> Hm]].
      * split; [repeat constructor; exact Hwf|].
        right. right. left. eauto.
      * split; [repeat constructor; [exact Hwf|exact Hm]|].
        right. right. right. eauto 6.
  - intros H. inversion H. subst. clear H.
    assert (Hsp : is_Some (current_sp_start
              (_prune_cache (set_sp self (Some i) (Some Ie)) i))).
    { rewrite (proj1 (prune_sp _ _)). simpl. eauto. }
    destruct (move_of_shape (_get_points self (cache_offset self) (i - 1)))
      as [->|[-> Hm]].
    + split; [constructor|]. left. split; [reflexivity|]. intros _.
      assumption.
    + split; [repeat constructor; exact Hm|]. right. left. eauto.
  - destruct (_get_point self e) as [pe| |]; cbn [mbind result_bind];
      try discriminate.
    destruct (Rltb _ _).
    + destruct (_create_stop (_get_points self s e)) as [stop| |] eqn:Hc;
        cbn [mbind result_bind]; try discriminate.
      intros H. inversion H. subst. clear H.
      destruct (create_stop_inv _ _ Hc) as [[c ->] Hwf].
      split; [repeat constructor; exact Hwf|]. right. right. left. eauto.
    + intros H. inversion H. subst. split; [constructor|].
      left. split; [reflexivity|]. intros _. rewrite Hs. eauto.
  - intros H. inversion H. subst. split; [constructor|].
    left. split; [reflexivity|]. intros [? ?]. congruence.
Qed.

Lemma detection_sp (self self2 : t) (p : Point) (Ie : Z) (Is : option Z) :
  stay_point_detection self p = Ok (self2, Ie, Is) →
  current_sp_start self2 = current_sp_start self.
Proof.
  unfold stay_point_detection.
  set (self1 := match cache self with
                | [] => set_origin self (radians (lat p)) (radians (lon p))
                | _ :: _ => self
                end).
  assert (H1 : current_sp_start self1 = current_sp_start self).
  { unfold self1. destruct (cache self); reflexivity. }
  destruct (grid_cell self1 p) as [[gx gy]| |]; cbn [mbind result_bind];
    try discriminate.
  destruct (search _ _ _ _ _) as [j| |]; cbn [mbind result_bind];
    try discriminate.
  destruct (_ <=? _)%Z.
  - destruct (_get_point _ _) as [pi| |]; cbn [mbind result_bind];
      try discriminate.
    destruct (Rleb _ _); intros H; inversion H; subst; exact H1.
  - intros H; inversion H; subst; exact H1.
Qed.

Lemma process_point_shape (self self' : t) (p : Point)
    (segs : list Segment) :
  process_point self p = Ok (self', segs) →
  Forall seg_wf segs
  ∧ ((segs = []
      ∧ (is_Some (current_sp_start self) → is_Some (current_sp_start self')))
     ∨ (∃ m, segs = [Move m] ∧ current_sp_start self = None
             ∧ is_Some (current_sp_start self'))
     ∨ (∃ ps c, segs = [Stop ps c])
     ∨ (∃ ps c m, segs = [Stop ps c; Move m]
                  ∧ is_Some (current_sp_start self'))).
Proof.
  unfold process_point.
  destruct (stay_point_detection self p) as [[[self2 Ie] Is]| |] eqn:Hd;
    cbn [mbind result_bind]; try discriminate.
  intros H. apply detection_sp in Hd. rewrite <- Hd.
  apply (handling_shape self2 self' p Ie Is segs H).
Qed.

Lemma flush_shape (self self' : t) (segs : list Segment) :
  flush self = Ok (self', segs) →
  Forall seg_wf segs
  ∧ (segs = []
     ∨ (∃ m, segs = [Move m] ∧ current_sp_start self = None)
     ∨ (∃ ps c, segs = [Stop ps c])
     ∨ (∃ ps c m, segs = [Stop ps c; Move m])).
Proof.
  unfold flush.
  destruct (current_sp_start self) as [s|] eqn:Hs;
    try (destruct (current_sp_end self) as [e|] eqn:He; [|discriminate]).
  - destruct (_create_stop (_get_points self s e)) as [stop| |] eqn:Hc;
      cbn [mbind result_bind]; try discriminate.
    intros H. inversion H. subst. clear H.
    destruct (create_stop_inv _ _ Hc) as [[c ->] Hwf].
    destruct (move_of_shape
                (_get_points self (e + 1)
                   (cache_offset self + len (cache self) - 1)))
      as [->|[-> Hm]].
    + split; [repeat constructor; exact Hwf|]. right. right. left. eauto.
    + split; [repeat constructor; [exact Hwf|exact Hm]|].
      right. right. right. eauto.
  - cbn [mbind result_bind]. intros H. inversion H. subst. clear H.
    destruct (move_of_shape
                (_get_points self (cache_offset self)
                   (cache_offset self + len (cache self) - 1)))
      as [->|[-> Hm]].
    + split; [constructor|]. left. reflexivity.
    + split; [repeat constructor; exact Hm|]. right. left. eauto.
Qed.

Lemma no_adjacent_moves_app (acc segs : list Segment) :
  no_adjacent_moves acc → no_adjacent_moves segs →
  (∀ m1 m2, last acc = Some (Move m1) → head segs = Some (Move m2) → False) →
  no_adjacent_moves (acc ++ segs).
Proof.
  intros Ha Hs Hj k m1 m2 H1 H2.
  destruct (decide (S k < length acc)) as [Hlt|Hge].
  - rewrite lookup_app_l in H1 by lia. rewrite lookup_app_l in H2 by lia.
    exact (Ha k m1 m2 H1 H2).
  - destruct (decide (length acc ≤ k)) as [Hle|Hgt].
    + rewrite lookup_app_r in H1 by lia. rewrite lookup_app_r in H2 by lia.
      replace (S k - length acc) with (S (k - length acc)) in H2 by lia.
      exact (Hs _ m1 m2 H1 H2).
    + assert (Hk : S k = length acc) by lia.
      rewrite lookup_app_l in H1 by lia.
      rewrite lookup_app_r in H2 by lia.
      replace (S k - length acc) with 0 in H2 by lia.
      apply (Hj m1 m2).
      * rewrite last_lookup. rewrite <- Hk. simpl. exact H1.
      * rewrite head_lookup. exact H2.
Qed.

Lemma no_adjacent_moves_shape (segs : list Segment) :
  (segs = [] ∨ (∃ m, segs = [Move m]) ∨ (∃ ps c, segs = [Stop ps c])
   ∨ (∃ ps c m, segs = [Stop ps c; Move m])) →
  no_adjacent_moves segs.
Proof.
  intros [->|[[m ->]|[(ps & c & ->)|(ps & c & m & ->)]]] k m1 m2 H1 H2;
    destruct k as [|[|k]]; simpl in *; discriminate.
Qed.

(** While no stay point is open, the segment handed out last is not a
    Move. *)
Definition moves_closed (self : t) (acc : list Segment) : Prop :=
  no_adjacent_moves acc
  ∧ (∀ m, last acc = Some (Move m) → is_Some (current_sp_start self)).

Lemma process_point_moves (self self' : t) (p : Point)
    (acc segs : list Segment) :
  moves_closed self acc →
  process_point self p = Ok (self', segs) →
  moves_closed self' (acc ++ segs).
Proof.
  intros [Hno Hlast] Hp.
  destruct (process_point_shape _ _ _ _ Hp)
    as [_ [[-> Hsp]|[(m & -> & Hs & Hs')|[(ps & c & ->)|(ps & c & m & -> & Hs')]]]].
  - rewrite app_nil_r. split; [assumption|].
    intros m Hm. apply Hsp. apply (Hlast m Hm).
  - split.
    + apply no_adjacent_moves_app; [assumption| |].
      * apply no_adjacent_moves_shape. right. left. eauto.
      * intros m1 m2 Hl _. destruct (Hlast m1 Hl) as [x Hx]. congruence.
    + intros m' _. assumption.
  - split.
    + apply no_adjacent_moves_app; [assumption| |].
      * apply no_adjacent_moves_shape. right. right. left. eauto.
      * intros m1 m2 _ Hh. discriminate.
    + intros m'. rewrite last_snoc. discriminate.
  - split.
    + apply no_adjacent_moves_app; [assumption| |].
      * apply no_adjacent_moves_shape. right. right. right. eauto.
      * intros m1 m2 _ Hh. discriminate.
    + intros m' _. assumption.
Qed.

Lemma process_points_moves (traj : list Point) :
  ∀ (self self' : t) (acc segs : list Segment),
  moves_closed self acc →
  process_points self traj = Ok (self', segs) →
  moves_closed self' (acc ++ segs) ∧ Forall seg_wf segs.
Proof.
  induction traj as [|p traj IH]; intros self self' acc segs HJ Hp.
  - simpl in Hp. inversion Hp. subst. rewrite app_nil_r.
    split; [assumption|constructor].
  - cbn [process_points] in Hp.
    destruct (process_point self p) as [[self1 s1]| |] eqn:H1;
      cbn [mbind result_bind] in Hp; try discriminate.
    destruct (process_points self1 traj) as [[self2 s2]| |] eqn:H2;
      cbn [mbind result_bind] in Hp; try discriminate.
    inversion Hp. subst. clear Hp.
    pose proof (process_point_moves _ _ _ _ _ HJ H1) as HJ1.
    destruct (IH _ _ _ _ HJ1 H2) as [HJ2 Hwf2].
    rewrite app_assoc. split; [assumption|].
    apply Forall_app. split; [|assumption].
    apply (process_point_shape _ _ _ _ H1).
Qed.

Lemma process_shape (self : t) (traj : list Point) (segs : list Segment) :
  current_sp_start self = None →
  process self traj = Ok segs →
  no_adjacent_moves segs ∧ Forall seg_wf segs.
Proof.
  intros Hs Hp. unfold process in Hp.
  destruct (process_points self traj) as [[self1 s1]| |] eqn:H1;
    cbn [mbind result_bind] in Hp; try discriminate.
  destruct (flush self1) as [[self2 s2]| |] eqn:H2;
    cbn [mbind result_bind] in Hp; try discriminate.
  inversion Hp. subst. clear Hp.
  destruct (process_points_moves traj self self1 [] s1) as [[Hno Hlast] Hwf1];
    [split; [intros k m1 m2 H; discriminate|intros m H; discriminate]
    |assumption|].
  simpl in Hno, Hlast.
  destruct (flush_shape _ _ _ H2) as [Hwf2 Hsh].
  split; [|apply Forall_app; split; assumption].
  apply no_adjacent_moves_app; [assumption| |].
  - apply no_adjacent_moves_shape.
    destruct Hsh as [?|[(m & ? & _)|[?|?]]]; eauto.
  - intros m1 m2 Hl Hh.
    destruct Hsh as [->|[(m & -> & Hnone)|[(ps & c & ->)|(ps & c & m & ->)]]];
      try discriminate.
    destruct (Hlast m1 Hl) as [x Hx]. congruence.
Qed.

End step_shape.

Lemma py_index_neg1 {A : Type} (l : list A) (x : A) :
  last l = Some x → py_index l (-1) = Ok x.
Proof. intros H. apply last_Some in H as [l' ->]. apply py_index_last. Qed.

Lemma init_sp (D T : R) (grid : option R) (self : STEPSegmenter.t) :
  STEPSegmenter.__init__ D T grid = Ok self →
  STEPSegmenter.current_sp_start self = None.
Proof.
  unfold STEPSegmenter.__init__. destruct (Reqb _ 0); [discriminate|].
  intros H. inversion H. reflexivity.
Qed.

Lemma stop_wf_compress (ps : list Point) (c : option Point) :
  seg_wf (Stop ps c) →
  ∃ p0 pl,
    head ps = Some p0 ∧ last ps = Some pl
    ∧ c = Some (mkPoint (py_sum (lat <$> ps) / INR (length ps))
                        (py_sum (lon <$> ps) / INR (length ps))
                        (timestamp p0) (obj_id p0) None)
    ∧ StopCompressor.compress ps
      = Ok (mkCompressedStop
              (mkPoint (py_sum (lat <$> ps) / INR (length ps))
                       (py_sum (lon <$> ps) / INR (length ps))
                       (timestamp p0) (obj_id p0) None)
              (timestamp p0) (timestamp pl)).
Proof.
  unfold seg_wf, STEPSegmenter._create_stop.
  destruct ps as [|p0 ps']; [discriminate|]. intros H. inversion H as [Hc].
  destruct (last (p0 :: ps')) as [pl|] eqn:El;
    [|apply last_None in El; discriminate].
  exists p0, pl. split; [reflexivity|]. split; [reflexivity|].
  split; [reflexivity|].
  unfold StopCompressor.compress. rewrite (py_index_neg1 _ _ El).
  cbn [mbind result_bind]. rewrite !length_fmap. reflexivity.
Qed.

(** X9. Every Stop that [process] emits carries the centroid of its own
    fixes: the mean latitude and longitude, stamped with the timestamp
    and [obj_id] of the first fix and no [road_id].  [StopCompressor]
    accepts each of them and returns that same centroid, with the times
    of the Stop's first and last fix. *)
Theorem step_stops_compress
    (D T : R) (grid : option R) (self : STEPSegmenter.t)
    (trajectory : list Point) :
  STEPSegmenter.__init__ D T grid = Ok self →
  ∃ segs,
    STEPSegmenter.process self trajectory = Ok segs
    ∧ ∀ ps c, Stop ps c ∈ segs →
        ∃ p0 pl,
          head ps = Some p0 ∧ last ps = Some pl
          ∧ c = Some (mkPoint (py_sum (lat <$> ps) / INR (length ps))
                              (py_sum (lon <$> ps) / INR (length ps))
                              (timestamp p0) (obj_id p0) None)
          ∧ StopCompressor.compress ps
            = Ok (mkCompressedStop
                    (mkPoint (py_sum (lat <$> ps) / INR (length ps))
                             (py_sum (lon <$> ps) / INR (length ps))
                             (timestamp p0) (obj_id p0) None)
                    (timestamp p0) (timestamp pl)).
Proof.
  intros Hinit.
  destruct (process_ok D T grid self trajectory Hinit) as (segs & Hp & _ & _).
  exists segs. split; [assumption|].
  destruct (process_shape self trajectory segs (init_sp _ _ _ _ Hinit) Hp)
    as [_ Hwf].
  intros ps c Hin. rewrite Forall_forall in Hwf.
  apply stop_wf_compress. apply (Hwf _ Hin).
Qed.

Lemma step_stops_compress_witness :
  ∃ segs,
    STEPSegmenter.process
      (STEPSegmenter.mk 50 60 (sqrt 2 / 4 * 50) ((50 / (sqrt 2 / 4 * 50)) ^ 2)
         None None [] 0 None None)
      [mkPoint 0 0 0 "a" None; mkPoint 0 0 100 "a" None] = Ok segs
    ∧ ∀ ps c, Stop ps c ∈ segs →
        ∃ p0 pl,
          head ps = Some p0 ∧ last ps = Some pl
          ∧ c = Some (mkPoint (py_sum (lat <$> ps) / INR (length ps))
                              (py_sum (lon <$> ps) / INR (length ps))
                              (timestamp p0) (obj_id p0) None)
          ∧ StopCompressor.compress ps
            = Ok (mkCompressedStop
                    (mkPoint (py_sum (lat <$> ps) / INR (length ps))
                             (py_sum (lon <$> ps) / INR (length ps))
                             (timestamp p0) (obj_id p0) None)
                    (timestamp p0) (timestamp pl)).
Proof.
  apply (step_stops_compress 50 60 None).
  apply step_init_default. lra.
Defined.

(** X10. [process] never emits two Moves in a row: between two Stops,
    before the first and after the last there is at most one Move. *)
Theorem step_no_adjacent_moves
    (D T : R) (grid : option R) (self : STEPSegmenter.t)
    (trajectory : list Point) :
  STEPSegmenter.__init__ D T grid = Ok self →
  ∃ segs,
    STEPSegmenter.process self trajectory = Ok segs
    ∧ no_adjacent_moves segs.
Proof.
  intros Hinit.
  destruct (process_ok D T grid self trajectory Hinit) as (segs & Hp & _ & _).
  exists segs. split; [assumption|].
  apply (process_shape self trajectory segs (init_sp _ _ _ _ Hinit) Hp).
Qed.

Lemma step_no_adjacent_moves_witness :
  ∃ segs,
    STEPSegmenter.process
      (STEPSegmenter.mk 50 60 (sqrt 2 / 4 * 50) ((50 / (sqrt 2 / 4 * 50)) ^ 2)
         None None [] 0 None None)
      [mkPoint 0 0 0 "a" None; mkPoint 0 0 100 "a" None] = Ok segs
    ∧ no_adjacent_moves segs.
Proof.
  apply (step_no_adjacent_moves 50 60 None).
  apply step_init_default. lra.
Defined.

(** X11. In streaming use, whatever was fed before, one call of
    [process_point] succeeds and hands out at most two segments: nothing,
    one Move, one Stop, or a Stop followed by a Move; none of them is
    empty. *)
Theorem step_call_output
    (D T : R) (grid : option R) (self0 self : STEPSegmenter.t)
    (fed : list Point) (segs0 : list Segment) (p : Point) :
  STEPSegmenter.__init__ D T grid = Ok self0 →
  STEPSegmenter.process_points self0 fed = Ok (self, segs0) →
  ∃ self' segs,
    STEPSegmenter.process_point self p = Ok (self', segs)
    ∧ call_shape segs
    ∧ Forall seg_ok segs.
Proof.
  intros Hinit Hfed.
  destruct (process_points_ok fed [] [] self0 (init_sinv _ _ _ _ Hinit))
    as (self1 & s1 & H1 & Hinv & _).
  rewrite Hfed in H1. inversion H1. subst self1 s1. clear H1.
  destruct (process_point_ok _ _ _ p Hinv) as (self' & segs & Hp & _ & Hok).
  exists self', segs. split; [assumption|]. split; [|assumption].
  destruct (process_point_shape _ _ _ _ Hp)
    as [_ [[-> _]|[(m & -> & _)|[(ps & c & ->)|(ps & c & m & -> & _)]]]];
    constructor.
Qed.

Lemma step_call_output_witness :
  ∃ self' segs,
    STEPSegmenter.process_point
      (STEPSegmenter.mk 50 60 (sqrt 2 / 4 * 50) ((50 / (sqrt 2 / 4 * 50)) ^ 2)
         None None [] 0 None None)
      (mkPoint 0 0 0 "a" None) = Ok (self', segs)
    ∧ call_shape segs
    ∧ Forall seg_ok segs.
Proof.
  apply (step_call_output 50 60 None
           (STEPSegmenter.mk 50 60 (sqrt 2 / 4 * 50)
              ((50 / (sqrt 2 / 4 * 50)) ^ 2) None None [] 0 None None)
           _ [] []).
  - apply step_init_default. lra.
  - reflexivity.
Defined.

Lemma flush_state (self self' : STEPSegmenter.t) (segs : list Segment) :
  STEPSegmenter.flush self = Ok (self', segs) →
  self' = STEPSegmenter.set_sp
            (STEPSegmenter.set_cache self [] (STEPSegmenter.cache_offset self))
            None None.
Proof.
  unfold STEPSegmenter.flush.
  destruct (match STEPSegmenter.current_sp_start self with
            | Some _ => _
            | None => _
            end) as [x| |]; cbn [mbind result_bind]; try discriminate.
  intros H. inversion H. reflexivity.
Qed.

(** X12. [flush] leaves the segmenter ready for a new stream: the cache
    is empty, no stay point is open, and a trajectory processed
    afterwards is again cut into non-empty segments that, laid end to
    end, are that trajectory. *)
Theorem step_flush_reuse
    (D T : R) (grid : option R) (self0 self1 self2 : STEPSegmenter.t)
    (first second : list Point) (s1 s2 : list Segment) :
  STEPSegmenter.__init__ D T grid = Ok self0 →
  STEPSegmenter.process_points self0 first = Ok (self1, s1) →
  STEPSegmenter.flush self1 = Ok (self2, s2) →
  STEPSegmenter.cache self2 = []
  ∧ STEPSegmenter.current_sp_start self2 = None
  ∧ STEPSegmenter.current_sp_end self2 = None
  ∧ ∃ segs,
      STEPSegmenter.process self2 second = Ok segs
      ∧ emitted segs = second
      ∧ Forall seg_ok segs.
Proof.
  intros Hinit Hfed Hflush.
  destruct (process_points_ok first [] [] self0 (init_sinv _ _ _ _ Hinit))
    as (self1' & s1' & H1 & Hinv & _).
  rewrite Hfed in H1. inversion H1. subst self1' s1'. clear H1.
  apply flush_state in Hflush. subst self2.
  split; [reflexivity|]. split; [reflexivity|]. split; [reflexivity|].
  destruct Hinv as [Hcov Hoff Hsp Horg Hg].
  set (self2 := STEPSegmenter.set_sp
                  (STEPSegmenter.set_cache self1 []
                     (STEPSegmenter.cache_offset self1)) None None).
  assert (Hinv2 : sinv ([] ++ emitted s1) ([] ++ emitted s1) self2).
  { split; simpl.
    - apply app_nil_r.
    - exact Hoff.
    - left. reflexivity.
    - congruence.
    - exact Hg. }
  destruct (process_points_ok second _ _ self2 Hinv2)
    as (self3 & s3 & H3 & Hinv3 & Hok3).
  destruct (flush_ok _ _ _ Hinv3) as (self4 & s4 & H4 & Hcov4 & Hok4).
  exists (s3 ++ s4). unfold STEPSegmenter.process.
  rewrite H3. cbn [mbind result_bind]. rewrite H4. cbn [mbind result_bind].
  split; [reflexivity|]. split; [|apply Forall_app; split; assumption].
  rewrite emitted_app. rewrite <- app_assoc in Hcov4.
  apply app_inv_head in Hcov4. exact Hcov4.
Qed.

Lemma step_flush_reuse_witness :
  STEPSegmenter.cache
    (STEPSegmenter.set_sp
         (STEPSegmenter.set_cache
            (STEPSegmenter.mk 50 60 (sqrt 2 / 4 * 50)
               ((50 / (sqrt 2 / 4 * 50)) ^ 2) None None [] 0 None None)
            [] 0) None None) = []
  ∧ STEPSegmenter.current_sp_start
      (STEPSegmenter.set_sp
         (STEPSegmenter.set_cache
            (STEPSegmenter.mk 50 60 (sqrt 2 / 4 * 50)
               ((50 / (sqrt 2 / 4 * 50)) ^ 2) None None [] 0 None None)
            [] 0) None None) = None
  ∧ STEPSegmenter.current_sp_end
      (STEPSegmenter.set_sp
         (STEPSegmenter.set_cache
            (STEPSegmenter.mk 50 60 (sqrt 2 / 4 * 50)
               ((50 / (sqrt 2 / 4 * 50)) ^ 2) None None [] 0 None None)
            [] 0) None None) = None
  ∧ ∃ segs,
      STEPSegmenter.process
        (STEPSegmenter.set_sp
         (STEPSegmenter.set_cache
            (STEPSegmenter.mk 50 60 (sqrt 2 / 4 * 50)
               ((50 / (sqrt 2 / 4 * 50)) ^ 2) None None [] 0 None None)
            [] 0) None None)
        [mkPoint 0 0 0 "a" None] = Ok segs
      ∧ emitted segs = [mkPoint 0 0 0 "a" None]
      ∧ Forall seg_ok segs.
Proof.
  apply (step_flush_reuse 50 60 None
           (STEPSegmenter.mk 50 60 (sqrt 2 / 4 * 50)
              ((50 / (sqrt 2 / 4 * 50)) ^ 2) None None [] 0 None None)
           (STEPSegmenter.mk 50 60 (sqrt 2 / 4 * 50)
              ((50 / (sqrt 2 / 4 * 50)) ^ 2) None None [] 0 None None)
           _ [] [mkPoint 0 0 0 "a" None] [] []).
  - apply step_init_default. lra.
  - reflexivity.
  - reflexivity.
Defined.

(** ** STEP: a Stop lasts at least [min_duration_seconds] *)

Lemma non_decreasing_le (l : list Point) (i j : nat) (a b : Point) :
  non_decreasing l → i ≤ j → l !! i = Some a → l !! j = Some b →
  (timestamp a <= timestamp b)%R.
Proof.
  intros Hnd Hij Ha. revert b. induction Hij as [|j Hij IH]; intros b Hb.
  - rewrite Ha in Hb. inversion Hb. lra.
  - destruct (lookup_lt_is_Some_2 l j) as [x Hx].
    { apply lookup_lt_Some in Hb. lia. }
    apply Rle_trans with (timestamp x); [apply IH; assumption|].
    apply (Hnd j); assumption.
Qed.

Section step_duration.
Import STEPSegmenter.

(** The open stay point, if any, already spans [T] seconds. *)
Definition dinv (T : R) (self : t) : Prop :=
  min_duration_seconds self = T
  ∧ ∀ e, is_Some (current_sp_start self) → current_sp_end self = Some e →
      ∃ a b, (pt <$> cache self) !! 0 = Some a
             ∧ (pt <$> cache self) !! Z.to_nat (e - cache_offset self)
               = Some b
             ∧ (T <= timestamp b - timestamp a)%R.

Lemma lookup_pt_app_l (c1 r : list item) (k : nat) :
  k < length c1 → (pt <$> c1 ++ r) !! k = (pt <$> c1) !! k.
Proof.
  intros H. rewrite fmap_app, lookup_app_l by (rewrite length_fmap; lia).
  reflexivity.
Qed.

Lemma lookup_pt_app_r (c1 r : list item) (k : nat) :
  length c1 ≤ k → (pt <$> c1 ++ r) !! k = (pt <$> r) !! (k - length c1).
Proof.
  intros H. rewrite fmap_app, lookup_app_r by (rewrite length_fmap; lia).
  rewrite length_fmap. reflexivity.
Qed.

Lemma stop_long_prefix (T : R) (c1 r : list item) (a b : Point) (n : nat)
    (stop : Segment) :
  (pt <$> c1 ++ r) !! 0 = Some a → (pt <$> c1 ++ r) !! n = Some b →
  length c1 = S n → (T <= timestamp b - timestamp a)%R →
  _create_stop (pt <$> c1) = Ok stop →
  stop_long T stop.
Proof.
  intros Ha Hb Hn HT Hc.
  destruct (create_stop_inv _ _ Hc) as [[c ->] _]. simpl.
  exists a, b. rewrite lookup_pt_app_l in Ha, Hb by lia.
  split; [rewrite head_lookup; exact Ha|].
  split; [|exact HT].
  rewrite last_lookup, length_fmap, Hn. exact Hb.
Qed.

Lemma Forall_stop_long_move (T : R) (m : list Point) :
  Forall (stop_long T) (move_of m).
Proof. destruct m; repeat constructor. Qed.

Lemma get_point_lookup (self : t) (k : Z) (p : Point) :
  (cache_offset self ≤ k)%Z → _get_point self k = Ok p →
  (pt <$> cache self) !! Z.to_nat (k - cache_offset self) = Some p.
Proof.
  intros Hk. unfold _get_point, py_index.
  destruct (Z.ltb_spec (k - cache_offset self) 0); [lia|].
  destruct (Z.ltb_spec (k - cache_offset self) 0); [lia|].
  rewrite list_lookup_fmap.
  destruct (cache self !! Z.to_nat (k - cache_offset self)) as [it|];
    cbn [mbind result_bind]; [|discriminate].
  intros Heq. inversion Heq. reflexivity.
Qed.

Lemma handling_dur (T : R) (self self' : t) (p : Point) (Is : option Z)
    (segs : list Segment) :
  min_duration_seconds self = T →
  last (pt <$> cache self) = Some p →
  non_decreasing (pt <$> cache self) →
  (current_sp_start self = None
   ∨ (current_sp_start self = Some (cache_offset self)
      ∧ ∃ e, current_sp_end self = Some e
             ∧ (cache_offset self ≤ e
                < cache_offset self + len (cache self))%Z
             ∧ ∃ a b,
                 (pt <$> cache self) !! 0 = Some a
                 ∧ (pt <$> cache self) !! Z.to_nat (e - cache_offset self)
                   = Some b
                 ∧ (T <= timestamp b - timestamp a)%R)) →
  (∀ i, Is = Some i →
        (cache_offset self ≤ i
         ≤ cache_offset self + len (cache self) - 1)%Z
        ∧ ∃ p_i, (pt <$> cache self) !! Z.to_nat (i - cache_offset self)
                 = Some p_i
                 ∧ (T <= timestamp p - timestamp p_i)%R) →
  segmentation_handling self p
    (cache_offset self + len (cache self) - 1) Is = Ok (self', segs) →
  dinv T self' ∧ Forall (stop_long T) segs.
Proof.
  intros HT Hlast Hnd Hsp HIs.
  set (c := (cache_offset self + len (cache self) - 1)%Z) in *.
  assert (Hlastk : (pt <$> cache self) !! pred (length (cache self))
                   = Some p).
  { rewrite last_lookup, length_fmap in Hlast. exact Hlast. }
  assert (Hnew : ∀ (i : Z) (c12 c3 : list item) (p_i : Point),
            cache self = c12 ++ c3 → len c12 = (i - cache_offset self)%Z →
            (pt <$> cache self) !! Z.to_nat (i - cache_offset self)
            = Some p_i →
            (T <= timestamp p - timestamp p_i)%R →
            dinv T (set_cache (set_sp self (Some i) (Some c)) c3 i)).
  { intros i c12 c3 p_i Hc Hl Hpi Hdur. split; [exact HT|].
    cbn [cache cache_offset set_cache set_sp current_sp_start
         current_sp_end].
    intros e _ He. inversion He. subst e. clear He.
    exists p_i, p.
    assert (Hlen : length (cache self) = length c12 + length c3)
      by (rewrite Hc, length_app; reflexivity).
    assert (Hn12 : Z.to_nat (i - cache_offset self) = length c12)
      by (unfold len in Hl; lia).
    rewrite Hn12, Hc, lookup_pt_app_r, Nat.sub_diag in Hpi by lia.
    assert (0 < length c3).
    { apply lookup_lt_Some in Hpi. rewrite length_fmap in Hpi. exact Hpi. }
    split; [exact Hpi|]. split; [|exact Hdur].
    rewrite Hc, lookup_pt_app_r in Hlastk by (rewrite length_app; lia).
    rewrite <- Hlastk. f_equal. rewrite length_app.
    unfold c, len in *. lia. }
  unfold segmentation_handling.
  destruct Is as [i|].
  - destruct (HIs i eq_refl) as (Hi & p_i & Hpi & Hdur).
    destruct Hsp as [Hs|(Hs & e & He & Her & a & b & Ha & Hb & Hab)].
    + (* case 1.3 *)
      rewrite Hs.
      destruct (split_at (cache self) (i - cache_offset self))
        as (c2 & c3 & Hc & Hl2); [unfold c in Hi; lia|].
      rewrite (prune_at (set_sp self (Some i) (Some c)) i c2 c3)
        by (simpl; first [exact Hc | lia]).
      intros H. inversion H. subst self' segs. clear H.
      split; [|apply Forall_stop_long_move].
      apply (Hnew i c2 c3 p_i Hc Hl2 Hpi Hdur).
    + rewrite Hs, He.
      destruct (Z.leb_spec i e) as [Hie|Hie].
      * (* case 1.2 *)
        intros H. inversion H. subst self' segs. clear H.
        split; [|constructor]. split; [exact HT|].
        cbn [cache cache_offset set_sp current_sp_start current_sp_end].
        intros e' _ He'. inversion He'. subst e'. clear He'.
        exists a, p. split; [exact Ha|].
        split.
        -- rewrite <- Hlastk. f_equal. unfold c, len. lia.
        -- assert (timestamp b <= timestamp p)%R; [|lra].
           apply (non_decreasing_le (pt <$> cache self)
                    (Z.to_nat (e - cache_offset self))
                    (pred (length (cache self)))); try assumption.
           unfold len in Her. lia.
      * (* case 1.1 *)
        destruct (split_at (cache self) (e - cache_offset self + 1))
          as (c1 & r & Hc & Hl1); [lia|].
        destruct (split_at r (i - e - 1)) as (c2 & c3 & Hr & Hl2).
        { assert (len (cache self) = (len c1 + len r)%Z)
            by (rewrite Hc, len_app; reflexivity).
          unfold c in Hi. lia. }
        rewrite (get_points_at self (cache_offset self) e [] c1 r Hc)
          by (unfold len at 1; simpl; lia).
        destruct (_create_stop (pt <$> c1)) as [stop| |] eqn:Hstop;
          cbn [mbind result_bind]; try discriminate.
        subst r.
        rewrite (prune_at (set_sp self (Some i) (Some c)) i (c1 ++ c2) c3)
          by (simpl; first [rewrite <- app_assoc; exact Hc
                           | rewrite len_app; lia]).
        intros H. inversion H. subst self' segs. clear H.
        split.
        -- apply (Hnew i (c1 ++ c2) c3 p_i); try assumption.
           ++ rewrite <- app_assoc. exact Hc.
           ++ rewrite len_app. lia.
        -- constructor; [|apply Forall_stop_long_move].
           rewrite Hc in Ha, Hb.
           apply (stop_long_prefix T c1 (c2 ++ c3) a b
                    (Z.to_nat (e - cache_offset self))); try assumption.
           unfold len in Hl1. lia.
  - destruct Hsp as [Hs|(Hs & e & He & Her & a & b & Ha & Hb & Hab)].
    + rewrite Hs. intros H. inversion H. subst self' segs. clear H.
      split; [|constructor]. split; [exact HT|].
      intros e [x Hx]. congruence.
    + rewrite Hs, He.
      destruct (_get_point self e) as [pe| |]; cbn [mbind result_bind];
        try discriminate.
      destruct (Rltb _ _).
      * (* case 2.1 *)
        destruct (split_at (cache self) (e - cache_offset self + 1))
          as (c1 & c3 & Hc & Hl1); [lia|].
        rewrite (get_points_at self (cache_offset self) e [] c1 c3 Hc)
          by (unfold len at 1; simpl; lia).
        destruct (_create_stop (pt <$> c1)) as [stop| |] eqn:Hstop;
          cbn [mbind result_bind]; try discriminate.
        rewrite (prune_at self (e + 1) c1 c3 Hc) by lia.
        intros H. inversion H. subst self' segs. clear H.
        split.
        -- split; [exact HT|]. intros e' [x Hx]. discriminate.
        -- constructor; [|constructor].
           rewrite Hc in Ha, Hb.
           apply (stop_long_prefix T c1 c3 a b
                    (Z.to_nat (e - cache_offset self))); try assumption.
           unfold len in Hl1. lia.
      * intros H. inversion H. subst self' segs. clear H.
        split; [|constructor]. split; [exact HT|].
        intros e' _ He'. rewrite He in He'. inversion He'. subst e'.
        exists a, b. auto.
Qed.

Lemma detection_dur (self self2 : t) (p : Point) (Ie i : Z) :
  stay_point_detection self p = Ok (self2, Ie, Some i) →
  ∃ p_i, _get_point self2 i = Ok p_i
         ∧ (min_duration_seconds self <= timestamp p - timestamp p_i)%R.
Proof.
  unfold stay_point_detection.
  set (self1 := match cache self with
                | [] => set_origin self (radians (lat p)) (radians (lon p))
                | _ :: _ => self
                end).
  assert (H1 : min_duration_seconds self1 = min_duration_seconds self).
  { unfold self1. destruct (cache self); reflexivity. }
  destruct (grid_cell self1 p) as [[gx gy]| |]; cbn [mbind result_bind];
    try discriminate.
  destruct (search _ _ _ _ _) as [j| |]; cbn [mbind result_bind];
    try discriminate.
  destruct (_ <=? _)%Z; [|discriminate].
  destruct (_get_point _ _) as [pi| |] eqn:Hpi; cbn [mbind result_bind];
    try discriminate.
  destruct (Rleb _ _) eqn:Hle; [|discriminate].
  intros H. inversion H. subst. exists pi. split; [exact Hpi|].
  apply Rleb_true in Hle. simpl in Hle. rewrite H1 in Hle. exact Hle.
Qed.

Lemma process_point_dur (T : R) (pre em : list Point) (self self' : t)
    (p : Point) (segs : list Segment) :
  sinv pre em self → dinv T self → non_decreasing (pre ++ [p]) →
  process_point self p = Ok (self', segs) →
  dinv T self' ∧ Forall (stop_long T) segs.
Proof.
  intros [Hcov Hoff Hsp Horg Hg] [HT HD] Hnd Hp.
  destruct (detection_ok self p Hg Horg)
    as (self2 & gx & gy & Is & Hd & Hc & Ho & Hs & He & Hg2 & Hla & Hlo & HIs).
  unfold process_point in Hp. rewrite Hd in Hp. cbn [mbind result_bind] in Hp.
  assert (HL : pt <$> cache self2 = (pt <$> cache self) ++ [p]).
  { rewrite Hc, fmap_app. reflexivity. }
  assert (HT2 : min_duration_seconds self2 = T).
  { destruct Is as [i|].
    - rewrite <- HT. clear -Hd. unfold stay_point_detection in Hd.
      destruct (cache self);
        (destruct (grid_cell _ p) as [[gx gy]| |];
           cbn [mbind result_bind] in Hd; try discriminate;
         destruct (search _ _ _ _ _) as [j| |];
           cbn [mbind result_bind] in Hd; try discriminate;
         destruct (_ <=? _)%Z; [|discriminate];
         destruct (_get_point _ _) as [pi| |];
           cbn [mbind result_bind] in Hd; try discriminate;
         destruct (Rleb _ _); [|discriminate];
         inversion Hd; reflexivity).
    - rewrite <- HT. clear -Hd. unfold stay_point_detection in Hd.
      destruct (cache self);
        (destruct (grid_cell _ p) as [[gx gy]| |];
           cbn [mbind result_bind] in Hd; try discriminate;
         destruct (search _ _ _ _ _) as [j| |];
           cbn [mbind result_bind] in Hd; try discriminate;
         destruct (_ <=? _)%Z;
           [destruct (_get_point _ _) as [pi| |];
              cbn [mbind result_bind] in Hd; try discriminate;
            destruct (Rleb _ _); [discriminate|]|];
         inversion Hd; reflexivity). }
  apply (handling_dur T self2 self' p Is segs); try assumption.
  - rewrite HL. apply last_snoc.
  - rewrite HL. rewrite <- Hcov, <- app_assoc in Hnd.
    apply non_decreasing_app_r in Hnd. exact Hnd.
  - rewrite Hs, He, Ho.
    destruct Hsp as [Hn|(Hst & e & Hen & Her)]; [left; exact Hn|].
    right. split; [exact Hst|]. exists e. split; [exact Hen|].
    split; [rewrite Hc, len_app; unfold len in *; simpl; lia|].
    destruct (HD e) as (a & b & Ha & Hb & Hab);
      [rewrite Hst; eauto|exact Hen|].
    exists a, b. rewrite HL.
    split; [apply lookup_app_l_Some; exact Ha|].
    split; [apply lookup_app_l_Some; exact Hb|exact Hab].
  - intros i Hi. split; [apply HIs; exact Hi|]. subst Is.
    destruct (detection_dur _ _ _ _ _ Hd) as (p_i & Hpi & Hdur).
    exists p_i. split; [|rewrite <- HT; exact Hdur].
    apply get_point_lookup; [|exact Hpi].
    apply (HIs i eq_refl).
Qed.

Lemma process_points_dur (T : R) (traj : list Point) :
  ∀ (pre em : list Point) (self self' : t) (segs : list Segment),
  sinv pre em self → dinv T self → non_decreasing (pre ++ traj) →
  process_points self traj = Ok (self', segs) →
  dinv T self' ∧ Forall (stop_long T) segs.
Proof.
  induction traj as [|p traj IH]; intros pre em self self' segs Hinv HD Hnd Hp.
  - simpl in Hp. inversion Hp. subst. split; [assumption|constructor].
  - cbn [process_points] in Hp.
    destruct (process_point_ok pre em self p Hinv)
      as (self1 & s1 & H1 & Hinv1 & _).
    rewrite H1 in Hp. cbn [mbind result_bind] in Hp.
    destruct (process_points self1 traj) as [[self2 s2]| |] eqn:H2;
      cbn [mbind result_bind] in Hp; try discriminate.
    inversion Hp. subst. clear Hp.
    replace (pre ++ p :: traj) with ((pre ++ [p]) ++ traj) in Hnd
      by (rewrite <- app_assoc; reflexivity).
    destruct (process_point_dur T pre em self self1 p s1 Hinv HD)
      as [HD1 Hs1]; [apply (non_decreasing_app_l _ _ Hnd)|exact H1|].
    destruct (IH _ _ _ _ _ Hinv1 HD1 Hnd H2) as [HD2 Hs2].
    split; [exact HD2|]. apply Forall_app. split; assumption.
Qed.

Lemma flush_dur (T : R) (pre em : list Point) (self self' : t)
    (segs : list Segment) :
  sinv pre em self → dinv T self →
  flush self = Ok (self', segs) →
  Forall (stop_long T) segs.
Proof.
  intros [Hcov Hoff Hsp Horg Hg] [HT HD]. unfold flush.
  destruct Hsp as [Hs|(Hs & e & He & Her)].
  - rewrite Hs. cbn [mbind result_bind]. intros H. inversion H.
    apply Forall_stop_long_move.
  - rewrite Hs, He.
    destruct (HD e) as (a & b & Ha & Hb & Hab); [rewrite Hs; eauto|exact He|].
    destruct (split_at (cache self) (e - cache_offset self + 1))
      as (c1 & c3 & Hc & Hl1); [lia|].
    rewrite (get_points_at self (cache_offset self) e [] c1 c3 Hc)
      by (unfold len at 1; simpl; lia).
    destruct (_create_stop (pt <$> c1)) as [stop| |] eqn:Hstop;
      cbn [mbind result_bind]; try discriminate.
    intros H. inversion H. subst self' segs. clear H.
    constructor; [|apply Forall_stop_long_move].
    rewrite Hc in Ha, Hb.
    apply (stop_long_prefix T c1 c3 a b (Z.to_nat (e - cache_offset self)));
      try assumption.
    unfold len in Hl1. lia.
Qed.

End step_duration.

Lemma init_duration (D T : R) (grid : option R) (self : STEPSegmenter.t) :
  STEPSegmenter.__init__ D T grid = Ok self →
  STEPSegmenter.min_duration_seconds self = T.
Proof.
  unfold STEPSegmenter.__init__. destruct (Reqb _ 0); [discriminate|].
  intros H. inversion H. reflexivity.
Qed.

(** X13. On a time-ordered input every Stop that [process] emits spans
    at least [min_duration_seconds]: its last fix is at least that many
    seconds after its first. *)
Theorem step_stop_duration
    (D T : R) (grid : option R) (self : STEPSegmenter.t)
    (trajectory : list Point) :
  STEPSegmenter.__init__ D T grid = Ok self →
  non_decreasing trajectory →
  ∃ segs,
    STEPSegmenter.process self trajectory = Ok segs
    ∧ ∀ ps c, Stop ps c ∈ segs →
        ∃ a b, head ps = Some a ∧ last ps = Some b
               ∧ (T <= timestamp b - timestamp a)%R.
Proof.
  intros Hinit Hnd.
  pose proof (init_sinv _ _ _ _ Hinit) as Hinv.
  destruct (process_points_ok trajectory [] [] self Hinv)
    as (self1 & s1 & H1 & Hinv1 & _).
  destruct (flush_ok _ _ _ Hinv1) as (self2 & s2 & H2 & _ & _).
  assert (HD : dinv T self).
  { split; [apply (init_duration D T grid self Hinit)|].
    intros e [x Hx]. rewrite (init_sp D T grid self Hinit) in Hx.
    discriminate. }
  destruct (process_points_dur T trajectory [] [] self self1 s1 Hinv HD Hnd H1)
    as [HD1 Hs1].
  pose proof (flush_dur T _ _ self1 self2 s2 Hinv1 HD1 H2) as Hs2.
  exists (s1 ++ s2). unfold STEPSegmenter.process.
  rewrite H1. cbn [mbind result_bind]. rewrite H2. cbn [mbind result_bind].
  split; [reflexivity|].
  intros ps c Hin. apply elem_of_app in Hin.
  rewrite Forall_forall in Hs1, Hs2.
  destruct Hin as [Hin|Hin]; [apply (Hs1 _ Hin)|apply (Hs2 _ Hin)].
Qed.

Lemma step_stop_duration_witness :
  ∃ segs,
    STEPSegmenter.process
      (STEPSegmenter.mk 50 60 (sqrt 2 / 4 * 50) ((50 / (sqrt 2 / 4 * 50)) ^ 2)
         None None [] 0 None None)
      [mkPoint 0 0 0 "a" None; mkPoint 0 0 100 "a" None] = Ok segs
    ∧ ∀ ps c, Stop ps c ∈ segs →
        ∃ a b, head ps = Some a ∧ last ps = Some b
               ∧ (60 <= timestamp b - timestamp a)%R.
Proof.
  apply (step_stop_duration 50 60 None).
  - apply step_init_default. lra.
  - apply non_decreasing_two. simpl. lra.
Defined.

(** ** Sums, means and maxima *)




(** ** SED statistics on arbitrary input *)







(** ** Stop compression *)



(** ** The segment pipeline: STEP, then stop compression and SQUISH *)

Lemma compress_segment_ok (mc : SquishCompressor.t) (seg : Segment) :
  seg_wf seg →
  ∃ item,
    compress_segment seg mc = Ok item
    ∧ match seg, item with
      | Stop ps c, inl cs => c = Some (centroid cs)
      | Move ps, inr (Move out) =>
          out `sublist_of` ps
          ∧ len out
            = Z.min (len ps) (Z.max 10 (py_int (IZR (len ps) * (3 / 10))))
      | _, _ => False
      end.
Proof.
  destruct seg as [ps c|ps]; intros Hwf.
  - destruct (stop_wf_compress ps c Hwf) as (p0 & pl & _ & _ & Hc & Hcomp).
    unfold compress_segment. rewrite Hcomp. cbn [mbind result_bind].
    eexists. split; [reflexivity|]. exact Hc.
  - unfold compress_segment.
    destruct (compress_total mc ps
                (Some (Z.max 10 (py_int (IZR (len ps) * (3 / 10))))))
      as (out & Hc & Hsub & Hlen); [simpl; lia|].
    rewrite Hc. cbn [mbind result_bind].
    eexists. split; [reflexivity|]. split; assumption.
Qed.

(** X16. The demo pipeline never raises: every segment that STEP cuts
    out of a trajectory is accepted by [compress_segment].  A Stop comes
    back as the [CompressedStop] around the Stop's own centroid; a Move of
    [N] fixes comes back as a Move holding a subsequence of
    [min(N, max(10, int(0.3 N)))] of them. *)
Theorem pipeline_never_raises
    (D T : R) (grid : option R) (self : STEPSegmenter.t)
    (move_compressor : SquishCompressor.t) (trajectory : list Point) :
  STEPSegmenter.__init__ D T grid = Ok self →
  ∃ segs,
    STEPSegmenter.process self trajectory = Ok segs
    ∧ Forall (λ seg,
        ∃ item,
          compress_segment seg move_compressor = Ok item
          ∧ match seg, item with
            | Stop ps c, inl cs => c = Some (centroid cs)
            | Move ps, inr (Move out) =>
                out `sublist_of` ps
                ∧ len out
                  = Z.min (len ps)
                      (Z.max 10 (py_int (IZR (len ps) * (3 / 10))))
            | _, _ => False
            end) segs.
Proof.
  intros Hinit.
  destruct (process_ok D T grid self trajectory Hinit) as (segs & Hp & _ & _).
  exists segs. split; [assumption|].
  destruct (process_shape self trajectory segs (init_sp _ _ _ _ Hinit) Hp)
    as [_ Hwf].
  eapply Forall_impl; [exact Hwf|].
  intros seg Hseg. apply compress_segment_ok. exact Hseg.
Qed.

Lemma pipeline_never_raises_witness :
  ∃ segs,
    STEPSegmenter.process
      (STEPSegmenter.mk 50 60 (sqrt 2 / 4 * 50) ((50 / (sqrt 2 / 4 * 50)) ^ 2)
         None None [] 0 None None)
      [mkPoint 0 0 0 "a" None; mkPoint 0 0 100 "a" None] = Ok segs
    ∧ Forall (λ seg,
        ∃ item,
          compress_segment seg (SquishCompressor.mk 50) = Ok item
          ∧ match seg, item with
            | Stop ps c, inl cs => c = Some (centroid cs)
            | Move ps, inr (Move out) =>
                out `sublist_of` ps
                ∧ len out
                  = Z.min (len ps)
                      (Z.max 10 (py_int (IZR (len ps) * (3 / 10))))
            | _, _ => False
            end) segs.
Proof.
  apply (pipeline_never_raises 50 60 None).
  apply step_init_default. lra.
Defined.

(** ** The distance of the stay-point search *)

(** X17. [local_distance] is symmetric, never negative, and zero between
    two fixes at the same coordinates. *)
Theorem local_distance_metric (p q : Point) :
  local_distance p q = local_distance q p
  ∧ (0 <= local_distance p q)%R
  ∧ (lat p = lat q → lon p = lon q → local_distance p q = 0%R).
Proof.
  unfold local_distance. cbv zeta. split; [|split].
  - f_equal. f_equal.
    replace ((lat q + lat p) / 2)%R with ((lat p + lat q) / 2)%R by lra.
    unfold radians. field.
  - apply Rmult_le_pos; [lra|apply sqrt_pos].
  - intros Hlat Hlon. rewrite Hlat, Hlon.
    unfold radians.
    match goal with
    | |- (_ * sqrt ?e)%R = _ => replace e with 0%R by field
    end.
    rewrite sqrt_0. ring.
Qed.

Lemma local_distance_metric_witness :
  local_distance (mkPoint 1 2 0 "a" None) (mkPoint 1 2 5 "b" None)
  = local_distance (mkPoint 1 2 5 "b" None) (mkPoint 1 2 0 "a" None)
  ∧ (0 <= local_distance (mkPoint 1 2 0 "a" None)
            (mkPoint 1 2 5 "b" None))%R
  ∧ (lat (mkPoint 1 2 0 "a" None) = lat (mkPoint 1 2 5 "b" None) →
     lon (mkPoint 1 2 0 "a" None) = lon (mkPoint 1 2 5 "b" None) →
     local_distance (mkPoint 1 2 0 "a" None) (mkPoint 1 2 5 "b" None) = 0%R).
Proof.
  apply (local_distance_metric (mkPoint 1 2 0 "a" None)
           (mkPoint 1 2 5 "b" None)).
Defined.

(** ** STC: the last fix, a single road, and compressing twice *)

Lemma stc_reference_snoc (first final : Point) (interior : list Point) :
  stc_reference (first :: interior ++ [final])
  = if decide (last (first :: changes (road_id first) interior) = Some final)
    then first :: changes (road_id first) interior
    else (first :: changes (road_id first) interior) ++ [final].
Proof.
  unfold stc_reference. rewrite last_snoc.
  replace (length (interior ++ [final]) - 1) with (length interior)
    by (rewrite length_app; simpl; lia).
  rewrite take_app_length. reflexivity.
Qed.

Lemma stc_reference_last (points : list Point) :
  last (stc_reference points) = last points.
Proof.
  destruct points as [|first rest]; [reflexivity|].
  destruct (last rest) as [final|] eqn:El.
  - apply last_Some in El as [interior ->].
    rewrite stc_reference_snoc.
    change (first :: interior ++ [final])
      with ((first :: interior) ++ [final]).
    rewrite (last_snoc final (first :: interior)).
    destruct (decide _) as [Heq|Hne]; [exact Heq|apply last_snoc].
  - apply last_None in El. subst rest. reflexivity.
Qed.

Lemma changes_same (r : option road) (l : list Point) :
  Forall (λ p, road_id p = r) l → changes r l = [].
Proof.
  induction 1 as [|p l Hp Hl IH]; [reflexivity|].
  simpl. destruct (decide (road_id p ≠ r)); [congruence|].
  rewrite Hp. exact IH.
Qed.

Lemma changes_idem (l : list Point) : ∀ r : option road,
  changes r (changes r l) = changes r l.
Proof.
  induction l as [|p l IH]; intros r; [reflexivity|].
  simpl. destruct (decide (road_id p ≠ r)) as [Hne|Heq].
  - simpl. destruct (decide (road_id p ≠ r)); [|contradiction].
    rewrite IH. reflexivity.
  - apply dec_stable in Heq. rewrite Heq. apply IH.
Qed.

Lemma changes_app (l1 l2 : list Point) : ∀ r : option road,
  changes r (l1 ++ l2)
  = changes r l1
    ++ changes (match last l1 with Some q => road_id q | None => r end) l2.
Proof.
  induction l1 as [|p l1 IH]; intros r; [reflexivity|].
  assert (Hlast : match last (p :: l1) with
                  | Some q => road_id q
                  | None => r
                  end
                  = match last l1 with
                    | Some q => road_id q
                    | None => road_id p
                    end).
  { rewrite last_cons. destruct (last l1); reflexivity. }
  rewrite Hlast. cbn [app changes]. rewrite IH.
  destruct (decide (road_id p ≠ r)); reflexivity.
Qed.

Lemma stc_reference_idem (points : list Point) :
  stc_reference (stc_reference points) = stc_reference points.
Proof.
  destruct points as [|first rest]; [reflexivity|].
  destruct (last rest) as [final|] eqn:El;
    [|apply last_None in El; subst rest; reflexivity].
  apply last_Some in El as [interior ->].
  rewrite stc_reference_snoc.
  set (r := road_id first). set (C := changes r interior).
  assert (HC : changes r C = C) by apply changes_idem.
  destruct (decide (last (first :: C) = Some final)) as [Heq|Hne].
  - destruct (last C) as [x|] eqn:Ex;
      [|apply last_None in Ex; rewrite Ex; reflexivity].
    apply last_Some in Ex as [C' HC'].
    rewrite HC' in Heq, HC |- *.
    change (first :: C' ++ [x]) with ((first :: C') ++ [x]) in Heq.
    rewrite last_snoc in Heq. inversion Heq. subst x. clear Heq.
    rewrite changes_app in HC. cbn [changes] in HC.
    assert (Hr' : match last C' with
                  | Some q => road_id q
                  | None => r
                  end
                  = match last (first :: C') with
                    | Some q => road_id q
                    | None => r
                    end).
    { rewrite last_cons. destruct (last C'); reflexivity. }
    destruct (decide (road_id final
                      ≠ match last C' with
                        | Some q => road_id q
                        | None => r
                        end)) as [Hroad|Hroad].
    + apply app_inj_tail in HC as [HC _].
      rewrite stc_reference_snoc. fold r. rewrite HC.
      destruct (decide (last (first :: C') = Some final)) as [Hl|Hl];
        [|reflexivity].
      exfalso. apply Hroad. rewrite Hr', Hl. reflexivity.
    + exfalso. rewrite app_nil_r in HC.
      pose proof (sublist_length _ _ (changes_sublist r C')) as Hlen.
      rewrite HC, length_app in Hlen. simpl in Hlen. lia.
  - change ((first :: C) ++ [final]) with (first :: C ++ [final]).
    rewrite stc_reference_snoc. fold r. rewrite HC.
    destruct (decide (last (first :: C) = Some final)); [contradiction|].
    reflexivity.
Qed.

(** X18. [STCOracle.process] keeps the destination: the last fix of its
    output is the last fix of the segment, and the output is empty only
    for an empty segment. *)
Theorem stc_keeps_last (segment : Segment) :
  ∃ out,
    STCOracle.process segment = Ok out
    ∧ last out = last (seg_points segment)
    ∧ (out = [] ↔ seg_points segment = []).
Proof.
  exists (stc_reference (seg_points segment)).
  split; [apply process_reference|].
  split; [apply stc_reference_last|].
  pose proof (stc_reference_last (seg_points segment)) as Hl.
  split; intros H.
  - rewrite H in Hl. simpl in Hl. symmetry in Hl.
    apply last_None in Hl. exact Hl.
  - rewrite H. reflexivity.
Qed.

(** X19. On a segment whose fixes all carry the same [road_id] (for one,
    a trajectory that was never map-matched) the oracle keeps the two
    end points and nothing else: the first fix, and the last one unless
    it equals the first. *)
Theorem stc_single_road (segment : Segment) (r : option road) :
  Forall (λ p, road_id p = r) (seg_points segment) →
  ∃ out,
    STCOracle.process segment = Ok out
    ∧ length out ≤ 2
    ∧ ∀ first final,
        head (seg_points segment) = Some first →
        last (seg_points segment) = Some final →
        out = if decide (first = final) then [first] else [first; final].
Proof.
  intros Hall. exists (stc_reference (seg_points segment)).
  split; [apply process_reference|].
  destruct (seg_points segment) as [|first rest].
  { split; [simpl; lia|]. intros ? ? H. discriminate. }
  destruct (last rest) as [final|] eqn:El.
  - apply last_Some in El as [interior ->].
    rewrite stc_reference_snoc.
    inversion Hall as [|? ? Hf Hrest]. subst.
    apply Forall_app in Hrest as [Hint _].
    rewrite (changes_same (road_id first) interior Hint).
    change (last [first]) with (Some first).
    assert (Hout : (if decide (Some first = Some final)
                    then [first] else [first] ++ [final])
                   = if decide (first = final)
                     then [first] else [first; final]).
    { destruct (decide (Some first = Some final)) as [H|H];
        destruct (decide (first = final)) as [H'|H'];
        try reflexivity; congruence. }
    rewrite Hout. split.
    + destruct (decide (first = final)); simpl; lia.
    + intros f l Hh Hl. simpl in Hh. inversion Hh. subst f.
      change (first :: interior ++ [final])
        with ((first :: interior) ++ [final]) in Hl.
      rewrite last_snoc in Hl. inversion Hl. subst l. reflexivity.
  - apply last_None in El. subst rest. split; [simpl; lia|].
    intros f l Hh Hl. simpl in Hh, Hl. inversion Hh. inversion Hl. subst.
    destruct (decide (l = l)); [reflexivity|contradiction].
Qed.

Lemma stc_single_road_witness :
  ∃ out,
    STCOracle.process
      (Move [mkPoint 0 0 0 "a" None; mkPoint 1 0 1 "a" None;
             mkPoint 2 0 2 "a" None]) = Ok out
    ∧ length out ≤ 2
    ∧ ∀ first final,
        head (seg_points
                (Move [mkPoint 0 0 0 "a" None; mkPoint 1 0 1 "a" None;
                       mkPoint 2 0 2 "a" None])) = Some first →
        last (seg_points
                (Move [mkPoint 0 0 0 "a" None; mkPoint 1 0 1 "a" None;
                       mkPoint 2 0 2 "a" None])) = Some final →
        out = if decide (first = final) then [first] else [first; final].
Proof.
  apply (stc_single_road
           (Move [mkPoint 0 0 0 "a" None; mkPoint 1 0 1 "a" None;
                  mkPoint 2 0 2 "a" None]) None).
  repeat constructor.
Defined.

(** X20. Compressing twice changes nothing: run on a Move made of its own
    output, [STCOracle.process] returns that output again. *)
Theorem stc_idempotent (segment : Segment) :
  ∃ out,
    STCOracle.process segment = Ok out
    ∧ STCOracle.process (Move out) = Ok out.
Proof.
  exists (stc_reference (seg_points segment)).
  split; [apply process_reference|].
  rewrite process_reference. cbn [seg_points].
  rewrite stc_reference_idem. reflexivity.
Qed.

(** ** STEP: a trajectory too short to hold a stay point *)

Lemma detection_T (self self2 : STEPSegmenter.t) (p : Point) (Ie : Z)
    (Is : option Z) :
  STEPSegmenter.stay_point_detection self p = Ok (self2, Ie, Is) →
  STEPSegmenter.min_duration_seconds self2
  = STEPSegmenter.min_duration_seconds self.
Proof.
  unfold STEPSegmenter.stay_point_detection.
  set (self1 := match STEPSegmenter.cache self with
                | [] => STEPSegmenter.set_origin self (radians (lat p))
                          (radians (lon p))
                | _ :: _ => self
                end).
  assert (H1 : STEPSegmenter.min_duration_seconds self1
               = STEPSegmenter.min_duration_seconds self).
  { unfold self1. destruct (STEPSegmenter.cache self); reflexivity. }
  destruct (STEPSegmenter.grid_cell self1 p) as [[gx gy]| |];
    cbn [mbind result_bind]; try discriminate.
  destruct (STEPSegmenter.search _ _ _ _ _) as [j| |];
    cbn [mbind result_bind]; try discriminate.
  destruct (_ <=? _)%Z.
  - destruct (STEPSegmenter._get_point _ _) as [pi| |];
      cbn [mbind result_bind]; try discriminate.
    destruct (Rleb _ _); intros H; inversion H; subst; exact H1.
  - intros H; inversion H; subst; exact H1.
Qed.

Section step_short.
Import STEPSegmenter.

Variable T : R.

Lemma process_point_short (pre : list Point) (self : t) (p : Point) :
  sinv pre [] self → current_sp_start self = None →
  min_duration_seconds self = T →
  (∀ x, x ∈ pre ++ [p] → (timestamp p - timestamp x < T)%R) →
  ∃ self',
    process_point self p = Ok (self', [])
    ∧ sinv (pre ++ [p]) [] self'
    ∧ current_sp_start self' = None
    ∧ min_duration_seconds self' = T.
Proof.
  intros Hinv Hnone HT Hshort.
  pose proof Hinv as [Hcov Hoff Hsp Horg Hg].
  destruct (detection_ok self p Hg Horg)
    as (self2 & gx & gy & Is & Hd & Hc & Ho & Hs & He & Hg2 & Hla & Hlo & HIs).
  assert (HIsN : Is = None).
  { destruct Is as [i|]; [|reflexivity]. exfalso.
    destruct (detection_dur _ _ _ _ _ Hd) as (p_i & Hpi & Hdur).
    apply get_point_lookup in Hpi; [|apply (HIs i eq_refl)].
    apply list_elem_of_lookup_2 in Hpi.
    rewrite Hc, fmap_app in Hpi. simpl in Hcov. rewrite Hcov in Hpi.
    specialize (Hshort p_i Hpi). rewrite HT in Hdur. lra. }
  subst Is.
  assert (Hp : process_point self p = Ok (self2, [])).
  { unfold process_point. rewrite Hd. cbn [mbind result_bind].
    unfold segmentation_handling. rewrite Hs, Hnone. reflexivity. }
  exists self2. split; [exact Hp|].
  destruct (process_point_ok pre [] self p Hinv)
    as (self' & segs & Hp' & Hinv' & _).
  rewrite Hp in Hp'. inversion Hp'. subst self' segs.
  split; [exact Hinv'|]. split; [congruence|].
  rewrite (detection_T _ _ _ _ _ Hd). exact HT.
Qed.

Lemma process_points_short (traj : list Point) : ∀ (pre : list Point) (self : t),
  sinv pre [] self → current_sp_start self = None →
  min_duration_seconds self = T →
  (∀ x y, x ∈ pre ++ traj → y ∈ pre ++ traj →
          (timestamp y - timestamp x < T)%R) →
  ∃ self',
    process_points self traj = Ok (self', [])
    ∧ sinv (pre ++ traj) [] self'
    ∧ current_sp_start self' = None.
Proof.
  induction traj as [|p traj IH]; intros pre self Hinv Hnone HT Hshort.
  - exists self. rewrite app_nil_r. split; [reflexivity|].
    split; assumption.
  - replace (pre ++ p :: traj) with ((pre ++ [p]) ++ traj) in *
      by (rewrite <- app_assoc; reflexivity).
    destruct (process_point_short pre self p Hinv Hnone HT)
      as (self1 & H1 & Hinv1 & Hnone1 & HT1).
    { intros x Hx. apply Hshort.
      - apply elem_of_app. left. exact Hx.
      - apply elem_of_app. left. apply elem_of_app. right.
        apply list_elem_of_here. }
    destruct (IH (pre ++ [p]) self1 Hinv1 Hnone1 HT1 Hshort)
      as (self2 & H2 & Hinv2 & Hnone2).
    exists self2. cbn [process_points]. rewrite H1. cbn [mbind result_bind].
    rewrite H2. cbn [mbind result_bind].
    split; [reflexivity|]. split; assumption.
Qed.

Lemma flush_no_stay_point (pre em : list Point) (self : t) :
  sinv pre em self → current_sp_start self = None →
  ∃ self', flush self = Ok (self', move_of (pt <$> cache self)).
Proof.
  intros [Hcov Hoff Hsp Horg Hg] Hs. unfold flush. rewrite Hs.
  cbn [mbind result_bind].
  rewrite (get_points_at self (cache_offset self)
             (cache_offset self + len (cache self) - 1) [] (cache self) []);
    [|rewrite app_nil_r; reflexivity|unfold len; simpl; lia
     |unfold len; simpl; lia].
  eexists. reflexivity.
Qed.

End step_short.

(** X21. A trajectory in which no fix is [min_duration_seconds] or more
    later than another holds no stay point: [process] returns it whole,
    as one Move. *)
Theorem step_short_trajectory
    (D T : R) (grid : option R) (self : STEPSegmenter.t)
    (trajectory : list Point) :
  STEPSegmenter.__init__ D T grid = Ok self →
  trajectory ≠ [] →
  (∀ x y, x ∈ trajectory → y ∈ trajectory →
          (timestamp y - timestamp x < T)%R) →
  STEPSegmenter.process self trajectory = Ok [Move trajectory].
Proof.
  intros Hinit Hne Hshort.
  destruct (process_points_short T trajectory [] self)
    as (self1 & H1 & Hinv1 & Hnone1).
  - apply (init_sinv _ _ _ _ Hinit).
  - apply (init_sp _ _ _ _ Hinit).
  - apply (init_duration _ _ _ _ Hinit).
  - exact Hshort.
  - destruct (flush_no_stay_point _ _ _ Hinv1 Hnone1) as [self2 H2].
    unfold STEPSegmenter.process. rewrite H1. cbn [mbind result_bind].
    rewrite H2. cbn [mbind result_bind].
    destruct Hinv1 as [Hcov _ _ _ _]. simpl in Hcov. rewrite Hcov.
    destruct trajectory; [congruence|]. reflexivity.
Qed.

Lemma step_short_trajectory_witness :
  STEPSegmenter.process
    (STEPSegmenter.mk 50 60 (sqrt 2 / 4 * 50) ((50 / (sqrt 2 / 4 * 50)) ^ 2)
       None None [] 0 None None)
    [mkPoint 0 0 0 "a" None; mkPoint 0 0 10 "a" None]
  = Ok [Move [mkPoint 0 0 0 "a" None; mkPoint 0 0 10 "a" None]].
Proof.
  apply (step_short_trajectory 50 60 None).
  - apply step_init_default. lra.
  - discriminate.
  - intros x y Hx Hy.
    apply elem_of_cons in Hx as [->|Hx];
      [|apply list_elem_of_singleton in Hx as ->];
      (apply elem_of_cons in Hy as [->|Hy];
         [|apply list_elem_of_singleton in Hy as ->]);
      simpl; lra.
Defined.

(** ** STEP: an object that does not move *)

Lemma local_distance_same_coords (p q : Point) :
  lat p = lat q → lon p = lon q → local_distance p q = 0%R.
Proof.
  intros Hlat Hlon. unfold local_distance. cbv zeta. rewrite Hlat, Hlon.
  unfold radians.
  match goal with
  | |- (_ * sqrt ?e)%R = _ => replace e with 0%R by field
  end.
  rewrite sqrt_0. ring.
Qed.

Lemma py_index_elem {A : Type} (l : list A) (k : Z) (x : A) :
  py_index l k = Ok x → x ∈ l.
Proof.
  unfold py_index. destruct (_ <? 0)%Z; [discriminate|].
  destruct (l !! _) as [y|] eqn:E; [|discriminate].
  intros H. inversion H. subst y. apply (list_elem_of_lookup_2 _ _ _ E).
Qed.

Section step_stationary.
Import STEPSegmenter.

(** Every fix is at [(la, lo)]; [T] and [gv] are the segmenter's
    [min_duration_seconds] and [g]. *)
Variables la lo T gv : R.

(** The grid cell of [(la, lo)] seen from an origin at [(la, lo)]. *)
Definition cx : Z :=
  Int_part ((radians lo - radians lo) * 6371000 * cos (radians la) / gv).
Definition cy : Z := Int_part ((radians la - radians la) * 6371000 / gv).

Definition here (it : item) : Prop :=
  lat it.1.1 = la ∧ lon it.1.1 = lo ∧ it.1.2 = cx ∧ it.2 = cy.

Record stat (pre : list Point) (self : t) : Prop := {
  st_inv : sinv pre [] self;
  st_T : min_duration_seconds self = T;
  st_g : g self = gv;
  st_D : (0 <= max_eps self)%R;
  st_thr : (0 <= threshold_sq self)%R;
  st_here : Forall here (cache self);
  st_org : cache self ≠ [] →
           origin_lat self = Some (radians la)
           ∧ origin_lon self = Some (radians lo)
}.

Lemma pruned_same (self : t) (cc : Z * Z) :
  (0 <= threshold_sq self)%R → pruned self cc cc = false.
Proof.
  intros H. unfold pruned. rewrite !Z.sub_diag.
  change (IZR (Z.max 0 (Z.abs 0 - 1) ^ 2 + Z.max 0 (Z.abs 0 - 1) ^ 2))
    with 0%R.
  apply Rltb_false. exact H.
Qed.

Lemma search_stationary (self : t) (p : Point) :
  cache_offset self = 0%Z → Forall here (cache self) →
  (0 <= max_eps self)%R → (0 <= threshold_sq self)%R →
  lat p = la → lon p = lo →
  ∀ (fuel : nat) (i : Z),
    (-1 ≤ i < len (cache self))%Z → (i + 1 ≤ Z.of_nat fuel)%Z →
    search fuel self p (cx, cy) i = Ok (-1)%Z.
Proof.
  intros Hoff Hhere HD Hthr Hlat Hlon.
  induction fuel as [|fuel IH]; intros i Hi Hf; simpl; rewrite Hoff.
  - destruct (Z.ltb_spec i 0); [|lia]. f_equal. lia.
  - destruct (Z.ltb_spec i 0); [f_equal; lia|].
    destruct (get_item_in self i) as [[[p_i gx_i] gy_i] Hit]; [lia|].
    rewrite Hit. cbn [mbind result_bind].
    apply py_index_elem in Hit. rewrite Forall_forall in Hhere.
    destruct (Hhere _ Hit) as (Hla & Hlo & Hx & Hy). simpl in Hla, Hlo, Hx, Hy.
    subst gx_i gy_i.
    destruct (confirmed self (cx, cy) (cx, cy)); [apply IH; lia|].
    rewrite pruned_same by exact Hthr.
    rewrite local_distance_same_coords by congruence.
    rewrite (proj2 (Rleb_true 0 (max_eps self)) HD).
    apply IH; lia.
Qed.

Lemma grid_cell_here (self : t) (p : Point) :
  g self = gv → gv ≠ 0%R →
  origin_lat self = Some (radians la) → origin_lon self = Some (radians lo) →
  lat p = la → lon p = lo →
  grid_cell self p = Ok (cx, cy).
Proof.
  intros Hg Hg0 Hola Holo Hlat Hlon.
  unfold grid_cell, floordiv, dx_meters, dy_meters.
  rewrite Hola, Holo, Hg, Hlat, Hlon, (Reqb_false _ _ Hg0). reflexivity.
Qed.

Lemma detection_stationary (pre : list Point) (self : t) (p : Point) :
  stat pre self → lat p = la → lon p = lo →
  ∃ self2 p0,
    stay_point_detection self p
    = Ok (self2, (len (cache self2) - 1)%Z,
          if Rleb T (timestamp p - timestamp p0) then Some 0%Z else None)
    ∧ head (pre ++ [p]) = Some p0
    ∧ cache self2 = cache self ++ [(p, cx, cy)]
    ∧ cache_offset self2 = 0%Z
    ∧ current_sp_start self2 = current_sp_start self
    ∧ current_sp_end self2 = current_sp_end self
    ∧ min_duration_seconds self2 = T ∧ g self2 = gv
    ∧ max_eps self2 = max_eps self ∧ threshold_sq self2 = threshold_sq self
    ∧ origin_lat self2 = Some (radians la)
    ∧ origin_lon self2 = Some (radians lo).
Proof.
  intros [Hinv HT Hg HD Hthr Hhere Horg] Hlat Hlon.
  pose proof Hinv as [Hcov Hoff Hsp _ Hg0]. rewrite Hg in Hg0.
  change (len []) with 0%Z in Hoff. simpl in Hcov.
  unfold stay_point_detection.
  set (self1 := match cache self with
                | [] => set_origin self (radians (lat p)) (radians (lon p))
                | _ :: _ => self
                end).
  assert (H1 : cache self1 = cache self ∧ cache_offset self1 = 0%Z
               ∧ current_sp_start self1 = current_sp_start self
               ∧ current_sp_end self1 = current_sp_end self
               ∧ min_duration_seconds self1 = T ∧ g self1 = gv
               ∧ max_eps self1 = max_eps self
               ∧ threshold_sq self1 = threshold_sq self
               ∧ origin_lat self1 = Some (radians la)
               ∧ origin_lon self1 = Some (radians lo)).
  { unfold self1. destruct (cache self) eqn:E.
    - simpl. rewrite E, Hlat, Hlon. repeat split; assumption.
    - rewrite E. destruct Horg as [? ?]; [discriminate|].
      repeat split; assumption. }
  destruct H1 as (Hc1 & Ho1 & Hs1 & He1 & HT1 & Hg1 & HD1 & Hthr1 & Hola & Holo).
  rewrite (grid_cell_here self1 p Hg1 Hg0 Hola Holo Hlat Hlon).
  cbn [mbind result_bind].
  set (self2 := set_cache self1 (cache self1 ++ [(p, cx, cy)])
                          (cache_offset self1)).
  assert (Hc2 : cache self2 = cache self ++ [(p, cx, cy)]).
  { unfold self2. simpl. rewrite Hc1. reflexivity. }
  assert (Ho2 : cache_offset self2 = 0%Z) by exact Ho1.
  assert (Hlen : len (cache self2) = (len (cache self) + 1)%Z).
  { rewrite Hc2, len_app. reflexivity. }
  pose proof (len_nonneg (cache self)) as Hnn.
  assert (Hhere2 : Forall here (cache self2)).
  { rewrite Hc2. apply Forall_app. split; [exact Hhere|].
    constructor; [|constructor]. repeat split; assumption. }
  rewrite Ho2.
  rewrite (search_stationary self2 p Ho2 Hhere2)
    by (first [assumption | unfold self2; simpl; congruence
              | lia | unfold len; lia]).
  cbn [mbind result_bind].
  change (-1 <? 0)%Z with true. cbv iota.
  destruct (Z.leb_spec 0 (0 + len (cache self2) - 1)); [|lia].
  assert (Hp0 : ∃ p0, head (pre ++ [p]) = Some p0
                      ∧ _get_point self2 0 = Ok p0).
  { unfold _get_point. rewrite Ho2, Hc2. rewrite <- Hcov.
    destruct (cache self) as [|[[q gx] gy] rest]; simpl.
    - exists p. split; reflexivity.
    - exists q. split; reflexivity. }
  destruct Hp0 as (p0 & Hh & Hget). rewrite Hget. cbn [mbind result_bind].
  exists self2, p0.
  replace (0 + len (cache self2) - 1)%Z with (len (cache self2) - 1)%Z by lia.
  replace (min_duration_seconds self2) with T
    by (unfold self2; simpl; congruence).
  split.
  { destruct (Rleb T (timestamp p - timestamp p0)); reflexivity. }
  split; [exact Hh|]. split; [exact Hc2|]. split; [exact Ho2|].
  unfold self2. simpl. repeat split; assumption.
Qed.

Lemma get_point_here (self : t) (k : Z) :
  cache_offset self = 0%Z → Forall here (cache self) →
  (0 ≤ k < len (cache self))%Z →
  ∃ q, _get_point self k = Ok q ∧ lat q = la ∧ lon q = lo.
Proof.
  intros Hoff Hhere Hk. unfold _get_point. rewrite Hoff.
  destruct (py_index_in (cache self) (k - 0)) as [it Hit]; [lia|].
  rewrite Hit. cbn [mbind result_bind].
  apply py_index_elem in Hit. rewrite Forall_forall in Hhere.
  destruct (Hhere _ Hit) as (Hla & Hlo & _).
  exists it.1.1. split; [reflexivity|]. split; assumption.
Qed.

Lemma process_point_stationary (pre : list Point) (self : t) (p : Point) :
  stat pre self → lat p = la → lon p = lo →
  ∃ self' p0,
    process_point self p = Ok (self', [])
    ∧ stat (pre ++ [p]) self'
    ∧ head (pre ++ [p]) = Some p0
    ∧ ((T <= timestamp p - timestamp p0)%R →
       current_sp_start self' = Some 0%Z
       ∧ current_sp_end self' = Some (len (cache self') - 1)%Z).
Proof.
  intros Hstat Hlat Hlon.
  destruct (detection_stationary pre self p Hstat Hlat Hlon)
    as (self2 & p0 & Hd & Hh & Hc2 & Ho2 & Hs2 & He2 & HT2 & Hg2 & HD2 & Hthr2
        & Hola2 & Holo2).
  destruct Hstat as [Hinv HT Hg HD Hthr Hhere Horg].
  pose proof Hinv as [Hcov Hoff Hsp _ Hg0].
  change (len []) with 0%Z in Hoff.
  assert (Hhere2 : Forall here (cache self2)).
  { rewrite Hc2. apply Forall_app. split; [exact Hhere|].
    constructor; [|constructor]. repeat split; assumption. }
  assert (Hlen2 : len (cache self2) = (len (cache self) + 1)%Z).
  { rewrite Hc2, len_app. reflexivity. }
  pose proof (len_nonneg (cache self)) as Hnn.
  assert (Hres : ∃ self',
            segmentation_handling self2 p (len (cache self2) - 1)
              (if Rleb T (timestamp p - timestamp p0) then Some 0%Z else None)
            = Ok (self', [])
            ∧ cache self' = cache self2 ∧ cache_offset self' = 0%Z
            ∧ min_duration_seconds self' = T ∧ g self' = gv
            ∧ max_eps self' = max_eps self2
            ∧ threshold_sq self' = threshold_sq self2
            ∧ origin_lat self' = origin_lat self2
            ∧ origin_lon self' = origin_lon self2
            ∧ ((T <= timestamp p - timestamp p0)%R →
               current_sp_start self' = Some 0%Z
               ∧ current_sp_end self' = Some (len (cache self') - 1)%Z)).
  { unfold segmentation_handling.
    destruct (Rleb T (timestamp p - timestamp p0)) eqn:Hle.
    - rewrite Hs2, He2.
      destruct Hsp as [Hs|(Hs & e & He & Her)].
      + rewrite Hs, Ho2.
        change (_get_points self2 0 (0 - 1)) with (@nil Point).
        unfold _prune_cache. cbn [cache_offset set_sp]. rewrite Ho2.
        change (0 <? 0)%Z with false. cbv iota.
        eexists. split; [reflexivity|]. simpl.
        repeat (split; [first [assumption | reflexivity]|]).
        reflexivity.
      + rewrite Hs, He, Hoff.
        destruct (Z.leb_spec 0 e); [|lia].
        eexists. split; [reflexivity|]. simpl.
        repeat (split; [first [assumption | reflexivity]|]).
        reflexivity.
    - rewrite Hs2, He2.
      destruct Hsp as [Hs|(Hs & e & He & Her)].
      + rewrite Hs. exists self2. split; [reflexivity|].
        repeat (split; [first [assumption | reflexivity]|]).
        intros HTle. apply Rleb_true in HTle. congruence.
      + rewrite Hs, He.
        destruct (get_point_here self2 e Ho2 Hhere2) as (pe & Hpe & Hla & Hlo);
          [lia|].
        rewrite Hpe. cbn [mbind result_bind].
        rewrite local_distance_same_coords by congruence.
        rewrite Rltb_false by (rewrite HD2; exact HD).
        exists self2. split; [reflexivity|].
        repeat (split; [first [assumption | reflexivity]|]).
        intros HTle. apply Rleb_true in HTle. congruence. }
  destruct Hres as (self' & Hh' & Hc' & Ho' & HT' & Hg' & HD' & Hthr'
                    & Hola' & Holo' & Hfin).
  assert (Hp : process_point self p = Ok (self', [])).
  { unfold process_point. rewrite Hd. cbn [mbind result_bind]. exact Hh'. }
  exists self', p0. split; [exact Hp|].
  destruct (process_point_ok pre [] self p Hinv)
    as (self'' & segs & Hp' & Hinv' & _).
  rewrite Hp in Hp'. inversion Hp'. subst self'' segs.
  split; [|split; [exact Hh|exact Hfin]].
  split; try assumption.
  - rewrite HD', HD2. exact HD.
  - rewrite Hthr', Hthr2. exact Hthr.
  - rewrite Hc'. exact Hhere2.
  - intros _. rewrite Hola', Holo'. split; assumption.
Qed.

Lemma process_points_stationary (traj : list Point) :
  ∀ (pre : list Point) (self : t),
  stat pre self → Forall (λ p, lat p = la ∧ lon p = lo) traj →
  ∃ self',
    process_points self traj = Ok (self', [])
    ∧ stat (pre ++ traj) self'
    ∧ ∀ a b, traj ≠ [] → head (pre ++ traj) = Some a →
             last traj = Some b → (T <= timestamp b - timestamp a)%R →
             current_sp_start self' = Some 0%Z
             ∧ current_sp_end self' = Some (len (cache self') - 1)%Z.
Proof.
  induction traj as [|p traj IH]; intros pre self Hstat Hall.
  - exists self. rewrite app_nil_r. split; [reflexivity|].
    split; [exact Hstat|]. intros a b Hne. congruence.
  - inversion Hall as [|? ? [Hlat Hlon] Hrest]. subst.
    destruct (process_point_stationary pre self p Hstat Hlat Hlon)
      as (self1 & p0 & H1 & Hstat1 & Hh1 & Hfin1).
    destruct (IH (pre ++ [p]) self1 Hstat1 Hrest)
      as (self2 & H2 & Hstat2 & Hfin2).
    exists self2. cbn [process_points]. rewrite H1. cbn [mbind result_bind].
    rewrite H2. cbn [mbind result_bind].
    replace (pre ++ p :: traj) with ((pre ++ [p]) ++ traj)
      by (rewrite <- app_assoc; reflexivity).
    split; [reflexivity|]. split; [exact Hstat2|].
    intros a b _ Ha Hb Hab.
    destruct traj as [|q traj].
    + simpl in Hb. inversion Hb. subst b.
      rewrite app_nil_r in Ha. rewrite Hh1 in Ha. inversion Ha. subst a.
      simpl in H2. inversion H2. subst self2. apply Hfin1. exact Hab.
    + apply (Hfin2 a b); [discriminate|exact Ha| |exact Hab].
      rewrite last_cons in Hb. destruct (last (q :: traj)) eqn:E;
        [exact Hb|apply last_None in E; discriminate].
Qed.

End step_stationary.

(** X22. An object that stays put is one Stop: when every fix of the
    trajectory has the same coordinates and the last one is at least
    [min_duration_seconds] after the first, [process] (with a distance
    threshold that is not negative) returns a single Stop that holds the
    whole trajectory. *)
Theorem step_stationary_single_stop
    (D T : R) (grid : option R) (self : STEPSegmenter.t)
    (trajectory : list Point) (la lo : R) (a b : Point) :
  STEPSegmenter.__init__ D T grid = Ok self →
  (0 <= D)%R →
  Forall (λ p, lat p = la ∧ lon p = lo) trajectory →
  head trajectory = Some a → last trajectory = Some b →
  (T <= timestamp b - timestamp a)%R →
  ∃ c, STEPSegmenter.process self trajectory = Ok [Stop trajectory (Some c)].
Proof.
  intros Hinit HD Hall Ha Hb Hab.
  assert (Hne : trajectory ≠ []) by (intros ->; discriminate).
  assert (Hstat : stat la lo T (STEPSegmenter.g self) [] self).
  { pose proof (init_sinv _ _ _ _ Hinit) as Hinv.
    pose proof (init_duration _ _ _ _ Hinit) as HT.
    unfold STEPSegmenter.__init__ in Hinit.
    destruct (Reqb _ 0); [discriminate|]. inversion Hinit. subst self.
    split; try assumption; simpl.
    - reflexivity.
    - apply pow2_ge_0.
    - constructor.
    - congruence. }
  destruct (process_points_stationary la lo T _ trajectory [] self Hstat Hall)
    as (self1 & H1 & Hstat1 & Hfin).
  destruct (Hfin a b Hne Ha Hb Hab) as [Hs He].
  destruct Hstat1 as [Hinv1 _ _ _ _ _ _].
  pose proof Hinv1 as [Hcov Hoff _ _ _].
  change (len []) with 0%Z in Hoff. simpl in Hcov.
  assert (Hlen : (0 < len (STEPSegmenter.cache self1))%Z).
  { unfold len. rewrite <- (length_fmap pt), Hcov.
    destruct trajectory; [congruence|simpl; lia]. }
  unfold STEPSegmenter.process. rewrite H1. cbn [mbind result_bind].
  unfold STEPSegmenter.flush. rewrite Hs, He.
  rewrite (get_points_at self1 0 (len (STEPSegmenter.cache self1) - 1) []
             (STEPSegmenter.cache self1) []);
    [|rewrite app_nil_r; reflexivity
     |rewrite Hoff; unfold len; simpl; lia
     |rewrite Hoff; unfold len; simpl; lia].
  rewrite Hcov.
  destruct (create_stop_ok trajectory Hne) as [c Hc]. rewrite Hc.
  cbn [mbind result_bind].
  assert (Hmove : STEPSegmenter._get_points self1
                    (len (STEPSegmenter.cache self1) - 1 + 1)
                    (STEPSegmenter.cache_offset self1
                     + len (STEPSegmenter.cache self1) - 1) = []).
  { unfold STEPSegmenter._get_points. rewrite Hoff.
    destruct (Z.ltb_spec (0 + len (STEPSegmenter.cache self1) - 1)
                (len (STEPSegmenter.cache self1) - 1 + 1)); [reflexivity|lia]. }
  rewrite Hmove. exists c. reflexivity.
Qed.

Lemma step_stationary_single_stop_witness :
  ∃ c,
    STEPSegmenter.process
      (STEPSegmenter.mk 50 60 (sqrt 2 / 4 * 50) ((50 / (sqrt 2 / 4 * 50)) ^ 2)
         None None [] 0 None None)
      [mkPoint 1 2 0 "a" None; mkPoint 1 2 100 "a" None]
    = Ok [Stop [mkPoint 1 2 0 "a" None; mkPoint 1 2 100 "a" None] (Some c)].
Proof.
  apply (step_stationary_single_stop 50 60 None _ _ 1 2
           (mkPoint 1 2 0 "a" None) (mkPoint 1 2 100 "a" None)).
  - apply step_init_default. lra.
  - lra.
  - repeat constructor.
  - reflexivity.
  - reflexivity.
  - simpl. lra.
Defined.

(** ** Map matcher: a graph on which every window is matched *)

Lemma match_window_matched (self : OnlineMapMatcher.t) (o : Point)
    (rest : list Point) :
  (∀ a b c path, path ≠ [] →
     OnlineMapMatcher.lmm_match (OnlineMapMatcher.world self) a b c path
     ≠ []) →
  OnlineMapMatcher.buffer self = o :: rest →
  ∃ q, OnlineMapMatcher._match_window self = Some q
       ∧ same_fix q o ∧ ∃ r, road_id q = Some (RoadStr r).
Proof.
  intros Hm Hb. unfold OnlineMapMatcher._match_window. rewrite Hb.
  destruct (OnlineMapMatcher.lmm_match _ _ _ _ _) as [|[u v] states] eqn:E.
  { exfalso. apply Hm in E; [exact E|discriminate]. }
  destruct (match
              match OnlineMapMatcher.get_edge_data
                      (OnlineMapMatcher.world self) u v
              with
              | Some (_ :: _ as d) => OnlineMapMatcher.lookup_key 0 d
              | _ => None
              end
            with
            | Some a => _
            | None => _
            end) as [sla slo].
  eexists. split; [reflexivity|]. split; [split; reflexivity|].
  eexists. reflexivity.
Qed.

(** X23. On a road graph where the matching finds a state for every
    window, every fix that leaves the wrapper carries a [road_id], a
    string, and still has the timestamp and [obj_id] of its original:
    none passes through unmatched, the fixes flushed at the end
    included. *)
Theorem wrapper_stream_all_matched
    (w : OnlineMapMatcher.env) (W : Z)
    (max_dist max_dist_init min_prob_norm : R) (point_stream : list Point) :
  (∀ a b c path, path ≠ [] → OnlineMapMatcher.lmm_match w a b c path ≠ []) →
  ∃ matcher' out,
    MapMatchedStreamWrapper.stream
      (OnlineMapMatcher.__init__ w W max_dist max_dist_init min_prob_norm)
      point_stream
    = Ok (matcher', out)
    ∧ Forall2 (λ q p, same_fix q p ∧ ∃ r, road_id q = Some (RoadStr r))
        out point_stream.
Proof.
  intros Hm.
  destruct (stream_rel
              (λ q p, same_fix q p ∧ ∃ r, road_id q = Some (RoadStr r))
              (λ s, OnlineMapMatcher.world s = w)) with
    (self := OnlineMapMatcher.__init__ w W max_dist max_dist_init
               min_prob_norm)
    (pts := point_stream)
    as (self' & out & Hs & He & Hall).
  - intros s b Hw. exact Hw.
  - intros s o rest Hw Hb. apply (match_window_matched s o rest); [|exact Hb].
    rewrite Hw. exact Hm.
  - reflexivity.
  - exists self', out. split; [exact Hs|exact Hall].
Qed.

Lemma wrapper_stream_all_matched_witness :
  ∃ matcher' out,
    MapMatchedStreamWrapper.stream
      (OnlineMapMatcher.__init__
         (OnlineMapMatcher.mkEnv (λ _ _, None) (λ _, (0%R, 0%R))
            (λ _ _ _ _, [(1%Z, 2%Z)]) (λ _ xy, xy) (λ _, "n"%string))
         2 50 100 (1 / 1000))
      [mkPoint 1 2 0 "a" None; mkPoint 1 2 1 "a" None]
    = Ok (matcher', out)
    ∧ Forall2 (λ q p, same_fix q p ∧ ∃ r, road_id q = Some (RoadStr r))
        out [mkPoint 1 2 0 "a" None; mkPoint 1 2 1 "a" None].
Proof.
  apply (wrapper_stream_all_matched
           (OnlineMapMatcher.mkEnv (λ _ _, None) (λ _, (0%R, 0%R))
              (λ _ _ _ _, [(1%Z, 2%Z)]) (λ _ xy, xy) (λ _, "n"%string))
           2 50 100 (1 / 1000)
           [mkPoint 1 2 0 "a" None; mkPoint 1 2 1 "a" None]).
  intros a b c path _. discriminate.
Defined.

(** ** STEP: feeding a stream in pieces *)

